(** * Live-Captions-Saver: the service worker's archival and export core

    A shallow embedding of the background service worker (utility
    functions, alias transforms, screenshot ring buffer, exporters,
    auto-save guard and session archive) together with the properties
    stated about it, and of the parts of the popup that choose the save
    format, store the aliases and format the text to copy.

    Conventions of the embedding.
    - A JavaScript string is a [string]; a character stands for one
      UTF-16 code unit below 256.
    - An object used as a dictionary (the alias map, [chrome.storage.local],
      the [screenshotBuffers] Map) is a [gmap] with string keys; the alias
      map, which is read by property access, also answers for the names it
      inherits from [Object.prototype].
    - A value that may be [undefined] or [null] is an [option].
    - Module-level [let] variables and the extension storage are threaded
      explicitly as state.
    - An [await]ed storage call is one atomic step that succeeds; a handler
      runs to completion before the next one is looked at, except for the
      auto-save handler, whose admission and completion are separate events. *)

From Stdlib Require Import String Ascii NArith ZArith List Lia Bool.
From Stdlib Require Import DecimalString DecimalN Permutation Sorted.
From stdpp Require Import base option list gmap strings sorting.

Open Scope string_scope.
Open Scope list_scope.

#[local] Arguments String.append !_ _ / : simpl nomatch.

(** ** JavaScript string primitives *)

Module JsString.

(** The code units below 256 that [String.prototype.trim] removes:
    TAB, LF, VT, FF, CR, SPACE and NBSP. *)
Definition is_white_space (c : ascii) : bool :=
  let n := N_of_ascii c in
  (((9 <=? n) && (n <=? 13)) || (n =? 32) || (n =? 160))%N.

Fixpoint trimStart (s : string) : string :=
  match s with
  | EmptyString => EmptyString
  | String c s' => if is_white_space c then trimStart s' else s
  end.

Fixpoint trimEnd (s : string) : string :=
  match s with
  | EmptyString => EmptyString
  | String c s' =>
      match trimEnd s' with
      | EmptyString =>
          if is_white_space c then EmptyString else String c EmptyString
      | r => String c r
      end
  end.

(** [s.trim()] *)
Definition trim (s : string) : string := trimEnd (trimStart s).

(** [s.split(sep)] for a separator of one character. *)
Fixpoint split (sep : ascii) (s : string) : list string :=
  match s with
  | EmptyString => [EmptyString]
  | String c s' =>
      if Ascii.eqb c sep then EmptyString :: split sep s'
      else match split sep s' with
           | p :: ps => String c p :: ps
           | [] => [String c EmptyString]
           end
  end.

(** [parts.join(sep)] *)
Fixpoint join (sep : string) (parts : list string) : string :=
  match parts with
  | [] => EmptyString
  | [p] => p
  | p :: ps => p +:+ sep +:+ join sep ps
  end.

Fixpoint drop (n : nat) (s : string) : string :=
  match n, s with
  | S n', String _ s' => drop n' s'
  | _, _ => s
  end.

(** [s.replace(pat, rep)] with a string pattern: only the first
    occurrence is replaced ([rep] holds no [$] pattern in the callers). *)
Fixpoint replace (pat rep s : string) : string :=
  if String.prefix pat s then rep +:+ drop (String.length pat) s
  else match s with
       | EmptyString => EmptyString
       | String c s' => String c (replace pat rep s')
       end.

(** [s.replace(/[class]/g, String.fromCharCode(rep))] for a character
    class given as a predicate. *)
Fixpoint replaceClass (cls : ascii -> bool) (rep : ascii) (s : string) : string :=
  match s with
  | EmptyString => EmptyString
  | String c s' =>
      String (if cls c then rep else c) (replaceClass cls rep s')
  end.

(** Truthiness of a string: only the empty string is falsy. *)
Definition truthy (s : string) : bool :=
  match s with EmptyString => false | _ => true end.

(** [a || b] on strings. *)
Definition or_else (a b : string) : string := if truthy a then a else b.

Fixpoint all_chars (p : ascii -> bool) (s : string) : bool :=
  match s with
  | EmptyString => true
  | String c s' => p c && all_chars p s'
  end.

Fixpoint last_char (s : string) : option ascii :=
  match s with
  | EmptyString => None
  | String c EmptyString => Some c
  | String _ s' => last_char s'
  end.

Definition first_char (s : string) : option ascii :=
  match s with
  | EmptyString => None
  | String c _ => Some c
  end.

(** [pat] occurs in [s] starting at offset [n]. *)
Definition occurs_at (pat s : string) (n : nat) : Prop :=
  exists a b, s = a +:+ pat +:+ b /\ String.length a = n.

(** The text [p] does not hold the character [sep]. *)
Definition free_of (sep : ascii) (p : string) : Prop :=
  all_chars (fun c => negb (Ascii.eqb c sep)) p = true.

(** [r] is [s] without a run of white space at each end, and has no
    white space at either end itself. *)
Definition trimmed (s r : string) : Prop :=
  exists l t,
    s = l +:+ r +:+ t
    /\ all_chars is_white_space l = true
    /\ all_chars is_white_space t = true
    /\ (forall c, first_char r = Some c -> is_white_space c = false)
    /\ (forall c, last_char r = Some c -> is_white_space c = false).

(** [r] is [s] with the leftmost occurrence of [pat] cut out, or [s]
    itself when [pat] does not occur. *)
Definition firstRemoved (pat s r : string) : Prop :=
  (r = s /\ forall n, ~ occurs_at pat s n)
  \/ (exists a b,
        s = a +:+ pat +:+ b /\ r = a +:+ b
        /\ forall n, (n < String.length a)%nat -> ~ occurs_at pat s n).

(** A decimal digit. *)
Definition is_digit (c : ascii) : bool :=
  ((48 <=? N_of_ascii c) && (N_of_ascii c <=? 57))%N.


End JsString.

(** ** Utility functions *)

Definition quote_char : ascii := ascii_of_nat 34.

(** The character class of the sanitising regular expression: the nine
    punctuation marks that file names may not hold (less-than, greater-than,
    colon, double quote, slash, backslash, bar, question mark, star) and
    the control characters 0x00 to 0x1F. *)
Definition forbidden_in_filename (c : ascii) : bool :=
  (N_of_ascii c <=? 31)%N
  || bool_decide (c ∈ ["<"; ">"; ":"; quote_char; "/"; "\"; "|"; "?"; "*"]%char).

Definition platform_name : string := "Microsoft Teams".
Definition default_meeting_name : string := "Meeting".

Definition getSanitizedMeetingName (fullTitle : option string) : string :=
  match fullTitle with
  | None | Some EmptyString => default_meeting_name
  | Some t =>
      let parts := JsString.split "|" t in
      let meetingName :=
        if (2 <? List.length parts)%nat then nth 1 parts EmptyString
        else nth 0 parts EmptyString in
      let cleanedName :=
        JsString.trim (JsString.replace platform_name EmptyString meetingName) in
      JsString.or_else
        (JsString.replaceClass forbidden_in_filename "_" cleanedName)
        default_meeting_name
  end.

(** The title clean-up as its description words it, for comparison with
    [getSanitizedMeetingName]: the platform name is stripped where it ends
    the chosen part, and nowhere else. *)
Fixpoint stripSuffix (suffix s : string) : string :=
  match s with
  | EmptyString => EmptyString
  | String c s' =>
      if String.eqb s suffix then EmptyString else String c (stripSuffix suffix s')
  end.

Definition sanitizeMeetingTitle_described (fullTitle : option string) : string :=
  match fullTitle with
  | None | Some EmptyString => default_meeting_name
  | Some t =>
      let parts := JsString.split "|" t in
      let chosen :=
        if (2 <? List.length parts)%nat then nth 1 parts EmptyString
        else nth 0 parts EmptyString in
      let cleaned := JsString.trim (stripSuffix platform_name chosen) in
      JsString.or_else
        (JsString.replaceClass forbidden_in_filename "_" cleaned)
        default_meeting_name
  end.

(** ** Data model *)

(** A transcript line, as the capture source produces it. *)
Record TranscriptEntry := mkEntry {
  Time : string;
  Name : string;
  Text : string
}.

(** An element of [currentAttendees] or [attendeeHistory]: a name and the
    remaining own properties, which the transforms carry over untouched. *)
Record Named := mkNamed {
  name : string;
  others : list (string * string)
}.

Record AttendeeReport := mkReport {
  attendeeList : list string;
  currentAttendees : list Named;
  attendeeHistory : list Named;
  totalUniqueAttendees : N;
  meetingStartTime : N
}.

#[global] Instance TranscriptEntry_eq_dec : EqDecision TranscriptEntry.
Proof. solve_decision. Defined.
#[global] Instance Named_eq_dec : EqDecision Named.
Proof. solve_decision. Defined.
#[global] Instance AttendeeReport_eq_dec : EqDecision AttendeeReport.
Proof. solve_decision. Defined.

(** What the host's [Date] and locale give: not part of the repository. *)
Class Host := {
  (** [new Date(ms).toLocaleString()] *)
  toLocaleString : N -> string;
  (** [new Date(ms).toLocaleDateString()] *)
  toLocaleDateString : N -> string;
  (** [new Date(ms).toLocaleTimeString()] *)
  toLocaleTimeString : N -> string;
  (** [new Date(text).getTime()], [None] for an invalid date (NaN) *)
  parseDate : string -> option Z
}.

Definition newline : string := String (ascii_of_nat 10) EmptyString.

(** Decimal rendering of a number in a template literal. *)
Definition decimal (n : N) : string := NilZero.string_of_uint (N.to_uint n).
Definition decimalZ (z : Z) : string := NilZero.string_of_int (Z.to_int z).

(** ** Alias transforms

    The transforms are about object identity (the fast path hands back the
    very array it was given, the slow path builds new objects), so the
    objects live in a heap: a location is an index into a list of cells and
    allocation appends a cell. *)

Module Alias.

Definition loc := nat.

Inductive cell :=
| Entry (e : TranscriptEntry)
| Array (elems : list loc)
| Report (r : AttendeeReport).

Definition heap := list cell.

(** The alias map is a plain object: its own keys are speaker names and
    its own values the alias texts the popup stored; the parameter default
    [aliases = {}] maps an absent argument to [∅]. *)
Definition aliasMap := gmap string string.

(** [Object.keys(aliases).length === 0] *)
Definition noAliases (aliases : aliasMap) : bool := (size aliases =? 0)%nat.

(** The names a plain object inherits from [Object.prototype]. Each holds a
    function or an object, so none is nullish and none has a [trim]
    method. *)
Definition inheritedKeys : list string :=
  ["constructor"; "hasOwnProperty"; "isPrototypeOf"; "propertyIsEnumerable";
   "toLocaleString"; "toString"; "valueOf"; "__proto__";
   "__defineGetter__"; "__defineSetter__"; "__lookupGetter__"; "__lookupSetter__"].

(** What [aliases[n]] evaluates to. *)
Inductive property :=
| OwnText (a : string)
| Inherited
| Undefined.

Definition getProperty (aliases : aliasMap) (n : string) : property :=
  match aliases !! n with
  | Some a => OwnText a
  | None => if bool_decide (n ∈ inheritedKeys) then Inherited else Undefined
  end.

(** [aliases[n]?.trim() || n]. The optional chain stops at [undefined]
    only: on an inherited value the call of [trim] is a TypeError, which is
    [None] here. *)
Definition aliasedName (aliases : aliasMap) (n : string) : option string :=
  match getProperty aliases n with
  | OwnText a => Some (JsString.or_else (JsString.trim a) n)
  | Undefined => Some n
  | Inherited => None
  end.

(** [{ ...entry, Name: newName || entry.Name }] *)
Definition aliasEntry (aliases : aliasMap) (e : TranscriptEntry)
    : option TranscriptEntry :=
  newName ← aliasedName aliases (Name e);
  Some {| Time := Time e; Name := newName; Text := Text e |}.

Definition aliasNamed (aliases : aliasMap) (a : Named) : option Named :=
  newName ← aliasedName aliases (name a);
  Some {| name := newName; others := others a |}.

Definition aliasReport (aliases : aliasMap) (r : AttendeeReport)
    : option AttendeeReport :=
  newList ← mapM (aliasedName aliases) (attendeeList r);
  newCurrent ← mapM (aliasNamed aliases) (currentAttendees r);
  newHistory ← mapM (aliasNamed aliases) (attendeeHistory r);
  Some {| attendeeList := newList;
          currentAttendees := newCurrent;
          attendeeHistory := newHistory;
          totalUniqueAttendees := totalUniqueAttendees r;
          meetingStartTime := meetingStartTime r |}.

(** The lookup of [n] gives a text or [undefined]: [n] is an own key of
    the map, or no inherited name. *)
Definition resolvable (aliases : aliasMap) (n : string) : Prop :=
  is_Some (aliases !! n) \/ n ∉ inheritedKeys.

(** The entry the description of the transform asks for: the trimmed alias
    of the name when the map has one that is not blank, the original name
    otherwise; time and text as they were. *)
Definition renamed (aliases : aliasMap) (e : TranscriptEntry) : TranscriptEntry :=
  {| Time := Time e;
     Name := match aliases !! Name e with
             | Some a =>
                 if bool_decide (JsString.trim a = EmptyString) then Name e
                 else JsString.trim a
             | None => Name e
             end;
     Text := Text e |}.

Definition readEntry (h : heap) (l : loc) : option TranscriptEntry :=
  match h !! l with
  | Some (Entry e) => Some e
  | _ => None
  end.

(** The entries an array of the heap holds, in order. *)
Definition readTranscript (h : heap) (t : loc) : option (list TranscriptEntry) :=
  match h !! t with
  | Some (Array ls) => mapM (readEntry h) ls
  | _ => None
  end.

Definition readReport (h : heap) (r : loc) : option AttendeeReport :=
  match h !! r with
  | Some (Report rep) => Some rep
  | _ => None
  end.

(** [applyAliasesToTranscript(transcriptArray, aliases)]: the new heap and
    the location of the returned array; [None] when the call throws
    ([transcriptArray] is not an array of entries, or the callback throws). *)
Definition applyAliasesToTranscript
    (h : heap) (transcriptArray : loc) (aliases : aliasMap) : option (heap * loc) :=
  if noAliases aliases then Some (h, transcriptArray)
  else
    es ← readTranscript h transcriptArray;
    mapped ← mapM (aliasEntry aliases) es;
    let h1 := h ++ (Entry <$> mapped) in
    Some (h1 ++ [Array (seq (List.length h) (List.length mapped))], List.length h1).

(** [applyAliasesToAttendeeReport(attendeeReport, aliases)]; an absent
    report is [None]. *)
Definition applyAliasesToAttendeeReport
    (h : heap) (attendeeReport : option loc) (aliases : aliasMap)
    : option (heap * option loc) :=
  match attendeeReport with
  | None => Some (h, None)
  | Some r =>
      if noAliases aliases then Some (h, Some r)
      else
        rep ← readReport h r;
        aliasedReport ← aliasReport aliases rep;
        Some (h ++ [Report aliasedReport], Some (List.length h))
  end.

End Alias.

(** ** Formatting functions *)

Module Format.
Section WithHost.
Context `{Host}.

(** The attendee block of [formatAsTxt]; empty unless a report with at
    least one unique attendee is given. *)
Definition txtAttendeeBlock (attendeeReport : option AttendeeReport) : string :=
  match attendeeReport with
  | Some r =>
      if (0 <? totalUniqueAttendees r)%N then
        "=== MEETING ATTENDEES ===" +:+ newline
        +:+ "Total Attendees: " +:+ decimal (totalUniqueAttendees r) +:+ newline
        +:+ "Meeting Start: " +:+ toLocaleString (meetingStartTime r) +:+ newline
        +:+ newline +:+ "Attendee List:" +:+ newline
        +:+ foldr (fun n acc => "- " +:+ n +:+ newline +:+ acc) EmptyString (attendeeList r)
        +:+ newline +:+ "=== TRANSCRIPT ===" +:+ newline
      else EmptyString
  | None => EmptyString
  end.

Definition txtLine (e : TranscriptEntry) : string :=
  "[" +:+ Time e +:+ "] " +:+ Name e +:+ ": " +:+ Text e.

Definition formatAsTxt (transcript : list TranscriptEntry)
    (attendeeReport : option AttendeeReport) : string :=
  txtAttendeeBlock attendeeReport +:+ JsString.join newline (txtLine <$> transcript).

Definition mdAttendeeBlock (attendeeReport : option AttendeeReport) : string :=
  match attendeeReport with
  | Some r =>
      if (0 <? totalUniqueAttendees r)%N then
        "# Meeting Attendees" +:+ newline +:+ newline
        +:+ "**Total Attendees:** " +:+ decimal (totalUniqueAttendees r)
        +:+ newline +:+ newline
        +:+ "**Meeting Start:** " +:+ toLocaleString (meetingStartTime r)
        +:+ newline +:+ newline
        +:+ "## Attendee List" +:+ newline +:+ newline
        +:+ foldr (fun n acc => "- " +:+ n +:+ newline +:+ acc) EmptyString (attendeeList r)
        +:+ newline +:+ "---" +:+ newline +:+ newline
        +:+ "# Transcript" +:+ newline +:+ newline
      else EmptyString
  | None => EmptyString
  end.

(** The bold speaker and time header of a run. *)
Definition mdHeader (e : TranscriptEntry) : string :=
  "**" +:+ Name e +:+ "** (" +:+ Time e +:+ "):".

Definition mdQuoted (e : TranscriptEntry) : string := "> " +:+ Text e.

(** The callback of [transcript.map] with the captured variable
    [lastSpeaker] threaded through ([None] is [null]). *)
Fixpoint mdPieces (lastSpeaker : option string) (transcript : list TranscriptEntry)
    : list string :=
  match transcript with
  | [] => []
  | entry :: rest =>
      if bool_decide (Some (Name entry) <> lastSpeaker) then
        (newline +:+ mdHeader entry +:+ newline +:+ mdQuoted entry)
          :: mdPieces (Some (Name entry)) rest
      else mdQuoted entry :: mdPieces lastSpeaker rest
  end.

Definition formatAsMarkdown (transcript : list TranscriptEntry)
    (attendeeReport : option AttendeeReport) : string :=
  mdAttendeeBlock attendeeReport
  +:+ JsString.trim (JsString.join newline (mdPieces None transcript)).

End WithHost.

(** The grouping the description of [formatAsMarkdown] speaks of: the
    maximal runs of consecutive entries with the same speaker. *)
Fixpoint speakerRuns (transcript : list TranscriptEntry) : list (list TranscriptEntry) :=
  match transcript with
  | [] => []
  | e :: rest =>
      match speakerRuns rest with
      | (e' :: run) :: runs =>
          if bool_decide (Name e = Name e') then (e :: e' :: run) :: runs
          else [e] :: (e' :: run) :: runs
      | runs => [e] :: runs
      end
  end.

(** The lines of one run: a blank line, the header of its first entry,
    then one quoted line per entry. *)
Definition runLines (run : list TranscriptEntry) : list string :=
  match run with
  | [] => []
  | e :: _ => EmptyString :: mdHeader e :: (mdQuoted <$> run)
  end.

(** All the lines of the runs of a transcript. *)
Definition allRunLines (t : list TranscriptEntry) : list string :=
  concat (runLines <$> speakerRuns t).

(** The lines one entry contributes to the rendering, given the speaker
    before it; [lineGroups] lists them entry by entry. *)
Definition entryLines (lastSpeaker : option string) (e : TranscriptEntry) : list string :=
  if bool_decide (Some (Name e) <> lastSpeaker)
  then [EmptyString; mdHeader e; mdQuoted e]
  else [mdQuoted e].

Fixpoint lineGroups (lastSpeaker : option string) (t : list TranscriptEntry)
    : list (list string) :=
  match t with
  | [] => []
  | e :: rest => entryLines lastSpeaker e :: lineGroups (Some (Name e)) rest
  end.

End Format.

(** ** Format selection *)

Record Config := mkConfig {
  allowedSaveFormats : option (list string);
  defaultSaveFormat : option string;
  filenamePattern : option string
}.

Module Exporter.

(** [config.allowedSaveFormats || ['md', 'txt']]: an array is truthy even
    when it is empty. *)
Definition allowedFormats (config : Config) : list string :=
  match allowedSaveFormats config with
  | Some l => l
  | None => ["md"; "txt"]
  end.

(** [allowed.includes(f)] *)
Definition includes (allowed : list string) (f : string) : bool :=
  bool_decide (f ∈ allowed).

(** [allowedFormats[0] || 'md'] *)
Definition firstAllowedOrMd (allowed : list string) : string :=
  match allowed with
  | f :: _ => JsString.or_else f "md"
  | [] => "md"
  end.

(** The fallback shared by both resolvers: the configured default when it
    is truthy and allowed, else the first allowed format or ["md"]. *)
Definition fallbackFormat (config : Config) : string :=
  let allowed := allowedFormats config in
  match defaultSaveFormat config with
  | Some d =>
      if JsString.truthy d && includes allowed d then d
      else firstAllowedOrMd allowed
  | None => firstAllowedOrMd allowed
  end.

(** The resolution at the head of [saveTranscript]; [format] is [None]
    when the message carries no format. *)
Definition selectedFormat (config : Config) (format : option string) : string :=
  let allowed := allowedFormats config in
  let selected :=
    match format with
    | Some f => if includes allowed f then Some f else None
    | None => None
    end in
  match selected with
  | Some f => if JsString.truthy f then f else fallbackFormat config
  | None => fallbackFormat config
  end.

(** The resolution in the [save_on_leave] handler, from the stored
    setting [defaultSaveFormat]. *)
Definition formatToSave (config : Config) (stored : option string) : string :=
  let allowed := allowedFormats config in
  match stored with
  | Some f =>
      if negb (JsString.truthy f) || negb (includes allowed f)
      then fallbackFormat config else f
  | None => fallbackFormat config
  end.

(** The [switch] of [saveTranscript]: extension and MIME type. *)
Definition extensionAndMime (selected : string) : string * string :=
  if bool_decide (selected = "md") then ("md", "text/markdown")
  else ("txt", "text/plain").

End Exporter.

(** ** Extension storage *)

Record Screenshot := mkShot {
  dataUrl : option string;
  timestamp : option Z
}.

#[global] Instance Screenshot_eq_dec : EqDecision Screenshot.
Proof. solve_decision. Defined.

Module Archive.

Record SessionMetadata := mkMeta {
  id : string;
  title : string;
  (** milliseconds since the epoch; the source keeps the ISO rendering *)
  timestamp : N;
  date : string;
  time : string;
  captionCount : nat;
  duration : string;
  speakers : list string;
  attendees : option (list string);
  attendeeCount : N;
  preview : string;
  chunkCount : nat
}.

End Archive.

(** A value kept in [chrome.storage.local]. *)
Inductive stored :=
| StoredEntries (c : list TranscriptEntry)
| StoredAttendees (r : AttendeeReport)
| StoredIndex (ix : list Archive.SessionMetadata)
| StoredScreenshots (b : list Screenshot).

(** [chrome.storage.local] *)
Abbreviation storage := (gmap string stored).

(** ** Handlers in flight

    The message listener starts an asynchronous function for every message
    and queues nothing. The function awaits
    [chrome.storage.session.get('speakerAliases')] before it looks at the
    message, so a message that arrives changes nothing by itself; its
    handler then runs from one [await] to the next, and between two of its
    segments the segments of other handlers may run. A storage call acts on
    the store when it is made, and a read returns what the store held
    then. A restart of the service worker drops the handlers in flight. *)

Module Handlers.

Inductive event (message : Type) :=
| Arrive (msg : message)
| Resume (i : nat)
| Restarted.
#[global] Arguments Arrive {message} msg.
#[global] Arguments Resume {message} i.
#[global] Arguments Restarted {message}.

(** The state the handlers share, and the handlers that have not ended,
    oldest first. *)
Record world (state task : Type) := mkWorld {
  shared : state;
  inFlight : list task
}.
#[global] Arguments mkWorld {state task} shared inFlight.
#[global] Arguments shared {state task} w.
#[global] Arguments inFlight {state task} w.

Section Pool.
Context {state message task : Type}.

(** The handler of a message before its first segment; one segment of a
    handler, with what is left of it; and what a restart does to the
    state. *)
Variable spawn : message -> task.
Variable segment : task -> state -> state * option task.
Variable restart : state -> state.

(** [Resume i] runs the next segment of the [i]-th handler in flight. *)
Definition step (w : world state task) (e : event message) : world state task :=
  match e with
  | Arrive msg => mkWorld (shared w) (inFlight w ++ [spawn msg])
  | Resume i =>
      match inFlight w !! i with
      | Some t =>
          let '(st, rest) := segment t (shared w) in
          mkWorld st
            match rest with
            | Some t' => <[i := t']> (inFlight w)
            | None => delete i (inFlight w)
            end
      | None => w
      end
  | Restarted => mkWorld (restart (shared w)) []
  end.

Definition run (events : list (event message)) (w : world state task)
    : world state task :=
  foldl step w events.

(** No handler is in flight. *)
Definition idle (st : state) : world state task := mkWorld st [].

(** A message whose handler runs [n] segments with nothing in between. *)
Definition alone (n : nat) (msg : message) : list (event message) :=
  Arrive msg :: replicate n (Resume 0).

(** Up to [n] segments of one handler in a row. *)
Fixpoint drive (n : nat) (t : task) (st : state) : state * option task :=
  match n with
  | O => (st, Some t)
  | S n' =>
      match segment t st with
      | (st', Some t') => drive n' t' st'
      | (st', None) => (st', None)
      end
  end.

End Pool.

End Handlers.

(** ** Screenshot buffer *)

Module Screenshots.

Definition SCREENSHOT_KEY_PREFIX : string := "screenshots_".
Definition MAX_SCREENSHOTS_PER_MEETING : nat := 20.

(** The in-memory Map [screenshotBuffers] and the persisted store. *)
Record state := mkState {
  screenshotBuffers : gmap string (list Screenshot);
  local : storage
}.

Definition initial : state :=
  {| screenshotBuffers := ∅; local := ∅ |}.

Definition getScreenshotStorageKey (meetingId : string) : string :=
  SCREENSHOT_KEY_PREFIX +:+ meetingId.

Definition truthyText (o : option string) : bool :=
  match o with Some s => JsString.truthy s | None => false end.

(** Truthiness of a number that may be absent: [0] is falsy. *)
Definition truthyNumber (o : option Z) : bool :=
  match o with Some n => negb (n =? 0)%Z | None => false end.

(** The guard at the head of [storeScreenshotForMeeting], negated:
    [meetingId && screenshot?.dataUrl && screenshot?.timestamp]. *)
Definition accepted (meetingId : string) (screenshot : option Screenshot) : bool :=
  JsString.truthy meetingId
  && match screenshot with
     | Some shot => truthyText (dataUrl shot) && truthyNumber (timestamp shot)
     | None => false
     end.

(** [buffer.slice(-n)] *)
Definition sliceLast {A} (n : nat) (buffer : list A) : list A :=
  drop (List.length buffer - n) buffer.

(** The buffer the function starts from: the cached one, else the
    persisted array, else a new empty array. Only this module writes keys
    with the screenshot prefix, so a persisted array holds screenshots. *)
Definition loadBuffer (meetingId : string) (st : state) : list Screenshot :=
  match screenshotBuffers st !! meetingId with
  | Some buffer => buffer
  | None =>
      match local st !! getScreenshotStorageKey meetingId with
      | Some (StoredScreenshots b) => b
      | _ => []
      end
  end.

Definition storeScreenshotForMeeting
    (meetingId : string) (screenshot : option Screenshot) (st : state) : state :=
  match screenshot with
  | Some shot =>
      if accepted meetingId screenshot then
        let storageKey := getScreenshotStorageKey meetingId in
        let buffer := loadBuffer meetingId st ++ [shot] in
        let buffer :=
          if (MAX_SCREENSHOTS_PER_MEETING <? List.length buffer)%nat
          then sliceLast MAX_SCREENSHOTS_PER_MEETING buffer
          else buffer in
        {| screenshotBuffers := <[meetingId := buffer]> (screenshotBuffers st);
           local := <[storageKey := StoredScreenshots buffer]> (local st) |}
      else st
  | None => st
  end.

Definition clearScreenshotsForMeeting (meetingId : string) (st : state) : state :=
  if JsString.truthy meetingId then
    {| screenshotBuffers := delete meetingId (screenshotBuffers st);
       local := delete (getScreenshotStorageKey meetingId) (local st) |}
  else st.

End Screenshots.

(** ** The handlers of the screenshot buffers, cut at their awaits *)

Module ScreenshotHandlers.
Import Screenshots.

(** The messages that reach the screenshot buffers. *)
Inductive message :=
| store_screenshot (meetingId : string) (screenshot : option Screenshot)
| update_badge_status (capturing : bool) (meetingId : option string).

(** A handler in flight: before the [switch], or in
    [storeScreenshotForMeeting] with the answer of
    [chrome.storage.local.get(storageKey)]. *)
Inductive task :=
| Body (msg : message)
| Loaded (meetingId : string) (shot : Screenshot) (found : option stored).

(** [buffer.push(screenshot)] and the lines after it: the trimmed buffer
    goes to the cache and to the store. *)
Definition pushAndStore (meetingId : string) (buffer : list Screenshot)
    (shot : Screenshot) (st : state) : state :=
  let storageKey := getScreenshotStorageKey meetingId in
  let buffer := buffer ++ [shot] in
  let buffer :=
    if (MAX_SCREENSHOTS_PER_MEETING <? List.length buffer)%nat
    then sliceLast MAX_SCREENSHOTS_PER_MEETING buffer
    else buffer in
  {| screenshotBuffers := <[meetingId := buffer]> (screenshotBuffers st);
     local := <[storageKey := StoredScreenshots buffer]> (local st) |}.

(** One segment. [storeScreenshotForMeeting] reads the cache, and on a
    miss it asks the store and waits: what it appends to is then the
    answer, whatever the cache and the store hold by the time it goes
    on. *)
Definition segment (t : task) (st : state) : state * option task :=
  match t with
  | Body (store_screenshot meetingId screenshot) =>
      match screenshot with
      | Some shot =>
          if accepted meetingId screenshot then
            match screenshotBuffers st !! meetingId with
            | Some buffer => (pushAndStore meetingId buffer shot st, None)
            | None =>
                (st, Some (Loaded meetingId shot
                             (local st !! getScreenshotStorageKey meetingId)))
            end
          else (st, None)
      | None => (st, None)
      end
  | Loaded meetingId shot found =>
      let buffer := match found with Some (StoredScreenshots b) => b | _ => [] end in
      (pushAndStore meetingId buffer shot st, None)
  | Body (update_badge_status capturing meetingId) =>
      (if capturing then st
       else
         match meetingId with
         | Some meetingId =>
             if JsString.truthy meetingId then clearScreenshotsForMeeting meetingId st
             else st
         | None => st
         end,
       None)
  end.

(** A restart runs the module again: a new empty [screenshotBuffers] map,
    and [chrome.storage.local] as it was. *)
Definition restart (st : state) : state :=
  {| screenshotBuffers := ∅; local := local st |}.

Abbreviation event := (Handlers.event message).
Abbreviation world := (Handlers.world state task).

Definition step (w : world) (e : event) : world :=
  Handlers.step Body segment restart w e.

Definition run (events : list event) (w : world) : world :=
  Handlers.run Body segment restart events w.

(** A worker that has just started on an empty store. *)
Definition start : world := Handlers.idle initial.

(** The frames of the accepted [store_screenshot] messages for
    [meetingId] that have arrived. *)
Definition sent (meetingId : string) (events : list event) : list Screenshot :=
  omap (fun e =>
          match e with
          | Handlers.Arrive (store_screenshot id (Some shot)) =>
              if bool_decide (id = meetingId) && accepted id (Some shot)
              then Some shot else None
          | _ => None
          end) events.

(** A stored value is a buffer of the meeting: an array of one to twenty
    frames, each of them sent for the meeting. *)
Definition bufferOf (meetingId : string) (events : list event) (v : stored) : Prop :=
  exists buffer,
    v = StoredScreenshots buffer
    /\ (1 <= List.length buffer <= MAX_SCREENSHOTS_PER_MEETING)%nat
    /\ forall shot, shot ∈ buffer -> shot ∈ sent meetingId events.

(** What a handler in flight holds came from a message and from the
    store. *)
Definition heldBy (events : list event) (t : task) : Prop :=
  match t with
  | Body msg => Handlers.Arrive msg ∈ events
  | Loaded meetingId shot found =>
      shot ∈ sent meetingId events
      /\ forall v, found = Some v -> bufferOf meetingId events v
  end.

(** The cache holds what the store holds, the store holds buffers, and
    the handlers in flight hold frames that were sent. *)
Definition sound (events : list event) (w : world) : Prop :=
  (forall meetingId buffer,
     screenshotBuffers (Handlers.shared w) !! meetingId = Some buffer ->
     local (Handlers.shared w) !! getScreenshotStorageKey meetingId
     = Some (StoredScreenshots buffer))
  /\ (forall k v,
        local (Handlers.shared w) !! k = Some v ->
        exists meetingId, k = getScreenshotStorageKey meetingId
                          /\ bufferOf meetingId events v)
  /\ Forall (heldBy events) (Handlers.inFlight w).

End ScreenshotHandlers.

(** ** Auto-save guard *)

Module AutoSave.

(** The fields of a [save_on_leave] message. *)
Record LeaveMessage := mkLeave {
  meetingTitle : string;
  recordingStartTime : string;
  transcriptArray : list TranscriptEntry;
  attendeeReport : option AttendeeReport
}.

(** The settings read from [chrome.storage.sync]. *)
Record Settings := mkSettings {
  autoSaveOnEnd : bool;
  storedDefaultSaveFormat : option string
}.

(** What the awaited calls of one handler run give back. *)
Record LeaveEnv := mkEnv {
  speakerAliases : Alias.aliasMap;
  (** [None]: [chrome.storage.sync.get] rejects *)
  settingsRead : option Settings;
  (** [None]: [loadExtensionConfig] rejects *)
  configLoaded : option Config;
  (** [saveTranscript] rejects at one of its awaited calls *)
  saveThrows : bool
}.

(** One call of [chrome.downloads.download]. *)
Record Download := mkDownload {
  extension : string;
  mimeType : string;
  content : string;
  saveAs : bool
}.

(** The module-level variables [lastAutoSaveId] and [autoSaveInProgress]. *)
Record guard := mkGuard {
  lastAutoSaveId : option string;
  autoSaveInProgress : bool
}.

Record worker := mkWorker {
  guardOf : guard;
  downloads : list Download
}.

Definition idle : guard :=
  {| lastAutoSaveId := None; autoSaveInProgress := false |}.

Definition start : worker := {| guardOf := idle; downloads := [] |}.

(** The template literal that names a meeting occurrence. *)
Definition saveId (m : LeaveMessage) : string :=
  meetingTitle m +:+ "_" +:+ recordingStartTime m.

(** The synchronous head of the handler: [None] is the early [break]. *)
Definition accept (m : LeaveMessage) (g : guard) : option guard :=
  if autoSaveInProgress g || bool_decide (lastAutoSaveId g = Some (saveId m))
  then None
  else Some {| lastAutoSaveId := Some (saveId m); autoSaveInProgress := true |}.

Inductive outcome :=
| Threw
| Skipped
| Saved (d : Download).

Section WithHost.
Context `{Host}.

(** [saveTranscript] on values, up to the download it triggers; [None]
    when an alias transform throws. *)
Definition saveTranscript (m : LeaveMessage) (aliases : Alias.aliasMap)
    (config : Config) (format : option string) (saveAsPrompt : bool)
    : option Download :=
  processedTranscript ←
    (if Alias.noAliases aliases then Some (transcriptArray m)
     else mapM (Alias.aliasEntry aliases) (transcriptArray m));
  processedAttendeeReport ←
    match attendeeReport m with
    | None => Some None
    | Some r =>
        if Alias.noAliases aliases then Some (Some r)
        else Some <$> Alias.aliasReport aliases r
    end;
  let selected := Exporter.selectedFormat config format in
  let text :=
    if bool_decide (selected = "md")
    then Format.formatAsMarkdown processedTranscript processedAttendeeReport
    else Format.formatAsTxt processedTranscript processedAttendeeReport in
  Some {| extension := (Exporter.extensionAndMime selected).1;
          mimeType := (Exporter.extensionAndMime selected).2;
          content := text;
          saveAs := saveAsPrompt |}.

(** The [try] block of the handler. *)
Definition body (m : LeaveMessage) (env : LeaveEnv) : outcome :=
  match settingsRead env with
  | None => Threw
  | Some settings =>
      if autoSaveOnEnd settings && (0 <? List.length (transcriptArray m))%nat then
        match configLoaded env with
        | None => Threw
        | Some config =>
            let format := Exporter.formatToSave config (storedDefaultSaveFormat settings) in
            if saveThrows env then Threw
            else
              match saveTranscript m (speakerAliases env) config (Some format) false with
              | Some d => Saved d
              | None => Threw
              end
        end
      else Skipped
  end.

(** The [catch] and [finally] clauses. *)
Definition settle (o : outcome) (g : guard) : guard :=
  {| lastAutoSaveId := match o with Threw => None | _ => lastAutoSaveId g end;
     autoSaveInProgress := false |}.

(** What the service worker sees: a [save_on_leave] message reaching the
    guard, an admitted handler running its [try] block to the end, and an
    [update_badge_status] message with [capturing] set. *)
Inductive event :=
| Request (m : LeaveMessage)
| Complete (m : LeaveMessage) (env : LeaveEnv)
| CaptureStarted.

Inductive observation :=
| Dropped
| Accepted
| Finished (o : outcome)
| GuardReset.

Definition step (w : worker) (e : event) : worker * observation :=
  match e with
  | Request m =>
      match accept m (guardOf w) with
      | None => (w, Dropped)
      | Some g => ({| guardOf := g; downloads := downloads w |}, Accepted)
      end
  | Complete m env =>
      let o := body m env in
      ({| guardOf := settle o (guardOf w);
          downloads := downloads w ++ match o with Saved d => [d] | _ => [] end |},
       Finished o)
  | CaptureStarted => ({| guardOf := idle; downloads := downloads w |}, GuardReset)
  end.

Fixpoint run (w : worker) (events : list event) : worker * list observation :=
  match events with
  | [] => (w, [])
  | e :: rest =>
      let '(w1, o) := step w e in
      let '(w2, os) := run w1 rest in
      (w2, o :: os)
  end.

End WithHost.

(** The event is a [save_on_leave] message reaching the guard. *)
Definition isRequest (e : event) : Prop :=
  match e with Request _ => True | _ => False end.

(** The event is a request for the meeting occurrence [k]. *)
Definition requestFor (k : string) (e : event) : Prop :=
  match e with Request m => saveId m = k | _ => False end.

End AutoSave.

(** ** Session archive *)

Module SessionArchive.
Import Archive.

(** The fields of a [save_session_history] message. *)
Record SaveMessage := mkSave {
  transcriptArray : list TranscriptEntry;
  meetingTitle : option string;
  attendeeReport : option AttendeeReport
}.

(** The clock readings of one handler run: [Date.now()] for the session
    id, and the instant of the [new Date()] calls of the metadata (taken
    as one reading). *)
Record Clock := mkClock {
  now : N;
  created : N
}.

Definition SESSION_INDEX : string := "session_index".
Definition MAX_SESSIONS : nat := 10.
Definition CHUNK_SIZE : nat := 100.

(** [array.slice(i, j)] for indices within range or beyond the end. *)
Definition slice {A} (i j : nat) (array : list A) : list A :=
  take (j - i) (drop i array).

(** The loop of [chunkArray]; [fuel] bounds the iterations. *)
Fixpoint chunkLoop {A} (fuel i : nat) (array : list A) (chunkSize : nat)
    (chunks : list (list A)) : list (list A) :=
  match fuel with
  | O => chunks
  | S fuel' =>
      if (i <? List.length array)%nat
      then chunkLoop fuel' (i + chunkSize) array chunkSize
             (chunks ++ [slice i (i + chunkSize) array])
      else chunks
  end.

Definition chunkArray {A} (array : list A) (chunkSize : nat) : list (list A) :=
  chunkLoop (List.length array) 0 array chunkSize [].

(** [Math.round(a / b)] for a positive [b]. *)
Definition roundDiv (a b : Z) : Z := ((2 * a + b) / (2 * b))%Z.

Definition calculateDuration `{Host} (transcriptArray : list TranscriptEntry) : string :=
  match transcriptArray with
  | [] => "0 min"
  | first :: _ =>
      match parseDate (Time first), parseDate (Time (List.last transcriptArray first)) with
      | Some firstTime, Some lastTime =>
          let minutes := roundDiv (lastTime - firstTime) 60000 in
          if (minutes <? 60)%Z then decimalZ minutes +:+ " min"
          else decimalZ (minutes / 60) +:+ "h " +:+ decimalZ (minutes mod 60) +:+ "m"
      | _, _ =>
          "~" +:+ decimalZ (roundDiv (Z.of_nat (List.length transcriptArray) * 3) 60)
          +:+ " min"
      end
  end.

(** [[...new Set(names)]]: the distinct names in first-seen order. *)
Fixpoint distinct (seen names : list string) : list string :=
  match names with
  | [] => []
  | n :: rest =>
      if bool_decide (n ∈ seen) then distinct seen rest
      else n :: distinct (n :: seen) rest
  end.

(** [s.substring(0, n)] *)
Fixpoint substring0 (n : nat) (s : string) : string :=
  match n, s with
  | S n', String c s' => String c (substring0 n' s')
  | _, _ => EmptyString
  end.

Definition sessionIdOf (c : Clock) : string := "session_" +:+ decimal (now c).

Definition chunkKey (sessionId : string) (i : nat) : string :=
  sessionId +:+ "_chunk_" +:+ decimal (N.of_nat i).

Definition attendeesKey (sessionId : string) : string :=
  sessionId +:+ "_attendees".

Definition metadataOf `{Host} (c : Clock) (m : SaveMessage) : SessionMetadata :=
  {| id := sessionIdOf c;
     title := match meetingTitle m with
              | Some t => JsString.or_else t "Untitled Meeting"
              | None => "Untitled Meeting"
              end;
     timestamp := created c;
     date := toLocaleDateString (created c);
     time := toLocaleTimeString (created c);
     captionCount := List.length (transcriptArray m);
     duration := calculateDuration (transcriptArray m);
     speakers := take 10 (distinct [] (Name <$> transcriptArray m));
     attendees := (fun r => take 20 (attendeeList r)) <$> attendeeReport m;
     attendeeCount := match attendeeReport m with
                      | Some r => totalUniqueAttendees r
                      | None => 0%N
                      end;
     preview := JsString.join " | "
                  ((fun e => Name e +:+ ": " +:+ substring0 50 (Text e))
                     <$> take 3 (transcriptArray m));
     chunkCount := List.length (chunkArray (transcriptArray m) CHUNK_SIZE) |}.

(** The loop that persists the chunks, one [set] per chunk. *)
Fixpoint writeChunks (sessionId : string) (i : nat)
    (chunks : list (list TranscriptEntry)) (st : storage) : storage :=
  match chunks with
  | [] => st
  | c :: rest =>
      writeChunks sessionId (S i) rest (<[chunkKey sessionId i := StoredEntries c]> st)
  end.

(** The keys collected for the evicted entry. *)
Definition keysToDelete (toDelete : SessionMetadata) : list string :=
  (chunkKey (id toDelete) <$> seq 0 (chunkCount toDelete))
  ++ [attendeesKey (id toDelete)].

(** [chrome.storage.local.remove(keys)] *)
Definition removeKeys (keys : list string) (st : storage) : storage :=
  foldr delete st keys.

(** Insertion of [x] ahead of the entries it does not come after; [x]
    stood before every entry of [sorted] in the array being sorted. *)
Fixpoint insertNewestFirst (x : SessionMetadata) (sorted : list SessionMetadata)
    : list SessionMetadata :=
  match sorted with
  | [] => [x]
  | y :: rest =>
      if (timestamp y <=? timestamp x)%N then x :: y :: rest
      else y :: insertNewestFirst x rest
  end.

(** [index.sort((a, b) => new Date(b.timestamp) - new Date(a.timestamp))]:
    the stable sort by descending timestamp. *)
Definition sortNewestFirst (index : list SessionMetadata) : list SessionMetadata :=
  foldr insertNewestFirst [] index.

(** The index as the handler reads it: absent means empty; [None] when
    the stored value is no array (the [push] throws). *)
Definition readIndex (st : storage) : option (list SessionMetadata) :=
  match st !! SESSION_INDEX with
  | None => Some []
  | Some (StoredIndex ix) => Some ix
  | Some _ => None
  end.

(** The [save_session_history] case of the message handler. An exception
    is caught and logged: what was written before it stays. *)
Definition save_session_history `{Host}
    (c : Clock) (m : SaveMessage) (st : storage) : storage :=
  let sessionId := sessionIdOf c in
  let metadata := metadataOf c m in
  let chunks := chunkArray (transcriptArray m) CHUNK_SIZE in
  let st := writeChunks sessionId 0 chunks st in
  let st :=
    match attendeeReport m with
    | Some r => <[attendeesKey sessionId := StoredAttendees r]> st
    | None => st
    end in
  match readIndex st with
  | None => st
  | Some session_index =>
      let session_index := session_index ++ [metadata] in
      let '(session_index, st) :=
        if (MAX_SESSIONS <? List.length session_index)%nat then
          match session_index with
          | toDelete :: shifted => (shifted, removeKeys (keysToDelete toDelete) st)
          | [] => (session_index, st)
          end
        else (session_index, st) in
      <[SESSION_INDEX := StoredIndex (sortNewestFirst session_index)]> st
  end.

(** The index held by the store; empty when there is none. *)
Definition indexOf (st : storage) : list SessionMetadata :=
  match st !! SESSION_INDEX with
  | Some (StoredIndex ix) => ix
  | _ => []
  end.

(** The keys one save persists: one per chunk, and the attendee blob's
    when the message carries a report. *)
Definition persistedKeys (s : Clock * SaveMessage) : list string :=
  (chunkKey (sessionIdOf s.1)
     <$> seq 0 (List.length (chunkArray (transcriptArray s.2) CHUNK_SIZE)))
  ++ match attendeeReport s.2 with
     | Some _ => [attendeesKey (sessionIdOf s.1)]
     | None => []
     end.

(** The entry [a] is not older than the entry [b]. *)
Definition notOlder (a b : SessionMetadata) : Prop :=
  (timestamp b <= timestamp a)%N.

(** The index lists its entries newest first. *)
Definition newestFirst (index : list SessionMetadata) : Prop :=
  StronglySorted notOlder index.

(** Each save of the run is made at a later instant than the ones before. *)
Definition inTimeOrder (saves : list (Clock * SaveMessage)) : Prop :=
  StronglySorted (fun a b => (created a.1 < created b.1)%N) saves.

(** The store after the writes of one save: its chunks and, when the
    message carries one, its attendee report. *)
Definition persistSession (c : Clock) (m : SaveMessage) (st : storage) : storage :=
  let st := writeChunks (sessionIdOf c) 0 (chunkArray (transcriptArray m) CHUNK_SIZE) st in
  match attendeeReport m with
  | Some r => <[attendeesKey (sessionIdOf c) := StoredAttendees r]> st
  | None => st
  end.

(** The index of the store after [n] saves: it is an array of at most ten
    metadata records, each made by a save. *)
Definition bounded `{Host} (n : nat) (st : storage) : Prop :=
  readIndex st = Some (indexOf st)
  /\ List.length (indexOf st) = Nat.min n MAX_SESSIONS
  /\ Forall (fun e => exists c m, e = metadataOf c m) (indexOf st).


End SessionArchive.

(** ** The handler of [save_session_history], cut at its awaits *)

Module SaveHandlers.
Import Archive SessionArchive.

(** Where a handler stands: in the loop that writes the chunks, about to
    write chunk [i] or to leave the loop; past the write of the attendee
    report; with the answer of [chrome.storage.local.get('session_index')];
    or past the removal of the evicted keys, with the shifted index. *)
Inductive stage :=
| Chunks (i : nat)
| Reported
| Read (found : option stored)
| Shifted (session_index : list SessionMetadata).

(** A handler in flight, with the clock readings it took when it began. *)
Inductive task :=
| Save (c : Clock) (m : SaveMessage) (s : stage).

(** The destructuring [const { session_index = [] } = ...] and the
    [push]: an absent index is a new array, and a stored value that is no
    array makes the [push] throw. *)
Definition indexIn (found : option stored) : option (list SessionMetadata) :=
  match found with
  | None => Some []
  | Some (StoredIndex ix) => Some ix
  | Some _ => None
  end.

(** One segment: the code up to the next awaited storage call, and that
    call. An exception is caught and ends the handler. *)
Definition segment `{Host} (t : task) (st : storage) : storage * option task :=
  let '(Save c m s) := t in
  let sessionId := sessionIdOf c in
  let metadata := metadataOf c m in
  let chunks := chunkArray (transcriptArray m) CHUNK_SIZE in
  let getIndex := (st, Some (Save c m (Read (st !! SESSION_INDEX)))) in
  let setIndex session_index :=
    (<[SESSION_INDEX := StoredIndex (sortNewestFirst session_index)]> st, None) in
  match s with
  | Chunks i =>
      match chunks !! i with
      | Some chunk =>
          (<[chunkKey sessionId i := StoredEntries chunk]> st,
           Some (Save c m (Chunks (S i))))
      | None =>
          match attendeeReport m with
          | Some r =>
              (<[attendeesKey sessionId := StoredAttendees r]> st,
               Some (Save c m Reported))
          | None => getIndex
          end
      end
  | Reported => getIndex
  | Read found =>
      match indexIn found with
      | None => (st, None)
      | Some session_index =>
          let session_index := session_index ++ [metadata] in
          if (MAX_SESSIONS <? List.length session_index)%nat then
            match session_index with
            | toDelete :: shifted =>
                (removeKeys (keysToDelete toDelete) st, Some (Save c m (Shifted shifted)))
            | [] => setIndex session_index
            end
          else setIndex session_index
      end
  | Shifted session_index => setIndex session_index
  end.

(** The handler of a message, with the clock readings it will take. *)
Definition spawn (s : Clock * SaveMessage) : task := Save s.1 s.2 (Chunks 0).

Abbreviation event := (Handlers.event (Clock * SaveMessage)).
Abbreviation world := (Handlers.world storage task).

Definition step `{Host} (w : world) (e : event) : world :=
  Handlers.step spawn segment (fun st => st) w e.

Definition run `{Host} (events : list event) (w : world) : world :=
  Handlers.run spawn segment (fun st => st) events w.

(** An empty store and no handler in flight. *)
Definition start : world := Handlers.idle ∅.

(** The store after the events. *)
Definition storeAfter `{Host} (events : list event) : storage :=
  Handlers.shared (run events start).

(** The most segments a handler runs: one per chunk, the attendee report,
    the read of the index, the removal of the evicted keys and the write
    of the index. *)
Definition segments (m : SaveMessage) : nat :=
  List.length (chunkArray (transcriptArray m) CHUNK_SIZE) + 4.

(** The saves one by one, oldest first: each handler ends before the next
    message arrives. *)
Definition oneByOne (saves : list (Clock * SaveMessage)) : list event :=
  saves ≫= fun s => Handlers.alone (segments s.2) s.

(** An index as the handlers leave it: the metadata of saved sessions,
    newest first, ten at most. *)
Definition tidy `{Host} (session_index : list SessionMetadata) : Prop :=
  Forall (fun e => exists c m, e = metadataOf c m) session_index
  /\ newestFirst session_index
  /\ (List.length session_index <= MAX_SESSIONS)%nat.

(** The store holds such an index, or none. *)
Definition keepsIndex `{Host} (st : storage) : Prop :=
  readIndex st = Some (indexOf st) /\ tidy (indexOf st).

(** The index a handler in flight holds is one it read from the store,
    or what is left of it after the shift. *)
Definition heldBy `{Host} (t : task) : Prop :=
  match t with
  | Save _ _ (Read found) => exists session_index,
      indexIn found = Some session_index /\ tidy session_index
  | Save _ _ (Shifted session_index) =>
      Forall (fun e => exists c m, e = metadataOf c m) session_index
      /\ (List.length session_index <= MAX_SESSIONS)%nat
  | _ => True
  end.

End SaveHandlers.

(** A host for the worked examples: every date renders as its number of
    milliseconds and no text parses as a date. *)
Definition plainHost : Host :=
  {| toLocaleString := decimal;
     toLocaleDateString := decimal;
     toLocaleTimeString := decimal;
     parseDate := fun _ => None |}.

(** Two meeting occurrences and three outcomes of the awaited calls, for
    the worked examples of the auto-save guard. *)
Definition standup : AutoSave.LeaveMessage :=
  AutoSave.mkLeave "Standup" "1700000000000" [mkEntry "10:00" "Alice" "Hi"] None.

Definition retro : AutoSave.LeaveMessage :=
  AutoSave.mkLeave "Retro" "1700003600000" [mkEntry "11:00" "Bob" "Yo"] None.

Definition shippedConfig : Config :=
  mkConfig (Some ["md"; "txt"]) (Some "md") (Some "{date}_{title}").

Definition autoSaveOn : AutoSave.LeaveEnv :=
  AutoSave.mkEnv ∅ (Some (AutoSave.mkSettings true (Some "txt"))) (Some shippedConfig) false.

Definition autoSaveOff : AutoSave.LeaveEnv :=
  AutoSave.mkEnv ∅ (Some (AutoSave.mkSettings false (Some "txt"))) (Some shippedConfig) false.

Definition storageFails : AutoSave.LeaveEnv :=
  AutoSave.mkEnv ∅ None (Some shippedConfig) false.

(** Saves for the worked examples of the archive: a one-line meeting saved
    at millisecond [n], and ten of them at milliseconds 1 to 10. *)
Definition sampleSave (n : N) (meetingTitle : string)
    : SessionArchive.Clock * SessionArchive.SaveMessage :=
  (SessionArchive.mkClock n n,
   SessionArchive.mkSave [mkEntry "10:00" "Alice" "Hi"] (Some meetingTitle) None).

Definition tenSaves : list (SessionArchive.Clock * SessionArchive.SaveMessage) :=
  (fun n => sampleSave n "Standup") <$> [1; 2; 3; 4; 5; 6; 7; 8; 9; 10]%N.

(** Two saves of one chunk and no attendee report that overlap: both
    handlers write their chunk, then both read the index, then both remove
    the keys of its head when they read ten entries, and then the first
    and after it the second store the index they made. Below the cap the
    first handler ends one segment earlier, and a [Resume] that finds no
    handler does nothing. *)
Definition overlap (first second : SessionArchive.Clock * SessionArchive.SaveMessage)
    : list SaveHandlers.event :=
  [Handlers.Arrive first; Handlers.Arrive second;
   Handlers.Resume 0; Handlers.Resume 1;
   Handlers.Resume 0; Handlers.Resume 1;
   Handlers.Resume 0; Handlers.Resume 1;
   Handlers.Resume 0; Handlers.Resume 0].

(** Ten saves handled one by one at milliseconds 1 to 10, and then the
    saves of milliseconds 11 and 12, which overlap. *)
Definition overlappedSaves : list SaveHandlers.event :=
  SaveHandlers.oneByOne tenSaves
  ++ overlap (sampleSave 11 "Retro") (sampleSave 12 "Demo").

(** Twelve saves with twelve session ids, some of them overlapping. Eight
    are handled one by one at milliseconds 1 to 8. The save of millisecond
    9 writes its chunk and waits. The save of millisecond 10 is handled to
    its end. The save of millisecond 11 writes its chunk, reads the index
    of nine entries and waits. The save of millisecond 9 goes on to its
    end, which makes ten entries. The save of millisecond 12 is handled to
    its end and evicts the entry of millisecond 10. The save of
    millisecond 11 goes on with the index it read. *)
Definition staleReadSaves : list SaveHandlers.event :=
  SaveHandlers.oneByOne ((fun n => sampleSave n "Standup") <$> [1; 2; 3; 4; 5; 6; 7; 8]%N)
  ++ [Handlers.Arrive (sampleSave 9 "Planning"); Handlers.Resume 0]
  ++ [Handlers.Arrive (sampleSave 10 "Review");
      Handlers.Resume 1; Handlers.Resume 1; Handlers.Resume 1]
  ++ [Handlers.Arrive (sampleSave 11 "Retro"); Handlers.Resume 1; Handlers.Resume 1]
  ++ [Handlers.Resume 0; Handlers.Resume 0]
  ++ [Handlers.Arrive (sampleSave 12 "Demo");
      Handlers.Resume 1; Handlers.Resume 1; Handlers.Resume 1; Handlers.Resume 1]
  ++ [Handlers.Resume 0].

(** ** Screenshot buffers over the life of the worker *)

Module ScreenshotLifecycle.
Import Screenshots ScreenshotHandlers.

(** What happens to a worker whose handlers do not overlap: a message is
    received and its handler runs to its end before anything else
    happens, or the service worker restarts. *)
Inductive occurrence :=
| Handled (msg : message)
| WorkerRestarted.

(** The events of an occurrence: the handlers of both messages end within
    two segments. *)
Definition eventsOf (o : occurrence) : list event :=
  match o with
  | Handled msg => Handlers.alone 2 msg
  | WorkerRestarted => [Handlers.Restarted]
  end.

(** The occurrences one by one, oldest first. *)
Definition oneByOne (occurrences : list occurrence) : list event :=
  occurrences ≫= eventsOf.





End ScreenshotLifecycle.

(** ** What the archive holds for a session *)

Module SessionContent.
Import Archive SessionArchive.


End SessionContent.

(** ** Default settings *)

Module DefaultSettings.

(** A scalar of [config.json] or of [chrome.storage.sync]; a number is the
    rational its double stands for. *)
Inductive value :=
| Null
| Flag (b : bool)
| Number (q : Qcanon.Qc)
| Text (s : string).

#[global] Instance value_eq_dec : EqDecision value.
Proof. solve_decision. Defined.

(** [config.json] as [ensureDefaultSettings] reads it: its scalar fields by
    name, and the array [allowedSaveFormats]. *)
Record ConfigFile := mkConfigFile {
  fields : gmap string value;
  allowedFormatList : option (list string)
}.

(** [chrome.storage.sync] *)
Abbreviation syncStorage := (gmap string value).

(** The keys of the object literal [defaults], in its order. *)
Definition declaredKeys : list string :=
  ["autoEnableCaptions"; "autoSaveOnEnd"; "defaultSaveFormat"; "trackCaptions";
   "trackAttendees"; "autoOpenAttendees"; "filenamePattern"; "timestampFormat";
   "screenshotEnabled"; "screenshotIntervalSeconds"; "screenshotDiffThreshold"].

(** [Object.entries(defaults)]: each declared key with the value the config
    has for it, [None] for [undefined]. *)
Definition defaults (config : ConfigFile) : list (string * option value) :=
  (fun key => (key, fields config !! key)) <$> declaredKeys.

(** [chrome.storage.sync.get(keys)]: the stored items among [keys]. *)
Definition get (keys : list string) (sync : syncStorage) : gmap string value :=
  foldr (fun key items =>
           match sync !! key with
           | Some v => <[key := v]> items
           | None => items
           end) ∅ keys.

(** The loop over the entries of [defaults]. *)
Definition collectUpdates (stored : gmap string value)
    (entries : list (string * option value)) (updates : gmap string value)
    : gmap string value :=
  foldl (fun updates entry =>
           match entry.2 with
           | None => updates
           | Some v =>
               if bool_decide (stored !! entry.1 = Some v) then updates
               else <[entry.1 := v]> updates
           end) updates entries.

(** [config.allowedSaveFormats.includes(defaults.defaultSaveFormat)]: the
    array holds texts, so only a text can be found in it. *)
Definition includesValue (allowed : list string) (v : option value) : bool :=
  match v with
  | Some (Text s) => Exporter.includes allowed s
  | _ => false
  end.

(** The body of [ensureDefaultSettings]; [None] for the config means that
    [loadExtensionConfig] rejects, which the [catch] clause logs. *)
Definition ensureDefaultSettings (config : option ConfigFile) (sync : syncStorage)
    : syncStorage :=
  match config with
  | None => sync
  | Some config =>
      let stored := get (defaults config).*1 sync in
      let updates := collectUpdates stored (defaults config) ∅ in
      let updates :=
        match allowedFormatList config with
        | Some allowed =>
            if includesValue allowed (fields config !! "defaultSaveFormat") then updates
            else <["defaultSaveFormat" := Text (Exporter.firstAllowedOrMd allowed)]> updates
        | None => updates
        end in
      if (0 <? size updates)%nat then updates ∪ sync else sync
  end.

(** A setting or a config field as the exporters read it: a value that is
    no text is never among the allowed formats, so it counts as absent. *)
Definition textOf (v : option value) : option string :=
  match v with
  | Some (Text s) => Some s
  | _ => None
  end.

(** The fields of the config that the format resolution reads. *)
Definition exportConfig (config : ConfigFile) : Config :=
  mkConfig (allowedFormatList config)
           (textOf (fields config !! "defaultSaveFormat"))
           (textOf (fields config !! "filenamePattern")).

(** What a key holds after [ensureDefaultSettings]. *)
Definition settled (config : ConfigFile) (sync : syncStorage) (key : string)
    : option value :=
  let declared :=
    if bool_decide (key ∈ declaredKeys) then
      match fields config !! key with
      | Some v => Some v
      | None => sync !! key
      end
    else sync !! key in
  if bool_decide (key = "defaultSaveFormat") then
    match allowedFormatList config with
    | Some allowed =>
        if includesValue allowed (fields config !! "defaultSaveFormat") then declared
        else Some (Text (Exporter.firstAllowedOrMd allowed))
    | None => declared
    end
  else declared.

End DefaultSettings.

(** The scalar fields of the config for the worked examples of the default
    settings: the default format and the file name pattern of
    [shippedConfig]. *)
Definition shippedConfigFile : DefaultSettings.ConfigFile :=
  DefaultSettings.mkConfigFile
    {["defaultSaveFormat" := DefaultSettings.Text "md";
      "filenamePattern" := DefaultSettings.Text "{date}_{title}"]}
    (Some ["md"; "txt"]).

(** ** The popup *)

(** What the JavaScript engine gives: not part of the repository. *)
Class Engine := {
  (** the text of [aliases[n]] in a template literal when [n] is a name
      that the alias object inherits from [Object.prototype] *)
  inheritedText : string -> string
}.

Module Popup.

(** [currentDefaultFormat] as [loadSettings] leaves it; [stored] is the
    setting [defaultSaveFormat] of [chrome.storage.sync]. *)
Definition currentDefaultFormat (config : Config) (stored : option string) : string :=
  let allowedFormats := Exporter.allowedFormats config in
  let storedFormat :=
    match stored with
    | Some f =>
        if JsString.truthy f && Exporter.includes allowedFormats f then Some f else None
    | None => None
    end in
  match storedFormat with
  | Some f => f
  | None =>
      match defaultSaveFormat config with
      | Some d => JsString.or_else d (Exporter.firstAllowedOrMd allowedFormats)
      | None => Exporter.firstAllowedOrMd allowedFormats
      end
  end.

(** [handleSave]: the format of the [return_transcript] message it sends,
    [None] when it returns without sending one. [format] is
    [target.dataset.format] and [teamsTab] tells whether [getActiveTeamsTab]
    finds a tab. *)
Definition handleSave (config : Config) (format : option string) (teamsTab : bool)
    : option string :=
  match format with
  | None => None
  | Some format =>
      if negb (JsString.truthy format) then None
      else if negb (Exporter.includes (Exporter.allowedFormats config) format) then None
      else if teamsTab then Some format else None
  end.

(** The [change] handler of the alias inputs: the trimmed text of the
    input becomes the alias of [originalName]. An assignment to the key
    [__proto__] of a plain object sets no own property when the value is a
    text. *)
Definition setAlias (aliases : gmap string string) (edit : string * string) : gmap string string :=
  if bool_decide (edit.1 = "__proto__") then aliases
  else <[edit.1 := JsString.trim edit.2]> aliases.

(** The alias object after a run of edits, from the default [{}]. *)
Definition editedAliases (edits : list (string * string)) : gmap string string :=
  foldl setAlias ∅ edits.

Section WithEngine.
Context `{Engine}.

(** [aliases[entry.Name] || entry.Name] as the template literal prints it. *)
Definition shownName (aliases : gmap string string) (n : string) : string :=
  match Alias.getProperty aliases n with
  | Alias.OwnText a => JsString.or_else a n
  | Alias.Undefined => n
  | Alias.Inherited => inheritedText n
  end.

Definition line (aliases : gmap string string) (entry : TranscriptEntry) : string :=
  "[" +:+ Time entry +:+ "] " +:+ shownName aliases (Name entry) +:+ ": " +:+ Text entry.

(** [formatTranscript]; [aiInstructions] is the setting read from
    [chrome.storage.sync] when the type is [ai]. *)
Definition formatTranscript (transcript : list TranscriptEntry)
    (aliases : gmap string string) (type : string) (aiInstructions : option string) : string :=
  if bool_decide (type = "ai") then
    let transcriptText :=
      JsString.join (newline +:+ newline) (line aliases <$> transcript) in
    match aiInstructions with
    | Some instructions =>
        if JsString.truthy instructions
        then instructions +:+ newline +:+ newline +:+ "---" +:+ newline +:+ newline
             +:+ transcriptText
        else transcriptText
    | None => transcriptText
    end
  else JsString.join newline (line aliases <$> transcript).

End WithEngine.

End Popup.

(** An engine for the worked examples of the popup. *)
Definition sampleEngine : Engine :=
  {| inheritedText := fun _ => "function () { [native code] }" |}.

(** ** Lines of the text export *)

Module TxtLayout.

Definition line_feed : ascii := ascii_of_nat 10.

(** The lines of the attendee block of [formatAsTxt]: none unless a report
    with at least one unique attendee is given. *)
Definition headerLines `{Host} (attendeeReport : option AttendeeReport) : list string :=
  match attendeeReport with
  | Some r =>
      if (0 <? totalUniqueAttendees r)%N then
        ["=== MEETING ATTENDEES ===";
         "Total Attendees: " +:+ decimal (totalUniqueAttendees r);
         "Meeting Start: " +:+ toLocaleString (meetingStartTime r);
         EmptyString;
         "Attendee List:"]
        ++ ((fun n => "- " +:+ n) <$> attendeeList r)
        ++ [EmptyString; "=== TRANSCRIPT ==="]
      else []
  | None => []
  end.

(** No field of the entry holds a line feed. *)
Definition oneLine (e : TranscriptEntry) : Prop :=
  JsString.free_of line_feed (Time e)
  /\ JsString.free_of line_feed (Name e)
  /\ JsString.free_of line_feed (Text e).

End TxtLayout.

(** ** File names *)

(** What the host's [Date] gives for the file name: not part of the
    repository. *)
Class DateHost := {
  (** [new Date(ms).toISOString()] *)
  toISOString : N -> string;
  (** [new Date(ms).toTimeString()] *)
  toTimeString : N -> string
}.

Module Filename.

Definition is_underscore (c : ascii) : bool := Ascii.eqb c "_".
Definition is_dollar (c : ascii) : bool := Ascii.eqb c "$".

(** The replacement text of one match, for a pattern without capture
    groups: [$$] gives a dollar sign, [$&] the matched text, [$`] the text
    before the match and [$'] the text after it; every other character,
    also a dollar sign before anything else, stands for itself. *)
Fixpoint expand (template matched before after : string) : string :=
  match template with
  | EmptyString => EmptyString
  | String c t =>
      if is_dollar c then
        match t with
        | String x t' =>
            if Ascii.eqb x "$" then "$" +:+ expand t' matched before after
            else if Ascii.eqb x "&" then matched +:+ expand t' matched before after
            else if Ascii.eqb x "`" then before +:+ expand t' matched before after
            else if Ascii.eqb x "'" then after +:+ expand t' matched before after
            else String c (expand t matched before after)
        | EmptyString => String c EmptyString
        end
      else String c (expand t matched before after)
  end.

(** [s.replace(new RegExp(escaped key, 'g'), value)] for a key that is not
    empty: the escaped key matches the key itself and nothing else. The scan
    goes through [s] from left to right; [before] is the part of the subject
    already passed and [skip] counts the characters of a match still to be
    passed over. *)
Fixpoint replaceAllFrom (key value before : string) (skip : nat) (s : string) : string :=
  match s with
  | EmptyString => EmptyString
  | String c s' =>
      match skip with
      | S k => replaceAllFrom key value (before +:+ String c EmptyString) k s'
      | O =>
          if String.prefix key s then
            expand value key before (JsString.drop (String.length key) s)
            +:+ replaceAllFrom key value (before +:+ String c EmptyString)
                  (String.length key - 1) s'
          else String c (replaceAllFrom key value (before +:+ String c EmptyString) 0 s')
      end
  end.

Definition replaceAll (key value s : string) : string :=
  replaceAllFrom key value EmptyString 0 s.

(** [s.replace(/__+/g, '_')] *)
Fixpoint collapseUnderscores (s : string) : string :=
  match s with
  | EmptyString => EmptyString
  | String c s' =>
      if is_underscore c then
        match s' with
        | String c' _ =>
            if is_underscore c' then collapseUnderscores s'
            else String c (collapseUnderscores s')
        | EmptyString => String c EmptyString
        end
      else String c (collapseUnderscores s')
  end.

(** [s.replace(/_+$/, '')] *)
Fixpoint stripTrailingUnderscores (s : string) : string :=
  match s with
  | EmptyString => EmptyString
  | String c s' =>
      match stripTrailingUnderscores s' with
      | EmptyString => if is_underscore c then EmptyString else String c EmptyString
      | r => String c r
      end
  end.

Section WithHost.
Context `{DateHost}.

(** [now.toISOString().split('T')[0]] *)
Definition dateStr (now : N) : string :=
  nth 0 (JsString.split "T" (toISOString now)) EmptyString.

(** [now.toTimeString().split(' ')[0].replace(/:/g, '-')] *)
Definition timeStr (now : N) : string :=
  JsString.replaceClass (fun c => Ascii.eqb c ":") "-"
    (nth 0 (JsString.split " " (toTimeString now)) EmptyString).

(** The entries of the object [replacements], in its order. *)
Definition replacements (now : N) (meetingTitle : option string) (format : string)
    (attendeeReport : option AttendeeReport) : list (string * string) :=
  let attendeeCount :=
    match attendeeReport with
    | Some r => totalUniqueAttendees r
    | None => 0%N
    end in
  [("{date}", dateStr now);
   ("{time}", timeStr now);
   ("{title}", getSanitizedMeetingName meetingTitle);
   ("{format}", format);
   ("{attendees}",
    if (0 <? attendeeCount)%N then decimal attendeeCount +:+ "_attendees"
    else EmptyString)].

(** The pattern the function starts from: [pattern || defaultPattern]. *)
Definition startPattern (config : Config) (pattern : option string) : string :=
  let defaultPattern :=
    match filenamePattern config with
    | Some p => JsString.or_else p "{date}_{title}"
    | None => "{date}_{title}"
    end in
  match pattern with
  | Some p => JsString.or_else p defaultPattern
  | None => defaultPattern
  end.

(** [generateFilename]; [now] is the reading of [new Date()] and [pattern]
    the stored setting [filenamePattern]. *)
Definition generateFilename (config : Config) (now : N) (pattern : option string)
    (meetingTitle : option string) (format : string)
    (attendeeReport : option AttendeeReport) : string :=
  let filename :=
    foldl (fun filename entry => replaceAll entry.1 entry.2 filename)
          (startPattern config pattern)
          (replacements now meetingTitle format attendeeReport) in
  stripTrailingUnderscores (collapseUnderscores filename).

End WithHost.

(** No two underscores stand side by side in the text. *)
Fixpoint undoubled (s : string) : bool :=
  match s with
  | EmptyString => true
  | String c s' =>
      negb (is_underscore c
            && match s' with
               | String c' _ => is_underscore c'
               | EmptyString => false
               end)
      && undoubled s'
  end.

(** The key occurs somewhere in the text. *)
Fixpoint occurs (key s : string) : bool :=
  String.prefix key s
  || match s with
     | EmptyString => false
     | String _ s' => occurs key s'
     end.

End Filename.

(** A host for the worked examples of the file names: every instant
    renders as the first of January 2024, nine o'clock. *)
Definition sampleDateHost : DateHost :=
  {| toISOString := fun _ => "2024-01-01T09:00:00.000Z";
     toTimeString := fun _ => "09:00:00 GMT+0000 (Coordinated Universal Time)" |}.

(** ** Traces of the auto-save guard *)

Module GuardTrace.
Import AutoSave.

(** The event belongs to a stretch in which one meeting occurrence, with
    the key [k], is being left: a request for that key, or a handler that
    ends without an exception; no capture is started. *)
Definition quiet `{Host} (k : string) (e : event) : Prop :=
  match e with
  | Request m => saveId m = k
  | Complete m env => body m env <> Threw
  | CaptureStarted => False
  end.

(** How many requests were admitted. *)
Fixpoint acceptedCount (observations : list observation) : nat :=
  match observations with
  | [] => 0
  | Accepted :: rest => S (acceptedCount rest)
  | _ :: rest => acceptedCount rest
  end.

End GuardTrace.

(** ** The attendee report under aliases *)

Module AliasReport.
Import Alias.

(** The name the description of the transforms asks for: the trimmed
    alias when the map has one that is not blank, the name itself
    otherwise. *)
Definition newName (aliases : aliasMap) (n : string) : string :=
  match aliases !! n with
  | Some a =>
      if bool_decide (JsString.trim a = EmptyString) then n else JsString.trim a
  | None => n
  end.

Definition renamedNamed (aliases : aliasMap) (a : Named) : Named :=
  {| name := newName aliases (name a); others := others a |}.

Definition renamedReport (aliases : aliasMap) (r : AttendeeReport) : AttendeeReport :=
  {| attendeeList := newName aliases <$> attendeeList r;
     currentAttendees := renamedNamed aliases <$> currentAttendees r;
     attendeeHistory := renamedNamed aliases <$> attendeeHistory r;
     totalUniqueAttendees := totalUniqueAttendees r;
     meetingStartTime := meetingStartTime r |}.

(** Every name in the report is an own key of the map or no inherited
    name. *)
Definition namesResolvable (aliases : aliasMap) (r : AttendeeReport) : Prop :=
  Forall (resolvable aliases) (attendeeList r)
  /\ Forall (fun a => resolvable aliases (name a)) (currentAttendees r)
  /\ Forall (fun a => resolvable aliases (name a)) (attendeeHistory r).

End AliasReport.

(** ** One store for three features *)

Module SharedStore.
Import Screenshots SessionArchive.

(** The messages whose handlers write to [chrome.storage.local]: those
    of the screenshot buffers, [save_session_history] and
    [display_captions]. *)
Inductive message :=
| Buffers (msg : ScreenshotHandlers.message)
| SaveSession (s : Clock * SaveMessage)
| DisplayCaptions (transcriptArray : list TranscriptEntry).

(** A handler in flight, of one of the three features. *)
Inductive task :=
| BufferTask (t : ScreenshotHandlers.task)
| SaveTask (t : SaveHandlers.task)
| ViewerTask (transcriptArray : list TranscriptEntry).

Definition spawn (msg : message) : task :=
  match msg with
  | Buffers msg => BufferTask (ScreenshotHandlers.Body msg)
  | SaveSession s => SaveTask (SaveHandlers.spawn s)
  | DisplayCaptions transcriptArray => ViewerTask transcriptArray
  end.

(** [createViewerTab] writes its one key; the tab it opens afterwards
    does not touch the store. *)
Definition createViewerTab (transcriptArray : list TranscriptEntry) (st : storage)
    : storage :=
  <["captionsToView" := StoredEntries transcriptArray]> st.

(** One segment of a handler, on the cache and the one store. *)
Definition segment `{Host} (t : task) (st : state) : state * option task :=
  match t with
  | BufferTask t =>
      let '(st', rest) := ScreenshotHandlers.segment t st in
      (st', BufferTask <$> rest)
  | SaveTask t =>
      let '(store, rest) := SaveHandlers.segment t (local st) in
      ({| screenshotBuffers := screenshotBuffers st; local := store |},
       SaveTask <$> rest)
  | ViewerTask transcriptArray =>
      ({| screenshotBuffers := screenshotBuffers st;
          local := createViewerTab transcriptArray (local st) |},
       None)
  end.

Abbreviation event := (Handlers.event message).
Abbreviation world := (Handlers.world state task).

Definition step `{Host} (w : world) (e : event) : world :=
  Handlers.step spawn segment ScreenshotHandlers.restart w e.

Definition run `{Host} (events : list event) (w : world) : world :=
  Handlers.run spawn segment ScreenshotHandlers.restart events w.

(** A worker that has just started on an empty store. *)
Definition start : world := Handlers.idle initial.





(** The index in the store and in the hands of the save handlers is
    tidy. *)
Definition sound `{Host} (w : world) : Prop :=
  SaveHandlers.keepsIndex (local (Handlers.shared w))
  /\ Forall (fun t => match t with
                      | SaveTask t => SaveHandlers.heldBy t
                      | _ => True
                      end) (Handlers.inFlight w).

End SharedStore.

(** * Properties *)


(** ** Facts about the string primitives *)

Module JsStringFacts.
Import JsString.

Lemma app_nil_r (s : string) : s +:+ EmptyString = s.
Proof. induction s as [|c s IH]; simpl; [reflexivity | now rewrite IH]. Qed.

Lemma app_assoc (a b c : string) : (a +:+ b) +:+ c = a +:+ b +:+ c.
Proof. induction a as [|x a IH]; simpl; [reflexivity | now rewrite IH]. Qed.

Lemma length_app (a b : string) :
  String.length (a +:+ b) = (String.length a + String.length b)%nat.
Proof. induction a as [|x a IH]; simpl; [reflexivity | now rewrite IH]. Qed.

Lemma all_chars_app p (a b : string) :
  all_chars p (a +:+ b) = all_chars p a && all_chars p b.
Proof.
  induction a as [|x a IH]; simpl; [reflexivity |].
  rewrite IH. now rewrite andb_assoc.
Qed.

(** *** trim *)

Lemma trimStart_decompose (s : string) :
  exists l, s = l +:+ trimStart s /\ all_chars is_white_space l = true.
Proof.
  induction s as [|c s [l [Hs Hl]]]; simpl.
  - exists EmptyString. split; reflexivity.
  - destruct (is_white_space c) eqn:Hc.
    + exists (String c l). simpl. rewrite Hc, Hl. split; [now rewrite <- Hs | reflexivity].
    + exists EmptyString. split; reflexivity.
Qed.

Lemma trimStart_first (s : string) (c : ascii) :
  first_char (trimStart s) = Some c -> is_white_space c = false.
Proof.
  induction s as [|x s IH]; simpl; [discriminate |].
  destruct (is_white_space x) eqn:Hx; [exact IH |].
  simpl. intros [= <-]. exact Hx.
Qed.

Lemma trimEnd_decompose (s : string) :
  exists r, s = trimEnd s +:+ r /\ all_chars is_white_space r = true.
Proof.
  induction s as [|c s [r [Hs Hr]]]; simpl.
  - exists EmptyString. split; reflexivity.
  - destruct (trimEnd s) as [|y t] eqn:Ht.
    + simpl in Hs. subst r. destruct (is_white_space c) eqn:Hc.
      * exists (String c s). simpl. rewrite Hc, Hr. split; reflexivity.
      * exists s. split; [reflexivity | exact Hr].
    + exists r. split; [| exact Hr]. simpl. simpl in Hs. now rewrite <- Hs.
Qed.

Lemma trimEnd_last (s : string) (c : ascii) :
  last_char (trimEnd s) = Some c -> is_white_space c = false.
Proof.
  induction s as [|x s IH]; simpl; [discriminate |].
  destruct (trimEnd s) as [|y t] eqn:Ht.
  - destruct (is_white_space x) eqn:Hx; simpl; [discriminate |].
    intros [= <-]. exact Hx.
  - intros Hl. apply IH. exact Hl.
Qed.

Lemma trimEnd_first (s : string) (c : ascii) :
  first_char (trimEnd s) = Some c -> first_char s = Some c.
Proof.
  destruct s as [|x s]; simpl; [discriminate |].
  destruct (trimEnd s); [destruct (is_white_space x) |]; simpl; congruence.
Qed.

(** [trim] cuts a run of white space off each end and leaves a text that
    neither starts nor ends with white space. *)
Lemma trim_trimmed (s : string) : trimmed s (trim s).
Proof.
  unfold trimmed, trim.
  destruct (trimStart_decompose s) as [l [Hs Hl]].
  destruct (trimEnd_decompose (trimStart s)) as [r [Ht Hr]].
  exists l, r. repeat split; try assumption.
  - rewrite Hs at 1. now rewrite Ht at 1.
  - intros c Hc. apply (trimStart_first s). now apply trimEnd_first.
  - apply trimEnd_last.
Qed.

(** *** split and join *)

Lemma split_nonempty sep s : split sep s <> [].
Proof.
  destruct s as [|c s]; simpl; [discriminate |].
  destruct (Ascii.eqb c sep); [discriminate |].
  destruct (split sep s); discriminate.
Qed.

Lemma join_cons2 sep p q ps :
  join sep (p :: q :: ps) = p +:+ sep +:+ join sep (q :: ps).
Proof. reflexivity. Qed.

(** Joining the parts with the separator gives the text back. *)
Lemma join_split sep s : join (String sep EmptyString) (split sep s) = s.
Proof.
  induction s as [|c s IH]; [reflexivity |].
  simpl split. destruct (Ascii.eqb_spec c sep) as [->|Hne].
  - pose proof (split_nonempty sep s) as Hn.
    destruct (split sep s) as [|q qs]; [contradiction |].
    rewrite join_cons2, IH. reflexivity.
  - pose proof (split_nonempty sep s) as Hn.
    destruct (split sep s) as [|q qs]; [contradiction |].
    destruct qs as [|q' qs].
    + simpl in *. now rewrite IH.
    + rewrite join_cons2. rewrite <- IH. reflexivity.
Qed.

(** No part holds the separator. *)
Lemma split_free sep s : Forall (free_of sep) (split sep s).
Proof.
  induction s as [|c s IH]; simpl.
  - constructor; [reflexivity | constructor].
  - destruct (Ascii.eqb c sep) eqn:Hc.
    + constructor; [reflexivity | exact IH].
    + destruct (split sep s) as [|q qs].
      * constructor; [| constructor]. unfold free_of. simpl. now rewrite Hc.
      * inversion IH as [|? ? Hq Hqs]; subst. constructor; [| exact Hqs].
        unfold free_of in *. simpl. now rewrite Hc, Hq.
Qed.

Lemma split_app_free sep p s :
  free_of sep p ->
  split sep (p +:+ String sep s) = p :: split sep s.
Proof.
  unfold free_of. induction p as [|c p IH]; simpl; intros Hp.
  - now rewrite Ascii.eqb_refl.
  - apply andb_true_iff in Hp as [Hc Hp]. apply negb_true_iff in Hc.
    rewrite Hc, (IH Hp). reflexivity.
Qed.

Lemma split_free_id sep p : free_of sep p -> split sep p = [p].
Proof.
  unfold free_of. induction p as [|c p IH]; simpl; intros Hp; [reflexivity |].
  apply andb_true_iff in Hp as [Hc Hp]. apply negb_true_iff in Hc.
  now rewrite Hc, (IH Hp).
Qed.

(** The parts are the only way to cut the text at the separators. *)
Lemma split_unique sep parts :
  parts <> [] -> Forall (free_of sep) parts ->
  split sep (join (String sep EmptyString) parts) = parts.
Proof.
  induction parts as [|p ps IH]; [congruence |].
  intros _ Hf. inversion Hf as [|? ? Hp Hps]; subst.
  destruct ps as [|q ps].
  - simpl. now apply split_free_id.
  - rewrite join_cons2. simpl String.append.
    rewrite split_app_free by exact Hp.
    f_equal. apply IH; [discriminate | exact Hps].
Qed.

(** *** replace *)

Lemma replace_unfold pat rep s :
  replace pat rep s =
  if String.prefix pat s then rep +:+ drop (String.length pat) s
  else match s with
       | EmptyString => EmptyString
       | String c s' => String c (replace pat rep s')
       end.
Proof. destruct s; reflexivity. Qed.

Lemma prefix_app pat s : String.prefix pat s = true <-> exists b, s = pat +:+ b.
Proof.
  revert s. induction pat as [|c pat IH]; intros s.
  - split; [intros _; exists s; reflexivity | intros _; destruct s; reflexivity].
  - destruct s as [|x s]; simpl.
    + split; [discriminate | intros [b Hb]; discriminate].
    + destruct (ascii_dec c x) as [->|Hne].
      * rewrite IH. split; intros [b Hb]; exists b; [now rewrite Hb | congruence].
      * split; [discriminate | intros [b Hb]; congruence].
Qed.

Lemma drop_app pat b : drop (String.length pat) (pat +:+ b) = b.
Proof. induction pat as [|c pat IH]; simpl; [now destruct b | exact IH]. Qed.

Lemma occurs_at_0 pat s : occurs_at pat s 0 <-> String.prefix pat s = true.
Proof.
  rewrite prefix_app. unfold occurs_at. split.
  - intros [a [b [Hs Ha]]]. destruct a; [| discriminate]. now exists b.
  - intros [b Hb]. exists EmptyString, b. split; [exact Hb | reflexivity].
Qed.

Lemma occurs_at_S pat c s n : occurs_at pat (String c s) (S n) <-> occurs_at pat s n.
Proof.
  unfold occurs_at. split.
  - intros [a [b [Hs Ha]]]. destruct a as [|x a]; [discriminate |].
    simpl in Hs, Ha. exists a, b. split; congruence.
  - intros [a [b [Hs Ha]]]. exists (String c a), b. simpl. split; congruence.
Qed.

Lemma occurs_at_empty pat n :
  occurs_at pat EmptyString n -> String.prefix pat EmptyString = true.
Proof.
  intros [a [b [Hs Ha]]]. destruct a; [| discriminate].
  destruct pat; [reflexivity | discriminate].
Qed.

(** [replace] cuts out the leftmost occurrence of the pattern, wherever
    it stands, and puts the replacement there. *)
Lemma replace_leftmost pat rep s :
  (replace pat rep s = s /\ forall n, ~ occurs_at pat s n)
  \/ (exists a b,
        s = a +:+ pat +:+ b /\ replace pat rep s = a +:+ rep +:+ b
        /\ forall n, (n < String.length a)%nat -> ~ occurs_at pat s n).
Proof.
  induction s as [|c s IH]; rewrite replace_unfold.
  - destruct (String.prefix pat EmptyString) eqn:Hp.
    + right. apply prefix_app in Hp as [b Hb]. exists EmptyString, b.
      split; [exact Hb |]. split.
      * rewrite Hb at 1. now rewrite drop_app.
      * simpl. intros n Hn. lia.
    + left. split; [reflexivity |]. intros n Hn.
      apply occurs_at_empty in Hn. congruence.
  - destruct (String.prefix pat (String c s)) eqn:Hp.
    + right. apply prefix_app in Hp as [b Hb]. exists EmptyString, b.
      split; [exact Hb |]. split.
      * rewrite Hb at 1. now rewrite drop_app.
      * simpl. intros n Hn. lia.
    + destruct IH as [[Hr Hno] | [a [b [Hs [Hr Hno]]]]].
      * left. split; [now rewrite Hr |]. intros [|n] Hn.
        -- apply occurs_at_0 in Hn. congruence.
        -- apply occurs_at_S in Hn. exact (Hno n Hn).
      * right. exists (String c a), b. split; [simpl; now rewrite <- Hs |].
        split; [simpl; now rewrite Hr |]. simpl. intros [|n] Hlt Hn.
        -- apply occurs_at_0 in Hn. congruence.
        -- apply occurs_at_S in Hn. apply (Hno n); [lia | exact Hn].
Qed.

Lemma replace_firstRemoved pat s : firstRemoved pat s (replace pat EmptyString s).
Proof.
  unfold firstRemoved.
  destruct (replace_leftmost pat EmptyString s) as [[Hr Hno] | [a [b [Hs [Hr Hno]]]]].
  - left. split; assumption.
  - right. exists a, b. repeat split; assumption.
Qed.

(** *** replaceClass *)

Lemma replaceClass_clean cls rep s :
  cls rep = false ->
  all_chars (fun c => negb (cls c)) (replaceClass cls rep s) = true.
Proof.
  intros Hrep. induction s as [|c s IH]; simpl; [reflexivity |].
  rewrite IH, andb_true_r. destruct (cls c) eqn:Hc; [now rewrite Hrep | now rewrite Hc].
Qed.

Lemma replaceClass_empty cls rep s :
  replaceClass cls rep s = EmptyString <-> s = EmptyString.
Proof. destruct s; simpl; split; congruence. Qed.

End JsStringFacts.

(** ** The sanitised meeting name *)

Example sanitize_two_parts :
  getSanitizedMeetingName (Some "Weekly Sync | Microsoft Teams") = "Weekly Sync".
Proof. reflexivity. Qed.

Example sanitize_three_parts :
  getSanitizedMeetingName (Some "Room A | Standup | Microsoft Teams") = "Standup".
Proof. reflexivity. Qed.

Lemma forbidden_underscore : forbidden_in_filename "_" = false.
Proof. reflexivity. Qed.

(** C7, as the code has it. An absent or empty title gives the
    placeholder. Otherwise the title is cut at the vertical bars, the second
    part is chosen when there are more than two parts and the first part
    otherwise; the leftmost occurrence of the platform name is cut out of the
    chosen part wherever it stands (not only at its end), the white space at
    both ends is trimmed, every character a file name may not hold becomes an
    underscore, and an empty result gives the placeholder. The result holds
    no forbidden character and is never empty, and the two titles of the
    description give the names it states. *)
Theorem sanitized_name_cuts_leftmost_platform_name :
  getSanitizedMeetingName None = "Meeting"
  /\ getSanitizedMeetingName (Some EmptyString) = "Meeting"
  /\ (forall t : string, t <> EmptyString ->
        exists parts chosen stripped cleaned,
          JsString.join "|" parts = t
          /\ Forall (JsString.free_of "|") parts
          /\ parts !! (if (2 <? List.length parts)%nat then 1 else 0)%nat = Some chosen
          /\ JsString.firstRemoved "Microsoft Teams" chosen stripped
          /\ JsString.trimmed stripped cleaned
          /\ getSanitizedMeetingName (Some t) =
               if bool_decide (cleaned = EmptyString) then "Meeting"
               else JsString.replaceClass forbidden_in_filename "_" cleaned)
  /\ (forall fullTitle,
        getSanitizedMeetingName fullTitle <> EmptyString
        /\ JsString.all_chars (fun c => negb (forbidden_in_filename c))
             (getSanitizedMeetingName fullTitle) = true)
  /\ getSanitizedMeetingName (Some "Weekly Sync | Microsoft Teams") = "Weekly Sync"
  /\ getSanitizedMeetingName (Some "Room A | Standup | Microsoft Teams") = "Standup".
Proof.
  split; [reflexivity |]. split; [reflexivity |].
  split; [| split; [| split; reflexivity]].
  - intros t Ht.
    set (parts := JsString.split "|" t).
    set (chosen := if (2 <? List.length parts)%nat
                   then nth 1 parts EmptyString else nth 0 parts EmptyString).
    exists parts, chosen,
      (JsString.replace platform_name EmptyString chosen),
      (JsString.trim (JsString.replace platform_name EmptyString chosen)).
    split; [apply JsStringFacts.join_split |].
    split; [apply JsStringFacts.split_free |].
    split.
    { pose proof (JsStringFacts.split_nonempty "|" t) as Hn. fold parts in Hn.
      subst chosen. destruct (2 <? List.length parts)%nat eqn:Hlen.
      - apply Nat.ltb_lt in Hlen.
        destruct parts as [|p0 [|p1 ps]]; simpl in Hlen; try lia. reflexivity.
      - destruct parts as [|p0 ps]; [contradiction | reflexivity]. }
    split; [apply JsStringFacts.replace_firstRemoved |].
    split; [apply JsStringFacts.trim_trimmed |].
    destruct t as [|c t]; [contradiction |].
    unfold getSanitizedMeetingName. fold parts. fold chosen.
    unfold JsString.or_else.
    destruct (JsString.trim _) as [|x cleaned]; reflexivity.
  - intros fullTitle. destruct fullTitle as [[|c t]|];
      try (split; [discriminate | reflexivity]).
    unfold getSanitizedMeetingName, JsString.or_else.
    match goal with |- context [JsString.replaceClass ?f ?r ?s] =>
      pose proof (JsStringFacts.replaceClass_clean f r s forbidden_underscore) as Hclean;
      destruct (JsString.replaceClass f r s) eqn:Hr end.
    + split; [discriminate | reflexivity].
    + split; [discriminate | exact Hclean].
Qed.

(** The theorem at the title of a meeting held in a named room. *)
Lemma sanitized_name_witness :
  exists parts chosen stripped cleaned,
    JsString.join "|" parts = "Room A | Standup | Microsoft Teams"
    /\ Forall (JsString.free_of "|") parts
    /\ parts !! (if (2 <? List.length parts)%nat then 1 else 0)%nat = Some chosen
    /\ JsString.firstRemoved "Microsoft Teams" chosen stripped
    /\ JsString.trimmed stripped cleaned
    /\ getSanitizedMeetingName (Some "Room A | Standup | Microsoft Teams") =
         if bool_decide (cleaned = EmptyString) then "Meeting"
         else JsString.replaceClass forbidden_in_filename "_" cleaned.
Proof.
  apply (proj1 (proj2 (proj2 sanitized_name_cuts_leftmost_platform_name))).
  discriminate.
Defined.

(** C7 as worded fails: the platform name is cut out where it is no
    suffix, and a suffix stays when the name also occurs earlier. *)
Lemma sanitized_name_is_not_suffix_stripping :
  getSanitizedMeetingName (Some "Microsoft Teams Sync") = "Sync"
  /\ sanitizeMeetingTitle_described (Some "Microsoft Teams Sync") = "Microsoft Teams Sync"
  /\ getSanitizedMeetingName (Some "Microsoft Teams call - Microsoft Teams")
     = "call - Microsoft Teams"
  /\ sanitizeMeetingTitle_described (Some "Microsoft Teams call - Microsoft Teams")
     = "Microsoft Teams call -"
  /\ ~ (forall fullTitle,
          getSanitizedMeetingName fullTitle = sanitizeMeetingTitle_described fullTitle).
Proof.
  repeat split; try reflexivity.
  intros Hall. specialize (Hall (Some "Microsoft Teams Sync")). discriminate Hall.
Qed.

(** ** Alias transforms *)

Module AliasFacts.
Import Alias.

Lemma noAliases_empty (aliases : aliasMap) : noAliases aliases = true <-> aliases = ∅.
Proof.
  unfold noAliases. rewrite Nat.eqb_eq. apply map_size_empty_iff.
Qed.

Lemma noAliases_false (aliases : aliasMap) : aliases <> ∅ -> noAliases aliases = false.
Proof.
  intros Hne. destruct (noAliases aliases) eqn:Hn; [| reflexivity].
  apply noAliases_empty in Hn. contradiction.
Qed.

(** Where the lookup gives a text or nothing, the entry comes out as the
    description asks. *)
Lemma aliasEntry_renamed (aliases : aliasMap) (e : TranscriptEntry) :
  resolvable aliases (Name e) -> aliasEntry aliases e = Some (renamed aliases e).
Proof.
  unfold resolvable, aliasEntry, aliasedName, getProperty, renamed, JsString.or_else.
  intros Hres. destruct (aliases !! Name e) as [a|] eqn:Ha; simpl.
  - destruct (JsString.trim a); reflexivity.
  - destruct Hres as [[a Hsome] | Hplain]; [discriminate |].
    rewrite bool_decide_eq_false_2 by exact Hplain. reflexivity.
Qed.

(** Where the name is one every object inherits and the map has no own
    entry for it, the callback throws. *)
Lemma aliasEntry_inherited (aliases : aliasMap) (e : TranscriptEntry) :
  aliases !! Name e = None -> Name e ∈ inheritedKeys -> aliasEntry aliases e = None.
Proof.
  intros Hnone Hin. unfold aliasEntry, aliasedName, getProperty.
  rewrite Hnone, bool_decide_eq_true_2 by exact Hin. reflexivity.
Qed.

Lemma mapM_aliasEntry_renamed (aliases : aliasMap) (es : list TranscriptEntry) :
  Forall (fun e => resolvable aliases (Name e)) es ->
  mapM (aliasEntry aliases) es = Some (renamed aliases <$> es).
Proof.
  intros Hall. apply mapM_Some. apply Forall2_fmap_r, Forall_Forall2_diag.
  eapply Forall_impl; [exact Hall |]. intros e. apply aliasEntry_renamed.
Qed.

Lemma mapM_aliasEntry_inherited (aliases : aliasMap) (es : list TranscriptEntry) e :
  e ∈ es -> aliases !! Name e = None -> Name e ∈ inheritedKeys ->
  mapM (aliasEntry aliases) es = None.
Proof.
  intros He Hnone Hin. apply mapM_None. apply Exists_exists.
  exists e. split; [exact He | now apply aliasEntry_inherited].
Qed.

(** Cells that exist keep their content when the heap grows. *)
Lemma readEntry_grow (h extra : heap) (l : loc) (e : TranscriptEntry) :
  readEntry h l = Some e -> readEntry (h ++ extra) l = Some e.
Proof.
  unfold readEntry. destruct (h !! l) as [c|] eqn:Hl; [| discriminate].
  intros Hc. now rewrite (lookup_app_l_Some _ _ _ _ Hl).
Qed.

Lemma readTranscript_grow (h extra : heap) (t : loc) (es : list TranscriptEntry) :
  readTranscript h t = Some es -> readTranscript (h ++ extra) t = Some es.
Proof.
  unfold readTranscript. destruct (h !! t) as [c|] eqn:Ht; [| discriminate].
  rewrite (lookup_app_l_Some _ _ _ _ Ht). destruct c as [|ls|]; try discriminate.
  rewrite !mapM_Some. intros HF. eapply Forall2_impl; [exact HF |].
  intros l e. apply readEntry_grow.
Qed.

(** The cells allocated for the mapped entries read back as those entries. *)
Lemma readEntries_fresh (h tail : heap) (es : list TranscriptEntry) :
  mapM (readEntry ((h ++ (Entry <$> es)) ++ tail)) (seq (List.length h) (List.length es))
  = Some es.
Proof.
  apply mapM_Some, Forall2_same_length_lookup. split.
  - now rewrite length_seq.
  - intros i l e Hl He. apply lookup_seq in Hl as [-> Hi].
    unfold readEntry.
    assert (Hcell : (h ++ (Entry <$> es)) !! (List.length h + i)%nat = Some (Entry e)).
    { rewrite lookup_app_r by lia.
      replace (List.length h + i - List.length h)%nat with i by lia.
      rewrite list_lookup_fmap, He. reflexivity. }
    now rewrite (lookup_app_l_Some _ _ _ _ Hcell).
Qed.

(** C5. With an empty alias map [applyAliasesToTranscript] hands back the
    very array it was given, and nothing is allocated or written; so does
    [applyAliasesToAttendeeReport] for its report, and also, whatever the
    alias map, when the report is absent. *)
Theorem empty_alias_map_returns_the_input :
  (forall (h : heap) (transcriptArray : loc),
      applyAliasesToTranscript h transcriptArray ∅ = Some (h, transcriptArray))
  /\ (forall (h : heap) (attendeeReport : option loc),
        applyAliasesToAttendeeReport h attendeeReport ∅ = Some (h, attendeeReport))
  /\ (forall (h : heap) (aliases : aliasMap),
        applyAliasesToAttendeeReport h None aliases = Some (h, None)).
Proof.
  split; [| split].
  - intros h t. reflexivity.
  - intros h [r|]; reflexivity.
  - intros h aliases. reflexivity.
Qed.

(** X17. With a non-empty alias map, and speaker names whose lookup gives a
    text or nothing, [applyAliasesToTranscript] returns a new array of new
    objects: no cell that existed is written to (the input array still reads
    as the same entries), and the entry at each position of the result has
    the time and text of the input entry and, as name, the trimmed alias of
    the original name when the map has one that is not blank, the original
    name otherwise. *)
Lemma aliased_transcript_is_a_renamed_copy
    (h : heap) (transcriptArray : loc) (aliases : aliasMap)
    (es : list TranscriptEntry) :
  aliases <> ∅ ->
  readTranscript h transcriptArray = Some es ->
  Forall (fun e => resolvable aliases (Name e)) es ->
  exists (h' : heap) (result : loc),
    applyAliasesToTranscript h transcriptArray aliases = Some (h', result)
    /\ (List.length h <= result)%nat
    /\ (forall l c, h !! l = Some c -> h' !! l = Some c)
    /\ (forall ls, h' !! result = Some (Array ls) ->
          Forall (fun l => List.length h <= l)%nat ls)
    /\ readTranscript h' transcriptArray = Some es
    /\ readTranscript h' result = Some (renamed aliases <$> es).
Proof.
  intros Hne Hread Hres.
  unfold applyAliasesToTranscript.
  rewrite (noAliases_false _ Hne), Hread. simpl.
  rewrite (mapM_aliasEntry_renamed _ _ Hres). simpl.
  set (mapped := renamed aliases <$> es).
  set (h1 := h ++ (Entry <$> mapped)).
  set (arr := Array (seq (List.length h) (List.length mapped))).
  exists (h1 ++ [arr]), (List.length h1).
  assert (Hcell : (h1 ++ [arr]) !! List.length h1 = Some arr).
  { rewrite lookup_app_r by lia. now rewrite Nat.sub_diag. }
  split; [reflexivity |].
  split; [subst h1; rewrite length_app; lia |].
  split.
  { intros l c Hl. subst h1. rewrite <- app_assoc. now apply lookup_app_l_Some. }
  split.
  { intros ls Hls.
    assert (Heq : Some (Array ls) = Some arr) by (rewrite <- Hls; exact Hcell).
    injection Heq as ->.
    apply Forall_forall. intros l Hl. apply elem_of_seq in Hl. lia. }
  split.
  { subst h1. rewrite <- app_assoc. now apply readTranscript_grow. }
  unfold readTranscript.
  change (match (h1 ++ [arr]) !! List.length h1 with
          | Some (Array ls) => mapM (readEntry (h1 ++ [arr])) ls
          | _ => None
          end = Some mapped).
  rewrite Hcell. subst arr h1. apply readEntries_fresh.
Qed.

Example alias_with_blanks_is_trimmed :
  exists h' result,
    applyAliasesToTranscript
      [Entry (mkEntry "10:00" "Alice" "Hi"); Entry (mkEntry "10:01" "Bob" "Yo");
       Array [0; 1]%nat] 2 {[ "Alice" := " Al " ]} = Some (h', result)
    /\ readTranscript h' result
       = Some [mkEntry "10:00" "Al" "Hi"; mkEntry "10:01" "Bob" "Yo"].
Proof.
  destruct (aliased_transcript_is_a_renamed_copy
              [Entry (mkEntry "10:00" "Alice" "Hi"); Entry (mkEntry "10:01" "Bob" "Yo");
               Array [0; 1]%nat] 2 {[ "Alice" := " Al " ]}
              [mkEntry "10:00" "Alice" "Hi"; mkEntry "10:01" "Bob" "Yo"])
    as (h' & result & Happ & _ & _ & _ & _ & Hread).
  - apply insert_non_empty.
  - reflexivity.
  - apply Forall_cons. split; [left; now exists " Al " |].
    apply Forall_cons. split; [| apply List.Forall_nil].
    right. apply (bool_decide_unpack _). vm_compute. exact I.
  - exists h', result. split; [exact Happ | exact Hread].
Defined.

(** A transcript whose speaker is named like a property that every object
    inherits, and an alias map that has no own entry for that name, make
    the transform throw, for every heap and every such map. *)
Lemma inherited_speaker_name_throws
    (h : heap) (transcriptArray : loc) (aliases : aliasMap)
    (es : list TranscriptEntry) (e : TranscriptEntry) :
  aliases <> ∅ ->
  readTranscript h transcriptArray = Some es ->
  e ∈ es -> aliases !! Name e = None -> Name e ∈ inheritedKeys ->
  applyAliasesToTranscript h transcriptArray aliases = None.
Proof.
  intros Hne Hread He Hnone Hin. unfold applyAliasesToTranscript.
  rewrite (noAliases_false _ Hne), Hread. simpl.
  now rewrite (mapM_aliasEntry_inherited aliases es e He Hnone Hin).
Qed.

(** C4 at a failing input. The claim asks that with a non-empty alias map
    every entry whose name has no entry in the map keeps its name. For a
    speaker whose name is [constructor] and a map that only renames Alice,
    the map has no entry for the name, yet the lookup [aliases[entry.Name]]
    finds the inherited [Object.prototype.constructor], a function; the
    optional chain does not stop there and the call of [trim] on it throws:
    no array is returned. *)
Theorem alias_lookup_throws_on_inherited_name :
  let h := [Entry (mkEntry "10:00" "Alice" "Hi");
            Entry (mkEntry "10:01" "constructor" "Yo");
            Array [0; 1]%nat] in
  let aliases : aliasMap := {[ "Alice" := "Al" ]} in
  noAliases aliases = false
  /\ readTranscript h 2
     = Some [mkEntry "10:00" "Alice" "Hi"; mkEntry "10:01" "constructor" "Yo"]
  /\ aliases !! "constructor" = None
  /\ renamed aliases (mkEntry "10:01" "constructor" "Yo")
     = mkEntry "10:01" "constructor" "Yo"
  /\ applyAliasesToTranscript h 2 aliases = None.
Proof. repeat split; vm_compute; reflexivity. Qed.

End AliasFacts.

(** ** Markdown rendering *)

Module FormatFacts.
Import Format.

Lemma join_app sep (g r : list string) :
  g <> [] -> r <> [] ->
  JsString.join sep (g ++ r) = JsString.join sep g +:+ sep +:+ JsString.join sep r.
Proof.
  induction g as [|x g IH]; [congruence |]. intros _ Hr.
  destruct g as [|y g].
  - destruct r as [|z r]; [congruence | reflexivity].
  - change (JsString.join sep ((x :: y :: g) ++ r))
      with (x +:+ sep +:+ JsString.join sep ((y :: g) ++ r)).
    rewrite IH by (discriminate || assumption).
    change (JsString.join sep (x :: y :: g))
      with (x +:+ sep +:+ JsString.join sep (y :: g)).
    now rewrite !JsStringFacts.app_assoc.
Qed.

(** Joining pieces that are themselves joined lines is joining all the
    lines. *)
Lemma join_flatten sep (groups : list (list string)) :
  Forall (fun g => g <> []) groups ->
  JsString.join sep (JsString.join sep <$> groups) = JsString.join sep (concat groups).
Proof.
  induction groups as [|g gs IH]; [reflexivity |].
  intros Hf. inversion Hf as [|? ? Hg Hgs]; subst.
  destruct gs as [|g' gs].
  - simpl. now rewrite app_nil_r.
  - change (JsString.join sep (JsString.join sep <$> g :: g' :: gs))
      with (JsString.join sep g +:+ sep
            +:+ JsString.join sep (JsString.join sep <$> g' :: gs)).
    rewrite (IH Hgs).
    change (concat (g :: g' :: gs)) with (g ++ concat (g' :: gs)).
    rewrite join_app; [reflexivity | exact Hg |].
    inversion Hgs as [|? ? Hg' _]; subst. destruct g'; [congruence | discriminate].
Qed.

Lemma mdPieces_lineGroups lastSpeaker t :
  mdPieces lastSpeaker t = JsString.join newline <$> lineGroups lastSpeaker t.
Proof.
  revert lastSpeaker. induction t as [|e rest IH]; intros lastSpeaker; [reflexivity |].
  simpl. unfold entryLines. case_bool_decide as Hs.
  - rewrite IH. reflexivity.
  - assert (lastSpeaker = Some (Name e)) as -> by (destruct (decide (Some (Name e) = lastSpeaker)); congruence).
    rewrite IH. reflexivity.
Qed.

Lemma lineGroups_nonempty lastSpeaker t :
  Forall (fun g => g <> []) (lineGroups lastSpeaker t).
Proof.
  revert lastSpeaker. induction t as [|e rest IH]; intros lastSpeaker; simpl.
  - constructor.
  - constructor; [| apply IH]. unfold entryLines. case_bool_decide; discriminate.
Qed.

Lemma speakerRuns_cons e rest :
  speakerRuns (e :: rest) =
  match speakerRuns rest with
  | (e' :: run) :: runs =>
      if bool_decide (Name e = Name e') then (e :: e' :: run) :: runs
      else [e] :: (e' :: run) :: runs
  | runs => [e] :: runs
  end.
Proof. reflexivity. Qed.

Lemma speakerRuns_head e rest :
  exists run runs, speakerRuns (e :: rest) = (e :: run) :: runs.
Proof.
  simpl. destruct (speakerRuns rest) as [|[|e' run] runs]; eauto.
  case_bool_decide; eauto.
Qed.

Lemma allRunLines_cons e rest :
  allRunLines (e :: rest) =
  EmptyString :: mdHeader e :: mdQuoted e ::
    match rest with
    | [] => []
    | e' :: _ =>
        if bool_decide (Name e = Name e') then drop 2 (allRunLines rest)
        else allRunLines rest
    end.
Proof.
  unfold allRunLines. destruct rest as [|e' rest']; [reflexivity |].
  destruct (speakerRuns_head e' rest') as [run [runs Hr]].
  rewrite (speakerRuns_cons e), Hr.
  case_bool_decide; reflexivity.
Qed.

Lemma lineGroups_runs lastSpeaker t :
  concat (lineGroups lastSpeaker t) =
  match t with
  | [] => []
  | e :: _ =>
      if bool_decide (Some (Name e) <> lastSpeaker) then allRunLines t
      else drop 2 (allRunLines t)
  end.
Proof.
  revert lastSpeaker. induction t as [|e rest IH]; intros lastSpeaker; [reflexivity |].
  simpl lineGroups. simpl concat. rewrite IH, allRunLines_cons.
  assert (Htail :
    match rest with
    | [] => []
    | e0 :: _ =>
        if bool_decide (Some (Name e0) <> Some (Name e)) then allRunLines rest
        else drop 2 (allRunLines rest)
    end =
    match rest with
    | [] => []
    | e' :: _ =>
        if bool_decide (Name e = Name e') then drop 2 (allRunLines rest)
        else allRunLines rest
    end).
  { destruct rest as [|e' rest']; [reflexivity |].
    repeat case_bool_decide; congruence. }
  rewrite Htail. unfold entryLines. case_bool_decide; reflexivity.
Qed.

(** The stateful callback renders exactly the lines of the speaker runs. *)
Lemma mdPieces_runs t :
  JsString.join newline (mdPieces None t) = JsString.join newline (allRunLines t).
Proof.
  rewrite mdPieces_lineGroups, join_flatten by apply lineGroups_nonempty.
  rewrite lineGroups_runs. destruct t as [|e rest]; [reflexivity |].
  case_bool_decide; [reflexivity | congruence].
Qed.

Lemma speakerRuns_concat t : concat (speakerRuns t) = t.
Proof.
  induction t as [|e rest IH]; [reflexivity |].
  simpl. destruct (speakerRuns rest) as [|[|e' run] runs]; simpl in *.
  - now rewrite <- IH.
  - now rewrite <- IH.
  - case_bool_decide; simpl; now rewrite <- IH.
Qed.

Lemma speakerRuns_uniform t :
  Forall (fun run => exists e es, run = e :: es /\ Forall (fun x => Name x = Name e) es)
         (speakerRuns t).
Proof.
  induction t as [|e rest IH]; simpl; [constructor |].
  destruct (speakerRuns rest) as [|[|e' run] runs].
  - constructor; [| constructor]. exists e, []. split; [reflexivity | constructor].
  - constructor; [| exact IH]. exists e, []. split; [reflexivity | constructor].
  - case_bool_decide as Hn.
    + inversion IH as [|? ? [e0 [es [Heq Hes]]] Hruns]; subst.
      injection Heq as <- <-. constructor; [| exact Hruns].
      exists e, (e' :: run). split; [reflexivity |].
      constructor; [congruence |].
      eapply Forall_impl; [exact Hes |]. simpl. intros x Hx. congruence.
    + constructor; [| exact IH]. exists e, []. split; [reflexivity | constructor].
Qed.

Lemma speakerRuns_maximal t i r1 r2 :
  speakerRuns t !! i = Some r1 -> speakerRuns t !! S i = Some r2 ->
  Name <$> head r1 <> Name <$> head r2.
Proof.
  revert i r1 r2. induction t as [|e rest IH]; intros i r1 r2; simpl; [discriminate |].
  destruct (speakerRuns rest) as [|[|e' run] runs] eqn:Hr.
  - destruct i; discriminate.
  - destruct i as [|i]; simpl.
    + pose proof (speakerRuns_uniform rest) as Hu. rewrite Hr in Hu.
      inversion Hu as [|? ? [e0 [es [Heq _]]] _]. discriminate.
    + intros H1 H2. apply (IH i r1 r2); assumption.
  - case_bool_decide as Hn.
    + destruct i as [|i]; simpl.
      * intros [= <-] H2. specialize (IH 0%nat (e' :: run) r2 eq_refl H2).
        simpl in *. congruence.
      * intros H1 H2. apply (IH (S i) r1 r2); assumption.
    + destruct i as [|i]; simpl.
      * intros [= <-] [= <-]. simpl. congruence.
      * intros H1 H2. apply (IH i r1 r2); assumption.
Qed.

Example formatAsTxt_one_line `{Host} :
  formatAsTxt [mkEntry "10:00" "Alice" "Hi"] None = "[10:00] Alice: Hi".
Proof. reflexivity. Qed.

(** C8, as the code has it. The transcript section of [formatAsMarkdown]
    renders the maximal runs of consecutive entries with one speaker: each
    run gives a blank line, one bold header with the speaker and the time of
    its first entry, and one quoted line per entry, so later entries of a run
    add a quoted line and no header; two consecutive entries of one speaker
    give one header and two quoted lines. The transcript section is trimmed
    of white space at both ends and then appended to the attendee block,
    which is not trimmed; with no attendee block the whole output is the
    trimmed section. *)
Theorem markdown_renders_speaker_runs `{Host}
    (transcript : list TranscriptEntry) (attendeeReport : option AttendeeReport) :
  let runs := speakerRuns transcript in
  let section := JsString.join newline (concat (runLines <$> runs)) in
  concat runs = transcript
  /\ Forall (fun run =>
               exists e es, run = e :: es /\ Forall (fun x => Name x = Name e) es) runs
  /\ (forall i r1 r2, runs !! i = Some r1 -> runs !! S i = Some r2 ->
        Name <$> head r1 <> Name <$> head r2)
  /\ formatAsMarkdown transcript attendeeReport
     = mdAttendeeBlock attendeeReport +:+ JsString.trim section
  /\ JsString.trimmed section (JsString.trim section)
  /\ formatAsMarkdown transcript None = JsString.trim section
  /\ (forall speaker t1 x1 t2 x2,
        formatAsMarkdown [mkEntry t1 speaker x1; mkEntry t2 speaker x2] None
        = JsString.trim
            (JsString.join newline
               [EmptyString; "**" +:+ speaker +:+ "** (" +:+ t1 +:+ "):";
                "> " +:+ x1; "> " +:+ x2])).
Proof.
  intros runs section.
  split; [apply speakerRuns_concat |].
  split; [apply speakerRuns_uniform |].
  split; [apply speakerRuns_maximal |].
  split; [unfold formatAsMarkdown; now rewrite mdPieces_runs |].
  split; [apply JsStringFacts.trim_trimmed |].
  split; [unfold formatAsMarkdown; now rewrite mdPieces_runs |].
  intros speaker t1 x1 t2 x2.
  unfold formatAsMarkdown. rewrite mdPieces_runs.
  unfold allRunLines. rewrite speakerRuns_cons. cbn [speakerRuns Name].
  rewrite bool_decide_eq_true_2 by reflexivity. reflexivity.
Qed.

(** C8 as worded fails in its last clause: with an attendee block and an
    empty transcript the output ends with the line breaks that follow the
    transcript heading, so the output as a whole is not trimmed. *)
Lemma markdown_output_not_always_trimmed :
  let out :=
    formatAsMarkdown (H := plainHost) [] (Some (mkReport ["Alice"] [] [] 1 0)) in
  JsString.last_char out = Some (ascii_of_nat 10)
  /\ JsString.is_white_space (ascii_of_nat 10) = true
  /\ JsString.trim out <> out.
Proof.
  split; [reflexivity |]. split; [reflexivity |].
  vm_compute. discriminate.
Qed.

End FormatFacts.

(** ** Format selection *)

Module ExporterFacts.
Import Exporter.

Lemma includes_true (allowed : list string) f : includes allowed f = true <-> f ∈ allowed.
Proof. unfold includes. apply bool_decide_eq_true. Qed.

Lemma includes_false (allowed : list string) f : includes allowed f = false <-> f ∉ allowed.
Proof. unfold includes. apply bool_decide_eq_false. Qed.

Lemma truthy_nonempty (s : string) : JsString.truthy s = true <-> s <> EmptyString.
Proof. destruct s; simpl; split; congruence. Qed.

Lemma truthy_empty (s : string) : JsString.truthy s = false <-> s = EmptyString.
Proof. destruct s; simpl; split; congruence. Qed.

(** The request is absent, not on the list, or the empty name: the cases
    in which [saveTranscript] enters its fallback. *)
Lemma selectedFormat_fallback config format :
  (forall f, format = Some f -> f ∈ allowedFormats config -> f = EmptyString) ->
  selectedFormat config format = fallbackFormat config.
Proof.
  intros Hno. unfold selectedFormat. destruct format as [f|]; [| reflexivity].
  destruct (includes (allowedFormats config) f) eqn:Hin; [| reflexivity].
  apply includes_true in Hin. now rewrite (Hno f eq_refl Hin).
Qed.

Lemma selectedFormat_as_is config f :
  f ∈ allowedFormats config -> f <> EmptyString -> selectedFormat config (Some f) = f.
Proof.
  intros Hin Hf. unfold selectedFormat.
  rewrite (proj2 (includes_true _ _) Hin), (proj2 (truthy_nonempty f) Hf). reflexivity.
Qed.

Lemma fallbackFormat_default config d :
  defaultSaveFormat config = Some d -> d ∈ allowedFormats config -> d <> EmptyString ->
  fallbackFormat config = d.
Proof.
  intros Hd Hin Hne. unfold fallbackFormat.
  rewrite Hd, (proj2 (includes_true _ _) Hin), (proj2 (truthy_nonempty d) Hne). reflexivity.
Qed.

Lemma fallbackFormat_first config :
  (forall d, defaultSaveFormat config = Some d -> d ∈ allowedFormats config ->
     d = EmptyString) ->
  fallbackFormat config = firstAllowedOrMd (allowedFormats config).
Proof.
  intros Hno. unfold fallbackFormat. destruct (defaultSaveFormat config) as [d|]; [| reflexivity].
  destruct (JsString.truthy d) eqn:Ht; [| reflexivity].
  destruct (includes (allowedFormats config) d) eqn:Hin; [| reflexivity].
  apply includes_true in Hin. rewrite (Hno d eq_refl Hin) in Ht. discriminate.
Qed.

(** The two resolvers are one function of the candidate format. *)
Lemma formatToSave_selectedFormat config stored :
  formatToSave config stored = selectedFormat config stored.
Proof.
  unfold formatToSave, selectedFormat. destruct stored as [f|]; [| reflexivity].
  destruct (JsString.truthy f) eqn:Ht, (includes (allowedFormats config) f) eqn:Hi;
    simpl; rewrite ?Ht; reflexivity.
Qed.

(** Whether a candidate can be used as it is, whether the configured
    default can, and whether the list starts with a non-empty name. *)
Lemma usable_dec (allowed : list string) (o : option string) :
  (exists f, o = Some f /\ f ∈ allowed /\ f <> EmptyString)
  \/ (forall f, o = Some f -> f ∈ allowed -> f = EmptyString).
Proof.
  destruct o as [f|]; [| right; intros f [=]].
  destruct (decide (f ∈ allowed)) as [Hin|Hout];
    [| right; intros f' [= <-] Hin; contradiction].
  destruct (decide (f = EmptyString)) as [He|Hne];
    [right; intros f' [= <-] _; exact He | left; eauto].
Qed.

Lemma head_dec (allowed : list string) :
  (exists f rest, allowed = f :: rest /\ f <> EmptyString)
  \/ (forall f rest, allowed = f :: rest -> f = EmptyString).
Proof.
  destruct allowed as [|f rest]; [right; intros f rest [=] |].
  destruct (decide (f = EmptyString)) as [He|Hne];
    [right; intros f' rest' [= <- _]; exact He | left; eauto].
Qed.

Lemma head_member (f : string) rest : f ∈ f :: rest.
Proof. apply list_elem_of_here. Qed.

(** C6, as the code has it. A requested format that is on the configured
    list of allowed formats and is not the empty name is used as it is;
    otherwise the configured default is used when it is on the list and
    not empty; otherwise the first format of the list when that is not
    empty; otherwise ["md"], in particular whenever the list is empty.
    So the selected format is on the list exactly when one of the first
    three cases applies or ["md"] is on the list, and always when the list
    starts with a non-empty name. The auto-save handler resolves the
    stored setting by the same function, and the export keeps what it
    resolved. *)
Theorem selected_format_is_allowed
    (config : Config) (format stored : option string) :
  let allowed := allowedFormats config in
  let requested :=
    exists f, format = Some f /\ f ∈ allowed /\ f <> EmptyString in
  let configured :=
    exists d, defaultSaveFormat config = Some d /\ d ∈ allowed /\ d <> EmptyString in
  let first := exists f rest, allowed = f :: rest /\ f <> EmptyString in
  (forall f, format = Some f -> f ∈ allowed -> f <> EmptyString ->
     selectedFormat config format = f)
  /\ (~ requested ->
      forall d, defaultSaveFormat config = Some d -> d ∈ allowed -> d <> EmptyString ->
        selectedFormat config format = d)
  /\ (~ requested -> ~ configured ->
      forall f rest, allowed = f :: rest -> f <> EmptyString ->
        selectedFormat config format = f)
  /\ (~ requested -> ~ configured -> ~ first -> selectedFormat config format = "md")
  /\ (allowed = [] ->
      selectedFormat config format = "md" /\ formatToSave config stored = "md")
  /\ (selectedFormat config format ∈ allowed
      <-> requested \/ configured \/ first \/ "md" ∈ allowed)
  /\ (first ->
      selectedFormat config format ∈ allowed /\ formatToSave config stored ∈ allowed)
  /\ formatToSave config stored = selectedFormat config stored
  /\ selectedFormat config (Some (formatToSave config stored))
     = formatToSave config stored.
Proof.
  intros allowed requested configured first.
  assert (Hreq : ~ requested ->
            forall fmt, fmt = format ->
            selectedFormat config fmt = fallbackFormat config).
  { intros Hno fmt ->. apply selectedFormat_fallback. intros f Hf Hin.
    destruct (decide (f = EmptyString)) as [He|Hne]; [exact He |].
    exfalso. apply Hno. exists f. auto. }
  assert (Hconf : ~ configured ->
            fallbackFormat config = firstAllowedOrMd allowed).
  { intros Hno. apply fallbackFormat_first. intros d Hd Hin.
    destruct (decide (d = EmptyString)) as [He|Hne]; [exact He |].
    exfalso. apply Hno. exists d. auto. }
  assert (Hfirst : forall f rest, allowed = f :: rest -> f <> EmptyString ->
            firstAllowedOrMd allowed = f).
  { intros f rest -> Hne. simpl. unfold JsString.or_else.
    now rewrite (proj2 (truthy_nonempty f) Hne). }
  assert (Hmd : ~ first -> firstAllowedOrMd allowed = "md").
  { intros Hno. destruct allowed as [|f rest] eqn:Hal; [reflexivity |].
    simpl. unfold JsString.or_else. destruct (JsString.truthy f) eqn:Ht; [| reflexivity].
    exfalso. apply Hno. exists f, rest. split; [reflexivity |]. now apply truthy_nonempty. }
  assert (Hnil : forall fmt, allowed = [] -> selectedFormat config fmt = "md").
  { intros fmt Hal. rewrite selectedFormat_fallback.
    - rewrite fallbackFormat_first.
      + fold allowed. now rewrite Hal.
      + intros d _ Hin. fold allowed in Hin. rewrite Hal in Hin. inversion Hin.
    - intros f _ Hin. fold allowed in Hin. rewrite Hal in Hin. inversion Hin. }
  assert (Hmem : forall fmt,
            (exists f, fmt = Some f /\ f ∈ allowed /\ f <> EmptyString)
            \/ configured \/ first \/ "md" ∈ allowed ->
            selectedFormat config fmt ∈ allowed).
  { intros fmt Hcase.
    destruct (usable_dec allowed fmt) as [(f & -> & Hin & Hne)|Hnoreq].
    { now rewrite selectedFormat_as_is. }
    rewrite (selectedFormat_fallback config fmt Hnoreq).
    destruct (usable_dec allowed (defaultSaveFormat config)) as [(d & Hd & Hin & Hne)|Hnoconf].
    { now rewrite (fallbackFormat_default config d Hd Hin Hne). }
    rewrite (fallbackFormat_first config Hnoconf). fold allowed.
    destruct (head_dec allowed) as [(f & rest & Hal & Hne)|Hnofirst].
    { rewrite (Hfirst f rest Hal Hne), Hal. apply head_member. }
    rewrite Hmd.
    2:{ intros (f & rest & Hal & Hne). now apply Hne, (Hnofirst f rest). }
    destruct Hcase as [(f & -> & Hin & Hne)|[(d & Hd & Hin & Hne)|[(f & rest & Hal & Hne)|Hin]]].
    - exfalso. now apply Hne, (Hnoreq f).
    - exfalso. now apply Hne, (Hnoconf d).
    - exfalso. now apply Hne, (Hnofirst f rest).
    - exact Hin. }
  split; [intros f -> Hin Hne; now apply selectedFormat_as_is |].
  split.
  { intros Hno d Hd Hin Hne. rewrite (Hreq Hno format eq_refl).
    now apply fallbackFormat_default. }
  split.
  { intros Hno Hnoconf f rest Hal Hne.
    rewrite (Hreq Hno format eq_refl), (Hconf Hnoconf). now apply (Hfirst f rest). }
  split.
  { intros Hno Hnoconf Hnofirst.
    rewrite (Hreq Hno format eq_refl), (Hconf Hnoconf). now apply Hmd. }
  split.
  { intros Hal. split; [now apply Hnil |].
    rewrite formatToSave_selectedFormat. now apply Hnil. }
  split.
  { split; [| apply Hmem].
    intros Hin.
    destruct (usable_dec allowed format) as [Hr|Hnoreq]; [now left |].
    destruct (usable_dec allowed (defaultSaveFormat config)) as [Hc|Hnoconf];
      [right; now left |].
    destruct (head_dec allowed) as [Hf|Hnofirst]; [right; right; now left |].
    right. right. right.
    rewrite (selectedFormat_fallback config format Hnoreq),
      (fallbackFormat_first config Hnoconf) in Hin. fold allowed in Hin.
    rewrite Hmd in Hin; [exact Hin |].
    intros (f & rest & Hal & Hne). now apply Hne, (Hnofirst f rest). }
  split.
  { intros Hf. split; [apply Hmem; auto |].
    rewrite formatToSave_selectedFormat. apply Hmem. auto. }
  split; [apply formatToSave_selectedFormat |].
  rewrite formatToSave_selectedFormat.
  destruct (usable_dec allowed stored) as [(f & -> & Hin & Hne)|Hnoreq].
  { rewrite (selectedFormat_as_is config f Hin Hne). now apply selectedFormat_as_is. }
  rewrite (selectedFormat_fallback config stored Hnoreq).
  destruct (usable_dec allowed (Some (fallbackFormat config))) as [(f & [= <-] & Hin & Hne)|Hno].
  { now apply selectedFormat_as_is. }
  now apply selectedFormat_fallback.
Qed.

(** The theorem for the shipped pair of formats, a request for a format
    that is not on the list, and a configured default that is. *)
Lemma selected_format_witness :
  selectedFormat (mkConfig (Some ["md"; "txt"]) (Some "txt") None) (Some "pdf") = "txt"
  /\ selectedFormat (mkConfig (Some ["md"; "txt"]) (Some "txt") None) (Some "pdf")
     ∈ allowedFormats (mkConfig (Some ["md"; "txt"]) (Some "txt") None).
Proof.
  destruct (selected_format_is_allowed
              (mkConfig (Some ["md"; "txt"]) (Some "txt") None) (Some "pdf") None)
    as (_ & Hdefault & _ & _ & _ & _ & Hfirst & _).
  split.
  - apply Hdefault.
    + intros (f & [= <-] & Hin & _).
      apply elem_of_cons in Hin as [Hin|Hin]; [discriminate |].
      apply elem_of_cons in Hin as [Hin|Hin]; [discriminate |].
      inversion Hin.
    + reflexivity.
    + simpl. apply list_elem_of_further, list_elem_of_here.
    + discriminate.
  - apply Hfirst. exists "md", ["txt"]. split; [reflexivity | discriminate].
Defined.

(** C6 as worded fails: a configuration whose list of allowed formats is
    empty makes both resolvers select ["md"], which is not on the list. *)
Lemma selected_format_outside_empty_list :
  selectedFormat (mkConfig (Some []) None None) (Some "txt") = "md"
  /\ formatToSave (mkConfig (Some []) None None) (Some "txt") = "md"
  /\ selectedFormat (mkConfig (Some []) None None) (Some "txt")
     ∉ allowedFormats (mkConfig (Some []) None None).
Proof.
  split; [reflexivity |]. split; [reflexivity |].
  simpl. apply not_elem_of_nil.
Qed.

(** The empty name is on the list and is requested, and is not used as it
    is: the resolver takes the first format of the list. *)
Example empty_format_name_is_not_used_as_it_is :
  EmptyString ∈ allowedFormats (mkConfig (Some ["txt"; EmptyString]) None None)
  /\ selectedFormat (mkConfig (Some ["txt"; EmptyString]) None None) (Some EmptyString)
     = "txt".
Proof.
  split; [| reflexivity]. simpl. apply list_elem_of_further, list_elem_of_here.
Qed.

(** A list that starts with the empty name and does not hold ["md"]: with
    no usable request and no configured default the resolver selects
    ["md"], which is not on the list. *)
Example blank_first_format_selects_md :
  selectedFormat (mkConfig (Some [EmptyString; "txt"]) None None) (Some "pdf") = "md"
  /\ selectedFormat (mkConfig (Some [EmptyString; "txt"]) None None) (Some "pdf")
     ∉ allowedFormats (mkConfig (Some [EmptyString; "txt"]) None None).
Proof.
  split; [reflexivity |]. simpl. intros Hin.
  apply elem_of_cons in Hin as [Hin|Hin]; [discriminate |].
  apply elem_of_cons in Hin as [Hin|Hin]; [discriminate |].
  inversion Hin.
Qed.

End ExporterFacts.

(** ** Handlers in flight *)

Module HandlerFacts.
Import Handlers.

Section Pool.
Context {state message task : Type}.
Variable spawn : message -> task.
Variable segment : task -> state -> state * option task.
Variable restart : state -> state.

Lemma run_events_app (events1 events2 : list (event message)) (w : world state task) :
  run spawn segment restart (events1 ++ events2) w
  = run spawn segment restart events2 (run spawn segment restart events1 w).
Proof. unfold run. apply foldl_app. Qed.

Lemma run_snoc (events : list (event message)) e (w : world state task) :
  run spawn segment restart (events ++ [e]) w
  = step spawn segment restart (run spawn segment restart events w) e.
Proof. now rewrite run_events_app. Qed.

(** With no handler in flight there is nothing to resume. *)
Lemma resume_idle n (st : state) :
  run spawn segment restart (replicate n (Resume 0)) (idle st) = idle st.
Proof. induction n as [|n IH]; [reflexivity | exact IH]. Qed.

(** One handler in flight, resumed [n] times. *)
Lemma resume_alone n (t : task) (st : state) :
  run spawn segment restart (replicate n (Resume 0)) (mkWorld st [t])
  = mkWorld (drive segment n t st).1 (option_list (drive segment n t st).2).
Proof.
  revert t st. induction n as [|n IH]; intros t st; [reflexivity |].
  change (run spawn segment restart (replicate (S n) (Resume 0)) (mkWorld st [t]))
    with (run spawn segment restart (replicate n (Resume 0))
            (step spawn segment restart (mkWorld st [t]) (Resume 0))).
  simpl. destruct (segment t st) as [st' [t'|]]; simpl.
  - apply IH.
  - apply resume_idle.
Qed.

(** A handler that runs alone and ends within [n] segments leaves no
    handler in flight. *)
Lemma run_alone n (msg : message) (st st' : state) :
  drive segment n (spawn msg) st = (st', None) ->
  run spawn segment restart (alone n msg) (idle st) = idle st'.
Proof.
  intros Hdrive. unfold alone.
  change (run spawn segment restart (Arrive msg :: replicate n (Resume 0)) (idle st))
    with (run spawn segment restart (replicate n (Resume 0)) (mkWorld st [spawn msg])).
  now rewrite resume_alone, Hdrive.
Qed.

(** Handlers that run one by one compose as functions of the state. *)
Lemma run_oneByOne (n : message -> nat) (whole : message -> state -> state)
    (msgs : list message) (st : state) :
  (forall msg st, drive segment (n msg) (spawn msg) st = (whole msg st, None)) ->
  run spawn segment restart (msgs ≫= fun msg => alone (n msg) msg) (idle st)
  = idle (foldl (fun st msg => whole msg st) st msgs).
Proof.
  intros Hwhole. revert st. induction msgs as [|msg msgs IH]; intros st; [reflexivity |].
  rewrite bind_cons, run_events_app, (run_alone _ _ _ _ (Hwhole msg st)). apply IH.
Qed.

End Pool.

End HandlerFacts.

(** ** Screenshot buffer *)

Module ScreenshotFacts.
Import Screenshots ScreenshotHandlers.

#[local] Arguments storeScreenshotForMeeting : simpl never.






Lemma store_rejected meetingId screenshot st :
  accepted meetingId screenshot = false ->
  storeScreenshotForMeeting meetingId screenshot st = st.
Proof.
  intros Hacc. unfold storeScreenshotForMeeting.
  destruct screenshot as [shot|]; [| reflexivity]. now rewrite Hacc.
Qed.



Lemma loadBuffer_cached meetingId st buffer :
  screenshotBuffers st !! meetingId = Some buffer -> loadBuffer meetingId st = buffer.
Proof. unfold loadBuffer. now intros ->. Qed.

Lemma loadBuffer_agree meetingId st1 st2 :
  screenshotBuffers st1 !! meetingId = screenshotBuffers st2 !! meetingId ->
  local st1 !! getScreenshotStorageKey meetingId
    = local st2 !! getScreenshotStorageKey meetingId ->
  loadBuffer meetingId st1 = loadBuffer meetingId st2.
Proof. unfold loadBuffer. now intros -> ->. Qed.

(** *** The handlers cut at their awaits *)
















(** C3 fails when two handlers overlap. Two accepted [store_screenshot]
    messages for one meeting reach a worker whose cache has no buffer for
    it; both handlers miss the cache and ask the store before either has
    written: each appends its frame to the empty answer, and the second
    write replaces the first. The buffer holds the second frame only,
    where two frames were appended and twenty fit. Handled one after the
    other, the same messages leave both frames. *)
Theorem overlapping_stores_lose_a_frame :
  let first := mkShot (Some "data:image/png;base64,AAAA") (Some 1700000000000%Z) in
  let second := mkShot (Some "data:image/png;base64,BBBB") (Some 1700000005000%Z) in
  let arrivals :=
    [Handlers.Arrive (store_screenshot "meeting-1" (Some first));
     Handlers.Arrive (store_screenshot "meeting-1" (Some second))] in
  let overlapped :=
    arrivals ++ [Handlers.Resume 0; Handlers.Resume 1; Handlers.Resume 0; Handlers.Resume 0] in
  let oneByOne :=
    Handlers.alone 2 (store_screenshot "meeting-1" (Some first))
    ++ Handlers.alone 2 (store_screenshot "meeting-1" (Some second)) in
  sent "meeting-1" overlapped = [first; second]
  /\ Handlers.inFlight (run overlapped start) = []
  /\ screenshotBuffers (Handlers.shared (run overlapped start)) !! "meeting-1"
     = Some [second]
  /\ local (Handlers.shared (run overlapped start)) !! getScreenshotStorageKey "meeting-1"
     = Some (StoredScreenshots [second])
  /\ loadBuffer "meeting-1" (Handlers.shared (run overlapped start)) = [second]
  /\ loadBuffer "meeting-1" (Handlers.shared (run oneByOne start)) = [first; second].
Proof. vm_compute. repeat split; reflexivity. Qed.

(** C10. [storeScreenshotForMeeting] changes neither the cache nor the
    store when the meeting id is empty, when the frame or its image payload
    is missing or empty, or when the frame has no timestamp or a timestamp
    that is falsy; a frame whose timestamp is the number 0 is among them. *)
Theorem invalid_screenshot_is_ignored
    (meetingId : string) (screenshot : option Screenshot) (st : state) :
  meetingId = EmptyString
  \/ (forall shot, screenshot = Some shot ->
        dataUrl shot = None \/ dataUrl shot = Some EmptyString)
  \/ (forall shot, screenshot = Some shot ->
        timestamp shot = None \/ timestamp shot = Some 0%Z) ->
  storeScreenshotForMeeting meetingId screenshot st = st.
Proof.
  intros Hbad. apply store_rejected. unfold accepted.
  destruct Hbad as [-> | [Hurl | Hts]]; [reflexivity | |].
  - destruct screenshot as [shot|]; [| apply andb_false_r].
    destruct (Hurl shot eq_refl) as [-> | ->]; simpl; apply andb_false_r.
  - destruct screenshot as [shot|]; [| apply andb_false_r].
    destruct (Hts shot eq_refl) as [-> | ->]; simpl; rewrite !andb_false_r; reflexivity.
Qed.

(** The theorem for a frame that carries an image and the timestamp 0,
    sent for a meeting that already has a frame. *)
Lemma zero_timestamp_frame_is_dropped :
  let st :=
    storeScreenshotForMeeting "meeting-1"
      (Some (mkShot (Some "data:image/png;base64,AAAA") (Some 1700000000000%Z)))
      initial in
  storeScreenshotForMeeting "meeting-1"
    (Some (mkShot (Some "data:image/png;base64,BBBB") (Some 0%Z))) st = st.
Proof.
  intros st.
  apply (invalid_screenshot_is_ignored "meeting-1"
           (Some (mkShot (Some "data:image/png;base64,BBBB") (Some 0%Z))) st).
  right. right. intros shot [= <-]. right. reflexivity.
Defined.

End ScreenshotFacts.

(** ** Auto-save guard *)

Module AutoSaveFacts.
Import AutoSave.

Section WithHost.
Context `{Host}.

Lemma run_app w events1 events2 :
  run w (events1 ++ events2) =
  let '(w1, os1) := run w events1 in
  let '(w2, os2) := run w1 events2 in
  (w2, os1 ++ os2).
Proof.
  revert w. induction events1 as [|e events1 IH]; intros w; simpl.
  - now destruct (run w events2).
  - destruct (step w e) as [w1 o]. rewrite IH.
    destruct (run w1 events1) as [w2 os1]. now destruct (run w2 events2).
Qed.

Lemma run_cons w e events :
  run w (e :: events) =
  let '(w1, o) := step w e in
  let '(w2, os) := run w1 events in
  (w2, o :: os).
Proof. reflexivity. Qed.

(** A request that finds a save in progress is dropped and changes nothing. *)
Lemma request_in_progress w m :
  autoSaveInProgress (guardOf w) = true -> step w (Request m) = (w, Dropped).
Proof. intros Hp. unfold step, accept. now rewrite Hp. Qed.

(** A request for the key the guard holds is dropped and changes nothing. *)
Lemma request_remembered w m :
  lastAutoSaveId (guardOf w) = Some (saveId m) -> step w (Request m) = (w, Dropped).
Proof.
  intros Hk. unfold step, accept.
  rewrite (bool_decide_eq_true_2 _ Hk), orb_true_r. reflexivity.
Qed.

Lemma requests_in_progress w events :
  autoSaveInProgress (guardOf w) = true -> Forall isRequest events ->
  run w events = (w, replicate (List.length events) Dropped).
Proof.
  intros Hp Hall. induction Hall as [|e events He _ IH]; [reflexivity |].
  destruct e as [m| |]; try contradiction.
  rewrite run_cons, (request_in_progress w m Hp), IH. reflexivity.
Qed.

Lemma requests_remembered w k events :
  lastAutoSaveId (guardOf w) = Some k -> Forall (requestFor k) events ->
  run w events = (w, replicate (List.length events) Dropped).
Proof.
  intros Hk Hall. induction Hall as [|e events He _ IH]; [reflexivity |].
  destruct e as [m| |]; try contradiction. simpl in He.
  rewrite run_cons, (request_remembered w m) by congruence. rewrite IH. reflexivity.
Qed.

(** An admitted request marks the save as in progress under its key. *)
Lemma request_accepted w m :
  accept m (guardOf w) <> None ->
  step w (Request m) =
  ({| guardOf := {| lastAutoSaveId := Some (saveId m); autoSaveInProgress := true |};
      downloads := downloads w |}, Accepted).
Proof.
  unfold step, accept.
  destruct (autoSaveInProgress (guardOf w) || bool_decide _); [congruence | reflexivity].
Qed.

Lemma accept_idle m k :
  k <> Some (saveId m) ->
  accept m {| lastAutoSaveId := k; autoSaveInProgress := false |} <> None.
Proof.
  intros Hk. unfold accept. simpl. rewrite bool_decide_eq_false_2 by exact Hk. discriminate.
Qed.

(** One save from its admission to its completion, with the requests
    that arrive in between. *)
Lemma run_one_save w0 m env during :
  accept m (guardOf w0) <> None ->
  Forall isRequest during ->
  run w0 (Request m :: during ++ [Complete m env]) =
  ({| guardOf :=
        settle (body m env)
          {| lastAutoSaveId := Some (saveId m); autoSaveInProgress := true |};
      downloads :=
        downloads w0 ++ match body m env with Saved d => [d] | _ => [] end |},
   Accepted :: replicate (List.length during) Dropped ++ [Finished (body m env)]).
Proof.
  intros Hadm Hduring.
  rewrite run_cons, (request_accepted w0 m Hadm), run_app.
  rewrite requests_in_progress by (reflexivity || assumption).
  reflexivity.
Qed.

(** C2, as the code has it. A request that the guard admits is answered
    [Accepted]; every request that arrives while its save is in progress is
    dropped, whatever its key. When the save ends without an exception the
    guard is idle and holds the key, and the requests for that key that
    follow are all dropped; the guard holds one key only, so this lasts
    until a request for another key is admitted or the guard is reset. When
    the save ends with an exception the guard is idle with no key, and the
    next request for the same key is admitted. *)
Theorem guard_drops_duplicates_of_the_last_key
    (w0 : worker) (m : LeaveMessage) (env : LeaveEnv) (during later : list event) :
  accept m (guardOf w0) <> None ->
  Forall isRequest during ->
  Forall (requestFor (saveId m)) later ->
  let served := run w0 (Request m :: during ++ [Complete m env]) in
  let after := run served.1 later in
  served.2 = Accepted :: replicate (List.length during) Dropped ++ [Finished (body m env)]
  /\ (body m env <> Threw ->
      guardOf served.1
        = {| lastAutoSaveId := Some (saveId m); autoSaveInProgress := false |}
      /\ after = (served.1, replicate (List.length later) Dropped))
  /\ (body m env = Threw ->
      guardOf served.1 = idle
      /\ forall m' rest, later = Request m' :: rest ->
           after.2 = Accepted :: replicate (List.length rest) Dropped).
Proof.
  intros Hadm Hduring Hlater served after. subst after served.
  rewrite (run_one_save w0 m env during Hadm Hduring). simpl fst. simpl snd.
  split; [reflexivity |]. split.
  - intros Hok.
    assert (Hg : settle (body m env)
                   {| lastAutoSaveId := Some (saveId m); autoSaveInProgress := true |}
                 = {| lastAutoSaveId := Some (saveId m); autoSaveInProgress := false |}).
    { unfold settle. destruct (body m env); [congruence | reflexivity | reflexivity]. }
    rewrite Hg. split; [reflexivity |].
    apply (requests_remembered _ (saveId m)); [reflexivity | exact Hlater].
  - intros Hthrew. rewrite Hthrew. split; [reflexivity |].
    intros m' rest ->. inversion Hlater as [|? ? Hm' Hrest]; subst.
    rewrite run_cons, request_accepted by (apply accept_idle; discriminate).
    rewrite requests_in_progress; [reflexivity | reflexivity |].
    eapply Forall_impl; [exact Hrest |]. intros [| |]; simpl; tauto.
Qed.

(** C9, as the code has it. When an admitted request finds the auto-save
    setting off or the transcript empty, its handler ends without an export
    and without an exception: nothing is downloaded, the guard is idle and
    still holds the meeting key, and the requests for that key that follow
    are all dropped; the guard holds one key only, so this lasts until a
    request for another key is admitted or the guard is reset. *)
Theorem skipped_save_still_blocks_the_key
    (w0 : worker) (m : LeaveMessage) (env : LeaveEnv) (settings : Settings)
    (later : list event) :
  accept m (guardOf w0) <> None ->
  settingsRead env = Some settings ->
  autoSaveOnEnd settings = false \/ transcriptArray m = [] ->
  Forall (requestFor (saveId m)) later ->
  let served := run w0 [Request m; Complete m env] in
  served.2 = [Accepted; Finished Skipped]
  /\ downloads served.1 = downloads w0
  /\ guardOf served.1
     = {| lastAutoSaveId := Some (saveId m); autoSaveInProgress := false |}
  /\ run served.1 later = (served.1, replicate (List.length later) Dropped).
Proof.
  intros Hadm Hset Hskip Hlater served.
  assert (Hbody : body m env = Skipped).
  { unfold body. rewrite Hset. destruct Hskip as [-> | ->]; [reflexivity |].
    simpl. now rewrite andb_false_r. }
  subst served.
  pose proof (run_one_save w0 m env [] Hadm (List.Forall_nil _)) as Hrun.
  simpl app in Hrun. rewrite Hrun, Hbody. simpl.
  split; [reflexivity |]. split; [apply app_nil_r |]. split; [reflexivity |].
  apply (requests_remembered _ (saveId m)); [reflexivity | exact Hlater].
Qed.

End WithHost.

(** The theorem for a save that succeeds, a duplicate sent while it runs,
    and two more duplicates sent afterwards. *)
Lemma guard_witness :
  let served :=
    run (H := plainHost) start
      (Request standup :: [Request retro] ++ [Complete standup autoSaveOn]) in
  served.2 = [Accepted; Dropped; Finished (body (H := plainHost) standup autoSaveOn)]
  /\ run (H := plainHost) served.1 [Request standup; Request standup]
     = (served.1, [Dropped; Dropped]).
Proof.
  intros served.
  destruct (guard_drops_duplicates_of_the_last_key (H := plainHost)
              start standup autoSaveOn [Request retro]
              [Request standup; Request standup])
    as [Hobs [Hok _]].
  - discriminate.
  - repeat constructor.
  - repeat constructor.
  - split; [exact Hobs |]. apply Hok. discriminate.
Defined.

(** C2 as worded fails: the guard remembers one key. After the save for one
    meeting succeeded and a save for another meeting was admitted, a request
    for the first meeting is admitted again and a second file is written for
    it. *)
Lemma guard_forgets_an_earlier_key :
  let result :=
    run (H := plainHost) start
      [Request standup; Complete standup autoSaveOn;
       Request retro; Complete retro autoSaveOn;
       Request standup; Complete standup autoSaveOn] in
  result.2 !! 1%nat = Some (Finished (body (H := plainHost) standup autoSaveOn))
  /\ body (H := plainHost) standup autoSaveOn <> Threw
  /\ result.2 !! 4%nat = Some Accepted
  /\ List.length (downloads result.1) = 3%nat.
Proof. repeat split; try reflexivity. discriminate. Qed.

(** The theorem for a meeting that ends while auto-save is switched off,
    and one more request for it. *)
Lemma skipped_save_witness :
  let served := run (H := plainHost) start [Request standup; Complete standup autoSaveOff] in
  served.2 = [Accepted; Finished Skipped]
  /\ downloads served.1 = []
  /\ run (H := plainHost) served.1 [Request standup] = (served.1, [Dropped]).
Proof.
  intros served.
  destruct (skipped_save_still_blocks_the_key (H := plainHost)
              start standup autoSaveOff (mkSettings false (Some "txt"))
              [Request standup])
    as [Hobs [Hdl [_ Hlater]]].
  - discriminate.
  - reflexivity.
  - left. reflexivity.
  - repeat constructor.
  - split; [exact Hobs |]. split; [exact Hdl | exact Hlater].
Defined.

(** C9 as worded fails: after a skipped save for one meeting and a request
    for another meeting, a request for the first meeting is admitted, and
    its file is written. *)
Lemma skipped_key_is_forgotten_after_another_meeting :
  let result :=
    run (H := plainHost) start
      [Request standup; Complete standup autoSaveOff;
       Request retro; Complete retro autoSaveOff;
       Request standup; Complete standup autoSaveOn] in
  result.2 !! 1%nat = Some (Finished Skipped)
  /\ result.2 !! 4%nat = Some Accepted
  /\ List.length (downloads result.1) = 1%nat.
Proof. repeat split; reflexivity. Qed.

End AutoSaveFacts.

(** ** Storage keys of the session archive *)

Module KeyFacts.
Import JsString SessionArchive.

Lemma string_of_uint_digits d :
  all_chars is_digit (NilEmpty.string_of_uint d) = true.
Proof.
  induction d as [| d IH | d IH | d IH | d IH | d IH | d IH | d IH | d IH | d IH | d IH];
    [reflexivity | ..];
    simpl; rewrite IH; reflexivity.
Qed.

Lemma decimal_digits n : all_chars is_digit (decimal n) = true.
Proof.
  unfold decimal, NilZero.string_of_uint.
  destruct (N.to_uint n); try apply (string_of_uint_digits (_ _)). reflexivity.
Qed.

Lemma to_uint_nonnil n : N.to_uint n <> Decimal.Nil.
Proof.
  destruct n as [|p]; [discriminate |]. apply DecimalPos.Unsigned.to_uint_nonnil.
Qed.



Lemma chunkKey_unfold c i :
  chunkKey (sessionIdOf c) i
  = "session_" +:+ decimal (now c) +:+ "_chunk_" +:+ decimal (N.of_nat i).
Proof. unfold chunkKey, sessionIdOf. now rewrite JsStringFacts.app_assoc. Qed.

Lemma attendeesKey_unfold c :
  attendeesKey (sessionIdOf c) = "session_" +:+ decimal (now c) +:+ "_attendees".
Proof. unfold attendeesKey, sessionIdOf. now rewrite JsStringFacts.app_assoc. Qed.




Lemma decimal_first_digit n rest :
  exists c tail, decimal n +:+ rest = String c tail /\ is_digit c = true.
Proof.
  pose proof (decimal_digits n) as Hd.
  assert (Hne : decimal n <> EmptyString).
  { unfold decimal, NilZero.string_of_uint.
    pose proof (to_uint_nonnil n). destruct (N.to_uint n); simpl; congruence. }
  destruct (decimal n) as [|c tail]; [congruence |].
  simpl in Hd. apply andb_true_iff in Hd as [Hc _].
  exists c, (tail +:+ rest). split; [reflexivity | exact Hc].
Qed.

Lemma chunkKey_not_index c i : chunkKey (sessionIdOf c) i <> SESSION_INDEX.
Proof.
  rewrite chunkKey_unfold. unfold SESSION_INDEX.
  change "session_index" with ("session_" +:+ "index").
  intros Heq. apply String.app_inj in Heq.
  destruct (decimal_first_digit (now c) ("_chunk_" +:+ decimal (N.of_nat i)))
    as [x [tail [Hx Hd]]].
  rewrite Hx in Heq. injection Heq as -> _. discriminate.
Qed.

Lemma attendeesKey_not_index c : attendeesKey (sessionIdOf c) <> SESSION_INDEX.
Proof.
  rewrite attendeesKey_unfold. unfold SESSION_INDEX.
  change "session_index" with ("session_" +:+ "index").
  intros Heq. apply String.app_inj in Heq.
  destruct (decimal_first_digit (now c) "_attendees") as [x [tail [Hx Hd]]].
  rewrite Hx in Heq. injection Heq as -> _. discriminate.
Qed.

End KeyFacts.

(** ** Session archive *)

Module ArchiveFacts.
Import Archive SessionArchive SaveHandlers KeyFacts.

(** The loop of [chunkArray] leaves by its own test: the chunks put
    together are the array. *)
Lemma chunkLoop_concat {A} (array : list A) chunkSize fuel i chunks :
  (1 <= chunkSize)%nat -> (List.length array - i <= fuel)%nat ->
  concat chunks = take i array ->
  concat (chunkLoop fuel i array chunkSize chunks) = array.
Proof.
  intros Hsize. revert i chunks.
  induction fuel as [|fuel IH]; intros i chunks Hfuel Hacc; simpl.
  - rewrite Hacc. apply take_ge. lia.
  - destruct (i <? List.length array)%nat eqn:Hi.
    + apply Nat.ltb_lt in Hi. apply IH; [lia |].
      rewrite concat_app, Hacc. simpl. rewrite app_nil_r. unfold slice.
      replace (i + chunkSize - i)%nat with chunkSize by lia.
      apply take_take_drop.
    + apply Nat.ltb_ge in Hi. rewrite Hacc. apply take_ge. lia.
Qed.


(** *** The store after the writes and the removal *)


Lemma writeChunks_other sessionId i0 chunks (st : storage) k :
  (forall j, k <> chunkKey sessionId j) ->
  writeChunks sessionId i0 chunks st !! k = st !! k.
Proof.
  intros Hk. revert i0 st. induction chunks as [|c chunks IH]; intros i0 st; simpl.
  - reflexivity.
  - rewrite IH. apply lookup_insert_ne. intros Heq. apply (Hk i0). now symmetry.
Qed.

Lemma removeKeys_lookup keys (st : storage) k :
  removeKeys keys st !! k = if decide (k ∈ keys) then None else st !! k.
Proof.
  induction keys as [|x keys IH].
  - destruct (decide (k ∈ [])) as [Hin|_]; [| reflexivity].
    now apply not_elem_of_nil in Hin.
  - change (removeKeys (x :: keys) st) with (delete x (removeKeys keys st)).
    destruct (decide (x = k)) as [->|Hne].
    + rewrite lookup_delete_eq.
      destruct (decide (k ∈ k :: keys)) as [_|Hout]; [reflexivity |].
      exfalso. apply Hout, list_elem_of_here.
    + rewrite lookup_delete_ne by exact Hne. rewrite IH.
      destruct (decide (k ∈ keys)) as [Hin|Hout];
        destruct (decide (k ∈ x :: keys)) as [Hin'|Hout']; try reflexivity.
      * exfalso. apply Hout'. now apply list_elem_of_further.
      * apply elem_of_cons in Hin' as [->|Hin']; [congruence | contradiction].
Qed.

(** *** The sort *)

Lemma insertNewestFirst_perm x sorted : insertNewestFirst x sorted ≡ₚ x :: sorted.
Proof.
  induction sorted as [|y rest IH]; simpl; [reflexivity |].
  destruct (timestamp y <=? timestamp x)%N; [reflexivity |].
  rewrite IH. apply Permutation_swap.
Qed.

Lemma sortNewestFirst_perm index : sortNewestFirst index ≡ₚ index.
Proof.
  induction index as [|x index IH]; simpl; [reflexivity |].
  now rewrite insertNewestFirst_perm, IH.
Qed.

(** *** The keys of a session *)

Lemma elem_of_chunk_keys sessionId n k :
  k ∈ chunkKey sessionId <$> seq 0 n <-> exists j, (j < n)%nat /\ k = chunkKey sessionId j.
Proof.
  rewrite list_elem_of_fmap. split.
  - intros [j [-> Hj]]. apply elem_of_seq in Hj. exists j. split; [lia | reflexivity].
  - intros [j [Hj ->]]. exists j. split; [reflexivity |]. apply elem_of_seq. lia.
Qed.

Section WithHost.
Context `{Host}.

Lemma keysToDelete_metadata c m :
  keysToDelete (metadataOf c m) =
  (chunkKey (sessionIdOf c)
     <$> seq 0 (List.length (chunkArray (transcriptArray m) CHUNK_SIZE)))
  ++ [attendeesKey (sessionIdOf c)].
Proof. reflexivity. Qed.


Lemma delete_owner c m k :
  k ∈ keysToDelete (metadataOf c m) ->
  (exists i, k = chunkKey (sessionIdOf c) i) \/ k = attendeesKey (sessionIdOf c).
Proof.
  rewrite keysToDelete_metadata, elem_of_app, elem_of_chunk_keys.
  intros [[j [_ ->]] | Hk]; [left; eauto | right].
  now apply list_elem_of_singleton in Hk.
Qed.


Lemma delete_not_index c m : SESSION_INDEX ∉ keysToDelete (metadataOf c m).
Proof.
  intros Hin. destruct (delete_owner _ _ _ Hin) as [[i Hi] | Hi]; symmetry in Hi.
  - now apply chunkKey_not_index in Hi.
  - now apply attendeesKey_not_index in Hi.
Qed.


(** *** One save *)


Lemma persist_index c m (st : storage) :
  persistSession c m st !! SESSION_INDEX = st !! SESSION_INDEX.
Proof.
  unfold persistSession.
  assert (Hw : writeChunks (sessionIdOf c) 0 (chunkArray (transcriptArray m) CHUNK_SIZE) st
               !! SESSION_INDEX = st !! SESSION_INDEX).
  { apply writeChunks_other. intros j Hj. symmetry in Hj.
    now apply chunkKey_not_index in Hj. }
  destruct (attendeeReport m); [| exact Hw].
  rewrite lookup_insert_ne; [exact Hw | apply attendeesKey_not_index].
Qed.

Lemma readIndex_persist c m (st : storage) :
  readIndex (persistSession c m st) = readIndex st.
Proof. unfold readIndex. now rewrite persist_index. Qed.

(** Below the cap the metadata joins the index and nothing is removed. *)
Lemma save_below_cap c m (st : storage) index :
  readIndex st = Some index -> (List.length index < MAX_SESSIONS)%nat ->
  save_session_history c m st =
  <[SESSION_INDEX := StoredIndex (sortNewestFirst (index ++ [metadataOf c m]))]>
    (persistSession c m st).
Proof.
  intros Hread Hlen. unfold save_session_history.
  fold (persistSession c m st). rewrite readIndex_persist, Hread.
  destruct (MAX_SESSIONS <? _)%nat eqn:Hcap; [| reflexivity].
  apply Nat.ltb_lt in Hcap. rewrite length_app in Hcap. simpl in Hcap. lia.
Qed.

(** At the cap the entry at the head of the index goes, with its keys. *)
Lemma save_at_cap c m (st : storage) toDelete index :
  readIndex st = Some (toDelete :: index) ->
  (MAX_SESSIONS <= List.length (toDelete :: index))%nat ->
  save_session_history c m st =
  <[SESSION_INDEX := StoredIndex (sortNewestFirst (index ++ [metadataOf c m]))]>
    (removeKeys (keysToDelete toDelete) (persistSession c m st)).
Proof.
  intros Hread Hlen. unfold save_session_history.
  fold (persistSession c m st). rewrite readIndex_persist, Hread.
  destruct (MAX_SESSIONS <? _)%nat eqn:Hcap; [reflexivity |].
  apply Nat.ltb_ge in Hcap. rewrite length_app in Hcap. simpl in Hcap, Hlen. lia.
Qed.

Lemma indexOf_insert (st : storage) index :
  indexOf (<[SESSION_INDEX := StoredIndex index]> st) = index
  /\ readIndex (<[SESSION_INDEX := StoredIndex index]> st) = Some index.
Proof. unfold indexOf, readIndex. now rewrite lookup_insert_eq. Qed.

(** *** The run of saves *)





(** *** The handler cut at its awaits *)

Lemma segment_chunk c m i chunk (st : storage) :
  chunkArray (transcriptArray m) CHUNK_SIZE !! i = Some chunk ->
  segment (Save c m (Chunks i)) st
  = (<[chunkKey (sessionIdOf c) i := StoredEntries chunk]> st,
     Some (Save c m (Chunks (S i)))).
Proof. intros Hi. unfold segment. now rewrite Hi. Qed.

Lemma segment_chunks_done c m i (st : storage) :
  chunkArray (transcriptArray m) CHUNK_SIZE !! i = None ->
  segment (Save c m (Chunks i)) st
  = match attendeeReport m with
    | Some r =>
        (<[attendeesKey (sessionIdOf c) := StoredAttendees r]> st,
         Some (Save c m Reported))
    | None => (st, Some (Save c m (Read (st !! SESSION_INDEX))))
    end.
Proof. intros Hi. unfold segment. now rewrite Hi. Qed.

(** The segments of the loop write what [writeChunks] writes. *)
Lemma drive_chunks c m rest i n (st : storage) :
  drop i (chunkArray (transcriptArray m) CHUNK_SIZE) = rest ->
  Handlers.drive segment (List.length rest + n) (Save c m (Chunks i)) st
  = Handlers.drive segment n (Save c m (Chunks (i + List.length rest)))
      (writeChunks (sessionIdOf c) i rest st).
Proof.
  revert i st. induction rest as [|chunk rest IH]; intros i st Hdrop.
  - simpl. now rewrite Nat.add_0_r.
  - assert (Hi : chunkArray (transcriptArray m) CHUNK_SIZE !! i = Some chunk).
    { pose proof (lookup_drop (chunkArray (transcriptArray m) CHUNK_SIZE) i 0) as Hl.
      rewrite Hdrop, Nat.add_0_r in Hl. now symmetry. }
    assert (Hrest : drop (S i) (chunkArray (transcriptArray m) CHUNK_SIZE) = rest).
    { replace (S i) with (i + 1)%nat by lia. now rewrite <- drop_drop, Hdrop. }
    change (List.length (chunk :: rest) + n)%nat with (S (List.length rest + n)).
    cbn [Handlers.drive]. rewrite (segment_chunk c m i chunk st Hi).
    rewrite (IH (S i) _ Hrest). simpl. f_equal. f_equal. f_equal. lia.
Qed.

Lemma drive_S n (t : task) (st : storage) :
  Handlers.drive segment (S n) t st
  = match segment t st with
    | (st', Some t') => Handlers.drive segment n t' st'
    | (st', None) => (st', None)
    end.
Proof. reflexivity. Qed.

(** From the read of the index to the end of the handler. *)
Lemma drive_read c m n (st : storage) :
  Handlers.drive segment (S (S n)) (Save c m (Read (st !! SESSION_INDEX))) st
  = (match readIndex st with
     | None => st
     | Some session_index =>
         let session_index := session_index ++ [metadataOf c m] in
         let '(session_index, st) :=
           if (MAX_SESSIONS <? List.length session_index)%nat then
             match session_index with
             | toDelete :: shifted => (shifted, removeKeys (keysToDelete toDelete) st)
             | [] => (session_index, st)
             end
           else (session_index, st) in
         <[SESSION_INDEX := StoredIndex (sortNewestFirst session_index)]> st
     end, None).
Proof.
  rewrite drive_S. unfold segment at 1.
  change (indexIn (st !! SESSION_INDEX)) with (readIndex st).
  destruct (readIndex st) as [session_index|]; [| reflexivity].
  cbv zeta.
  destruct (MAX_SESSIONS <? List.length (session_index ++ [metadataOf c m]))%nat;
    [| reflexivity].
  destruct (session_index ++ [metadataOf c m]) as [|toDelete shifted]; reflexivity.
Qed.

(** A [save_session_history] handler that runs with nothing in between
    is [save_session_history]. *)
Lemma save_alone c m (st : storage) :
  Handlers.drive segment (segments m) (spawn (c, m)) st
  = (save_session_history c m st, None).
Proof.
  unfold segments, spawn. cbn [fst snd].
  rewrite (drive_chunks c m _ 0 4 st (drop_0 _)), Nat.add_0_l.
  set (chunks := chunkArray (transcriptArray m) CHUNK_SIZE).
  set (st1 := writeChunks (sessionIdOf c) 0 chunks st).
  assert (Hdone : chunks !! List.length chunks = None) by (apply lookup_ge_None; lia).
  unfold save_session_history. fold chunks st1.
  rewrite drive_S, (segment_chunks_done c m _ st1 Hdone).
  destruct (attendeeReport m) as [r|].
  - rewrite drive_S.
    change (segment (Save c m Reported) ?s)
      with (s, Some (Save c m (Read (s !! SESSION_INDEX)))).
    apply drive_read.
  - apply drive_read.
Qed.

(** Saves one by one compose as [save_session_history] does. *)
Lemma saves_oneByOne_idle saves (st : storage) :
  run (oneByOne saves) (Handlers.idle st)
  = Handlers.idle (foldl (fun st s => save_session_history s.1 s.2 st) st saves).
Proof.
  unfold run, oneByOne.
  apply (HandlerFacts.run_oneByOne spawn segment (fun st => st)
           (fun s => segments s.2) (fun s st => save_session_history s.1 s.2 st)).
  intros [c m] st'. apply save_alone.
Qed.

Lemma storeAfter_nil : storeAfter (oneByOne []) = ∅.
Proof. reflexivity. Qed.

Lemma storeAfter_snoc saves c m :
  storeAfter (oneByOne (saves ++ [(c, m)]))
  = save_session_history c m (storeAfter (oneByOne saves)).
Proof.
  unfold storeAfter, start. rewrite !saves_oneByOne_idle. simpl. now rewrite foldl_app.
Qed.


(** Whatever the session ids, one more save keeps the index within the
    cap; at the cap exactly the entry at the head of the stored index
    leaves it, and none of its keys is in the store afterwards. *)
Lemma bounded_step n (st : storage) c m :
  bounded n st ->
  bounded (S n) (save_session_history c m st)
  /\ ((n < MAX_SESSIONS)%nat ->
      indexOf (save_session_history c m st) ≡ₚ indexOf st ++ [metadataOf c m])
  /\ ((MAX_SESSIONS <= n)%nat ->
      exists evicted,
        head (indexOf st) = Some evicted
        /\ indexOf st ++ [metadataOf c m]
           ≡ₚ evicted :: indexOf (save_session_history c m st)
        /\ forall k, k ∈ keysToDelete evicted -> save_session_history c m st !! k = None).
Proof.
  intros (Hread & Hlen & Hmade). unfold MAX_SESSIONS in *.
  assert (Hnew : Forall (fun e => exists c m, e = metadataOf c m) [metadataOf c m])
    by (constructor; [eauto | constructor]).
  destruct (decide (n < 10)%nat) as [Hbelow | Hcap].
  - rewrite (save_below_cap c m st (indexOf st) Hread) by (unfold MAX_SESSIONS; lia).
    destruct (indexOf_insert (persistSession c m st)
                (sortNewestFirst (indexOf st ++ [metadataOf c m]))) as [Hi Hr].
    split; [| split; [intros _; rewrite Hi; apply sortNewestFirst_perm | lia]].
    unfold bounded. rewrite Hi, Hr.
    split; [reflexivity |]. split.
    + rewrite sortNewestFirst_perm, length_app. simpl. unfold MAX_SESSIONS. lia.
    + rewrite sortNewestFirst_perm. apply Forall_app. split; assumption.
  - destruct (indexOf st) as [|e index] eqn:Hix; [simpl in Hlen; lia |].
    rewrite (save_at_cap c m st e index Hread) by (unfold MAX_SESSIONS; simpl in *; lia).
    destruct (indexOf_insert (removeKeys (keysToDelete e) (persistSession c m st))
                (sortNewestFirst (index ++ [metadataOf c m]))) as [Hi Hr].
    inversion Hmade as [|? ? [c0 [m0 He]] Hmade']; subst.
    split; [| split; [lia |]].
    + unfold bounded. rewrite Hi, Hr.
      split; [reflexivity |]. split.
      * rewrite sortNewestFirst_perm, length_app. simpl in *. unfold MAX_SESSIONS. lia.
      * rewrite sortNewestFirst_perm. apply Forall_app. split; assumption.
    + intros _. exists (metadataOf c0 m0). split; [reflexivity |]. split.
      * rewrite Hi, sortNewestFirst_perm. reflexivity.
      * intros k Hk. rewrite lookup_insert_ne.
        -- rewrite removeKeys_lookup. now rewrite decide_True.
        -- intros <-. now apply delete_not_index in Hk.
Qed.

Lemma bounded_run saves : bounded (List.length saves) (storeAfter (oneByOne saves)).
Proof.
  induction saves as [|[c m] saves IH] using rev_ind.
  - unfold bounded. repeat split; constructor.
  - rewrite storeAfter_snoc, length_app. simpl.
    replace (List.length saves + 1)%nat with (S (List.length saves)) by lia.
    now apply bounded_step.
Qed.


End WithHost.



(** Which entry goes: the index is stored newest first, so the entry at
    its head, the one the eleventh save evicts, is the newest of the ten
    that were there; the oldest stays. *)
Example eleventh_save_evicts_the_head_of_the_index :
  id <$> indexOf (storeAfter (H := plainHost) (oneByOne (tenSaves ++ [sampleSave 11 "Retro"])))
  = ["session_11"; "session_9"; "session_8"; "session_7"; "session_6";
     "session_5"; "session_4"; "session_3"; "session_2"; "session_1"].
Proof. vm_compute. reflexivity. Qed.

(** C1 fails on two kinds of runs. When two saves read the same
    millisecond: the eleventh save below gets the session id of the tenth,
    the tenth is evicted, and the removal of its keys takes the chunk the
    eleventh has just written, so the index of ten entries holds an entry
    with one chunk whose chunk key is not in the store. And when handlers
    overlap, also with different session ids: in [overlappedSaves] the
    saves of milliseconds 11 and 12 both read the index of ten entries
    and both evict the entry of millisecond 10; the index that the later
    one stores replaces the index of the earlier one, so after twelve
    saves the index holds ten entries, the session of millisecond 11 is
    not among them, and its chunk stays in the store. *)
Theorem archive_misses_and_orphans_chunks :
  let equalIds :=
    storeAfter (H := plainHost) (oneByOne (tenSaves ++ [sampleSave 10 "Retro"])) in
  let overlapped := storeAfter (H := plainHost) overlappedSaves in
  (List.length (indexOf equalIds) = 10%nat
   /\ (id <$> indexOf equalIds) !! 0%nat = Some "session_10"
   /\ (title <$> indexOf equalIds) !! 0%nat = Some "Retro"
   /\ (chunkCount <$> indexOf equalIds) !! 0%nat = Some 1%nat
   /\ persistedKeys (sampleSave 10 "Retro") = ["session_10_chunk_0"]
   /\ equalIds !! "session_10_chunk_0" = None)
  /\ (Handlers.inFlight (run (H := plainHost) overlappedSaves start) = []
      /\ id <$> indexOf overlapped
         = ["session_12"; "session_9"; "session_8"; "session_7"; "session_6";
            "session_5"; "session_4"; "session_3"; "session_2"; "session_1"]
      /\ persistedKeys (sampleSave 11 "Retro") = ["session_11_chunk_0"]
      /\ overlapped !! "session_11_chunk_0"
         = Some (StoredEntries [mkEntry "10:00" "Alice" "Hi"])).
Proof. vm_compute. repeat split; reflexivity. Qed.

End ArchiveFacts.

(** ** More on the session archive: chunks and metadata *)

Module ChunkFacts.
Import Archive SessionArchive.

Lemma ceil_le (len n j : nat) :
  (1 <= n)%nat -> ((len + n - 1) / n <= j)%nat <-> (len <= j * n)%nat.
Proof.
  intros Hn. pose proof (Nat.div_mod_eq (len + n - 1) n) as Hdm.
  pose proof (Nat.mod_upper_bound (len + n - 1) n ltac:(lia)) as Hmod.
  split; intros H; nia.
Qed.

(** The loop adds the slices that start at the multiples of the chunk size
    below the length, and leaves by its own test. *)
Lemma chunkLoop_slices {A} (array : list A) n fuel j chunks :
  (1 <= n)%nat -> (List.length array - j * n <= fuel)%nat ->
  chunkLoop fuel (j * n) array n chunks =
  chunks ++ ((fun k => take n (drop (k * n) array))
               <$> seq j ((List.length array + n - 1) / n - j)).
Proof.
  intros Hn. revert j chunks. induction fuel as [|fuel IH]; intros j chunks Hfuel; simpl.
  - assert (Hj : ((List.length array + n - 1) / n <= j)%nat) by (apply ceil_le; lia).
    replace ((List.length array + n - 1) / n - j)%nat with 0%nat by lia.
    simpl. now rewrite app_nil_r.
  - destruct (j * n <? List.length array)%nat eqn:Hlt.
    + apply Nat.ltb_lt in Hlt.
      assert (Hj : (j < (List.length array + n - 1) / n)%nat).
      { destruct (decide (j < (List.length array + n - 1) / n)%nat) as [|Hge]; [assumption |].
        assert ((List.length array + n - 1) / n <= j)%nat as Hle by lia.
        apply ceil_le in Hle; lia. }
      replace (j * n + n)%nat with (S j * n)%nat by lia.
      rewrite IH by lia. rewrite <- app_assoc. f_equal.
      replace ((List.length array + n - 1) / n - j)%nat
        with (S ((List.length array + n - 1) / n - S j)) by lia.
      simpl. f_equal. unfold slice. f_equal. lia.
    + apply Nat.ltb_ge in Hlt.
      assert (Hj : ((List.length array + n - 1) / n <= j)%nat) by (apply ceil_le; lia).
      replace ((List.length array + n - 1) / n - j)%nat with 0%nat by lia.
      simpl. now rewrite app_nil_r.
Qed.

Lemma chunkArray_slices {A} (array : list A) n :
  (1 <= n)%nat ->
  chunkArray array n =
  (fun k => take n (drop (k * n) array)) <$> seq 0 ((List.length array + n - 1) / n).
Proof.
  intros Hn. unfold chunkArray.
  pose proof (chunkLoop_slices array n (List.length array) 0 [] Hn) as Hloop.
  simpl in Hloop. rewrite Hloop by lia. now rewrite Nat.sub_0_r.
Qed.

(** X1. [chunkArray] with a positive chunk size cuts the array into
    consecutive pieces: there are ceil(length / size) of them, the piece at
    index k holds the elements from k * size on, every piece holds at least
    one and at most size elements, every piece but the last holds exactly
    size, and the pieces put together are the array. *)
Theorem chunkArray_cuts_into_full_chunks {A} (array : list A) (chunkSize : nat) :
  (1 <= chunkSize)%nat ->
  let chunks := chunkArray array chunkSize in
  List.length chunks = ((List.length array + chunkSize - 1) / chunkSize)%nat
  /\ concat chunks = array
  /\ (forall k chunk, chunks !! k = Some chunk ->
        chunk = take chunkSize (drop (k * chunkSize) array)
        /\ (1 <= List.length chunk <= chunkSize)%nat
        /\ (S k < List.length chunks -> List.length chunk = chunkSize)%nat).
Proof.
  intros Hn chunks.
  assert (Hlen : List.length chunks
                 = ((List.length array + chunkSize - 1) / chunkSize)%nat).
  { subst chunks. rewrite (chunkArray_slices array chunkSize Hn).
    now rewrite length_fmap, length_seq. }
  split; [exact Hlen |].
  split.
  { subst chunks. unfold chunkArray. apply ArchiveFacts.chunkLoop_concat; [exact Hn | lia | reflexivity]. }
  intros k chunk Hk.
  assert (Hklt : (k < List.length chunks)%nat) by (eapply lookup_lt_Some; exact Hk).
  subst chunks. rewrite (chunkArray_slices array chunkSize Hn) in Hk.
  rewrite list_lookup_fmap in Hk.
  destruct (seq 0 _ !! k) as [k'|] eqn:Hseq; [| discriminate].
  apply lookup_seq in Hseq as [-> _]. simpl in Hk. injection Hk as <-.
  split; [reflexivity |].
  rewrite length_take, length_drop.
  assert (Hstart : (k * chunkSize < List.length array)%nat).
  { destruct (decide (k * chunkSize < List.length array)%nat) as [|Hge]; [assumption |].
    assert (List.length array <= k * chunkSize)%nat as Hle by lia.
    apply (ceil_le _ chunkSize k Hn) in Hle. lia. }
  split; [lia |].
  intros Hnext.
  destruct (decide (S k * chunkSize <= List.length array)%nat) as [Hin|Hout]; [lia |].
  assert (List.length array <= S k * chunkSize)%nat as Hle by lia.
  apply (ceil_le _ chunkSize (S k) Hn) in Hle. lia.
Qed.

(** The theorem for a transcript of 250 lines cut by hundreds. *)
Lemma chunkArray_witness :
  List.length (chunkArray (replicate 250 (mkEntry "10:00" "Alice" "Hi")) 100) = 3%nat
  /\ concat (chunkArray (replicate 250 (mkEntry "10:00" "Alice" "Hi")) 100)
     = replicate 250 (mkEntry "10:00" "Alice" "Hi").
Proof.
  destruct (chunkArray_cuts_into_full_chunks
              (replicate 250 (mkEntry "10:00" "Alice" "Hi")) 100 ltac:(lia))
    as (Hlen & Hcat & _).
  split; [rewrite Hlen; reflexivity | exact Hcat].
Defined.

(** *** The speakers of a session *)

Lemma distinct_elem seen names (x : string) :
  x ∈ distinct seen names <-> x ∈ names /\ x ∉ seen.
Proof.
  revert seen. induction names as [|n names IH]; intros seen; simpl.
  - split; [intros Hx; now apply not_elem_of_nil in Hx | intros [Hx _]; exact Hx].
  - case_bool_decide as Hn.
    + rewrite IH, elem_of_cons. split; [tauto |].
      intros [[-> | Hx] Hout]; [contradiction | tauto].
    + rewrite !elem_of_cons, IH, elem_of_cons. split.
      * intros [-> | [Hx Hout]]; [tauto |]. split; [tauto |]. tauto.
      * intros [[-> | Hx] Hout]; [tauto |].
        destruct (decide (x = n)) as [-> | Hne]; [tauto |]. right. tauto.
Qed.

Lemma distinct_NoDup seen names : NoDup (distinct seen names).
Proof.
  revert seen. induction names as [|n names IH]; intros seen; simpl; [constructor |].
  case_bool_decide as Hn; [apply IH |].
  apply NoDup_cons. split; [| apply IH].
  rewrite distinct_elem. intros [_ Hout]. apply Hout, list_elem_of_here.
Qed.

Lemma distinct_sublist seen names : distinct seen names `sublist_of` names.
Proof.
  revert seen. induction names as [|n names IH]; intros seen; simpl; [constructor |].
  case_bool_decide; [apply sublist_cons | apply sublist_skip]; apply IH.
Qed.

(** Of two names of the result, the earlier one occurs in [names] at a
    position up to which the later one has not occurred. *)
Lemma distinct_order seen names i j (x y : string) :
  distinct seen names !! i = Some x -> distinct seen names !! j = Some y ->
  (i < j)%nat ->
  exists p, names !! p = Some x /\ y ∉ take (S p) names.
Proof.
  revert seen i j. induction names as [|n names IH]; intros seen i j; simpl;
    [intros Hx; discriminate |].
  case_bool_decide as Hn.
  - intros Hx Hy Hij. destruct (IH seen i j Hx Hy Hij) as (p & Hp & Hout).
    exists (S p). split; [exact Hp |].
    change (take (S (S p)) (n :: names)) with (n :: take (S p) names).
    rewrite not_elem_of_cons. split; [| exact Hout].
    intros ->. apply list_elem_of_lookup_2, distinct_elem in Hy. tauto.
  - intros Hx Hy Hij. destruct j as [|j]; [lia |]. simpl in Hy.
    assert (Hyn : y <> n).
    { intros ->. apply list_elem_of_lookup_2, distinct_elem in Hy.
      apply (proj2 Hy), list_elem_of_here. }
    destruct i as [|i].
    + injection Hx as <-. exists 0%nat. split; [reflexivity |].
      change (take 1 (n :: names)) with [n]. now apply not_elem_of_cons.
    + simpl in Hx. destruct (IH (n :: seen) i j Hx Hy ltac:(lia)) as (p & Hp & Hout).
      exists (S p). split; [exact Hp |].
      change (take (S (S p)) (n :: names)) with (n :: take (S p) names).
      now apply not_elem_of_cons.
Qed.

Section WithHost.
Context `{Host}.

(** X2. The metadata of a session sums the transcript up within fixed
    bounds. [speakers] is the first ten of the speakers' names listed
    once each in the order in which the speakers first spoke: of two
    listed names the earlier one has spoken before the later one speaks
    for the first time. So it holds no name twice and at most ten names,
    starts with the first speaker, and a speaker is missing from it only
    when it is full. [attendees] is the first twenty names of the attendee
    list at most. [chunkCount] is the caption count divided by one
    hundred, rounded up. *)
Theorem metadata_sums_up_the_transcript (c : Clock) (m : SaveMessage) :
  let md := metadataOf c m in
  let names := Name <$> transcriptArray m in
  NoDup (speakers md)
  /\ (List.length (speakers md) <= 10)%nat
  /\ speakers md `sublist_of` names
  /\ head (speakers md) = head names
  /\ (forall n, n ∈ names -> n ∈ speakers md \/ List.length (speakers md) = 10%nat)
  /\ (exists all,
        speakers md = take 10 all
        /\ NoDup all
        /\ (forall n, n ∈ all <-> n ∈ names)
        /\ (forall i j x y,
              all !! i = Some x -> all !! j = Some y -> (i < j)%nat ->
              exists p, names !! p = Some x /\ y ∉ take (S p) names))
  /\ (forall r, attendeeReport m = Some r ->
        exists kept, attendees md = Some kept
          /\ kept `prefix_of` attendeeList r /\ (List.length kept <= 20)%nat)
  /\ captionCount md = List.length (transcriptArray m)
  /\ chunkCount md = ((captionCount md + 99) / 100)%nat.
Proof.
  intros md names. subst md. simpl. fold names.
  pose proof (distinct_NoDup [] names) as Hnd.
  split; [eapply sublist_NoDup; [exact Hnd | apply sublist_take] |].
  split; [rewrite length_take; lia |].
  split.
  { transitivity (distinct [] names); [apply sublist_take | apply distinct_sublist]. }
  split.
  { destruct names as [|n names']; [reflexivity |]. reflexivity. }
  split.
  { intros n Hn.
    destruct (decide (List.length (distinct [] names) <= 10)%nat) as [Hle | Hgt].
    - left. rewrite take_ge by exact Hle. apply distinct_elem.
      split; [exact Hn | apply not_elem_of_nil].
    - right. rewrite length_take. lia. }
  split.
  { exists (distinct [] names). split; [reflexivity |]. split; [exact Hnd |].
    split; [| intros i j x y; apply distinct_order].
    intros n. rewrite distinct_elem. split; [tauto |].
    intros Hn. split; [exact Hn | apply not_elem_of_nil]. }
  split.
  { intros r ->. simpl. exists (take 20 (attendeeList r)).
    split; [reflexivity |]. split; [apply prefix_take | rewrite length_take; lia]. }
  split; [reflexivity |].
  unfold CHUNK_SIZE. rewrite (chunkArray_slices _ 100) by lia.
  rewrite length_fmap, length_seq.
  replace (List.length (transcriptArray m) + 100 - 1)%nat
    with (List.length (transcriptArray m) + 99)%nat by lia.
  reflexivity.
Qed.

End WithHost.
End ChunkFacts.

(** ** More on the session archive: the order of the index *)

Module OrderFacts.
Import Archive SessionArchive SaveHandlers KeyFacts ArchiveFacts.

Lemma insertNewestFirst_sorted x index :
  newestFirst index -> newestFirst (insertNewestFirst x index).
Proof.
  unfold newestFirst. induction 1 as [|y rest Hrest IH Hy]; simpl.
  - repeat constructor.
  - destruct (timestamp y <=? timestamp x)%N eqn:Hyx.
    + apply N.leb_le in Hyx. constructor; [now constructor |].
      constructor; [exact Hyx |].
      eapply Forall_impl; [exact Hy |]. unfold notOlder. intros z Hz. lia.
    + apply N.leb_gt in Hyx. constructor; [exact IH |].
      rewrite insertNewestFirst_perm. constructor; [unfold notOlder; lia | exact Hy].
Qed.

Lemma sortNewestFirst_sorted index : newestFirst (sortNewestFirst index).
Proof.
  induction index as [|x index IH]; simpl; [constructor |].
  now apply insertNewestFirst_sorted.
Qed.

(** An entry that is not older than any entry of a list goes to its front. *)
Lemma insertNewestFirst_front x index :
  Forall (notOlder x) index -> insertNewestFirst x index = x :: index.
Proof.
  destruct 1 as [|y rest Hy _]; simpl; [reflexivity |].
  unfold notOlder in Hy. apply N.leb_le in Hy. now rewrite Hy.
Qed.

(** Sorting an index that is in order leaves it as it is. *)
Lemma sortNewestFirst_fixed index : newestFirst index -> sortNewestFirst index = index.
Proof.
  unfold newestFirst. induction 1 as [|x rest Hrest IH Hx]; simpl; [reflexivity |].
  rewrite IH. now apply insertNewestFirst_front.
Qed.

(** A newer entry pushed at the end of an index in order comes first. *)
Lemma sortNewestFirst_snoc index x :
  newestFirst index ->
  Forall (fun e => (timestamp e < timestamp x)%N) index ->
  sortNewestFirst (index ++ [x]) = x :: index.
Proof.
  unfold newestFirst. intros Hsorted Hnewer.
  induction Hsorted as [|y rest Hrest IH Hy]; simpl; [reflexivity |].
  inversion Hnewer as [|? ? Hyx Hrestx]; subst.
  rewrite (IH Hrestx). simpl.
  assert (Hlt : (timestamp x <=? timestamp y)%N = false) by (apply N.leb_gt; exact Hyx).
  rewrite Hlt. f_equal. now apply insertNewestFirst_front.
Qed.

Section WithHost.
Context `{Host}.

(** What a save leaves as index, given the index it found. *)
Lemma index_after_save c m (st : storage) :
  readIndex st = Some (indexOf st) ->
  indexOf (save_session_history c m st) =
  sortNewestFirst
    (if (List.length (indexOf st) <? MAX_SESSIONS)%nat
     then indexOf st ++ [metadataOf c m]
     else tail (indexOf st) ++ [metadataOf c m])
  /\ readIndex (save_session_history c m st)
     = Some (indexOf (save_session_history c m st)).
Proof.
  intros Hread.
  destruct (List.length (indexOf st) <? MAX_SESSIONS)%nat eqn:Hlen.
  - apply Nat.ltb_lt in Hlen.
    rewrite (save_below_cap c m st (indexOf st) Hread Hlen).
    destruct (indexOf_insert (persistSession c m st)
                (sortNewestFirst (indexOf st ++ [metadataOf c m]))) as [-> ->].
    split; reflexivity.
  - apply Nat.ltb_ge in Hlen.
    destruct (indexOf st) as [|e index] eqn:Hix;
      [unfold MAX_SESSIONS in Hlen; simpl in Hlen; lia |].
    rewrite (save_at_cap c m st e index Hread Hlen).
    destruct (indexOf_insert (removeKeys (keysToDelete e) (persistSession c m st))
                (sortNewestFirst (index ++ [metadataOf c m]))) as [-> ->].
    split; reflexivity.
Qed.

Lemma readIndex_run saves :
  readIndex (storeAfter (oneByOne saves)) = Some (indexOf (storeAfter (oneByOne saves))).
Proof. apply (bounded_run saves). Qed.

(** *** The index under handlers that overlap *)

Lemma tidy_sorted index :
  Forall (fun e => exists c m, e = metadataOf c m) index ->
  (List.length index <= MAX_SESSIONS)%nat ->
  tidy (sortNewestFirst index).
Proof.
  intros Hmade Hlen. split; [| split].
  - now rewrite sortNewestFirst_perm.
  - apply sortNewestFirst_sorted.
  - now rewrite sortNewestFirst_perm.
Qed.

Lemma keepsIndex_insert (st : storage) index :
  tidy index -> keepsIndex (<[SESSION_INDEX := StoredIndex index]> st).
Proof.
  intros Htidy. unfold keepsIndex.
  destruct (indexOf_insert st index) as [-> ->]. now split.
Qed.

(** The index is kept by a store that differs under other keys. *)
Lemma keepsIndex_same (st st' : storage) :
  st' !! SESSION_INDEX = st !! SESSION_INDEX -> keepsIndex st -> keepsIndex st'.
Proof. unfold keepsIndex, readIndex, indexOf. now intros ->. Qed.

Lemma keepsIndex_read (st : storage) :
  keepsIndex st -> indexIn (st !! SESSION_INDEX) = Some (indexOf st) /\ tidy (indexOf st).
Proof. intros [Hread Htidy]. now split. Qed.

(** What the segment after the read of the index does: below the cap it
    stores the index with the new entry; at the cap it removes the keys of
    the entry at the head of what was read. *)
Lemma segment_read c m found index (st : storage) :
  indexIn found = Some index ->
  segment (Save c m (Read found)) st
  = if (List.length index <? MAX_SESSIONS)%nat then
      (<[SESSION_INDEX := StoredIndex (sortNewestFirst (index ++ [metadataOf c m]))]> st,
       None)
    else
      match index with
      | evicted :: rest =>
          (removeKeys (keysToDelete evicted) st,
           Some (Save c m (Shifted (rest ++ [metadataOf c m]))))
      | [] =>
          (<[SESSION_INDEX := StoredIndex (sortNewestFirst (index ++ [metadataOf c m]))]> st,
           None)
      end.
Proof.
  intros Hfound. unfold segment. rewrite Hfound. cbv zeta.
  rewrite length_app. cbn [List.length].
  destruct (List.length index <? MAX_SESSIONS)%nat eqn:Hlen.
  - apply Nat.ltb_lt in Hlen.
    replace (MAX_SESSIONS <? List.length index + 1)%nat with false; [reflexivity |].
    symmetry. apply Nat.ltb_ge. lia.
  - apply Nat.ltb_ge in Hlen.
    replace (MAX_SESSIONS <? List.length index + 1)%nat with true
      by (symmetry; apply Nat.ltb_lt; lia).
    destruct index as [|evicted rest]; [| reflexivity].
    unfold MAX_SESSIONS in Hlen. simpl in Hlen. lia.
Qed.

(** One segment keeps the index of the store tidy, and so the index the
    handler holds afterwards. *)
Lemma segment_tidy (t : task) (st : storage) :
  keepsIndex st -> heldBy t ->
  keepsIndex (segment t st).1
  /\ forall t', (segment t st).2 = Some t' -> heldBy t'.
Proof.
  intros Hst Hheld. destruct t as [c m s].
  assert (Hget : keepsIndex st
                 /\ forall t', Some (Save c m (Read (st !! SESSION_INDEX))) = Some t' ->
                               heldBy t').
  { split; [exact Hst |]. intros t' [= <-]. simpl.
    exists (indexOf st). now apply keepsIndex_read. }
  destruct s as [i | | found | index].
  - destruct (chunkArray (transcriptArray m) CHUNK_SIZE !! i) as [chunk|] eqn:Hi.
    + rewrite (segment_chunk c m i chunk st Hi). simpl. split.
      * eapply keepsIndex_same; [| exact Hst].
        apply lookup_insert_ne, chunkKey_not_index.
      * now intros t' [= <-].
    + rewrite (segment_chunks_done c m i st Hi).
      destruct (attendeeReport m) as [r|]; [| exact Hget]. simpl. split.
      * eapply keepsIndex_same; [| exact Hst].
        apply lookup_insert_ne, attendeesKey_not_index.
      * now intros t' [= <-].
  - exact Hget.
  - destruct Hheld as (index & Hfound & Hmade & Hsorted & Hlen).
    rewrite (segment_read c m found index st Hfound).
    assert (Hnew : Forall (fun e => exists c m, e = metadataOf c m)
                     (index ++ [metadataOf c m])).
    { apply Forall_app. split; [exact Hmade |]. constructor; [eauto | constructor]. }
    destruct (List.length index <? MAX_SESSIONS)%nat eqn:Hcap.
    + apply Nat.ltb_lt in Hcap. simpl. split; [| intros t' [=]].
      apply keepsIndex_insert, tidy_sorted; [exact Hnew |].
      rewrite length_app. simpl. lia.
    + apply Nat.ltb_ge in Hcap.
      destruct index as [|evicted rest]; [unfold MAX_SESSIONS in Hcap; simpl in Hcap; lia |].
      simpl. split.
      * eapply keepsIndex_same; [| exact Hst].
        rewrite removeKeys_lookup.
        inversion Hmade as [|? ? (c' & m' & ->) _]; subst.
        rewrite decide_False; [reflexivity | apply delete_not_index].
      * intros t' [= <-]. simpl. split.
        -- inversion Hnew; subst. assumption.
        -- rewrite length_app. simpl in *. lia.
  - destruct Hheld as [Hmade Hlen].
    change (segment (Save c m (Shifted index)) st)
      with (<[SESSION_INDEX := StoredIndex (sortNewestFirst index)]> st, @None task).
    simpl. split; [| intros t' [=]].
    now apply keepsIndex_insert, tidy_sorted.
Qed.

(** Whatever the events, the store keeps a tidy index and so does every
    handler in flight. *)
Lemma run_tidy (events : list event) :
  keepsIndex (Handlers.shared (run events start))
  /\ Forall heldBy (Handlers.inFlight (run events start)).
Proof.
  induction events as [|e events IH] using rev_ind.
  - split; [| constructor]. split; [reflexivity |].
    split; [constructor |]. split; [constructor |].
    change (0 <= 10)%nat. lia.
  - unfold run in *. rewrite HandlerFacts.run_snoc.
    destruct (Handlers.run spawn segment (fun st => st) events start) as [st pool].
    simpl in IH. destruct IH as [Hst Hpool].
    destruct e as [s | i |]; simpl.
    + split; [exact Hst |]. apply Forall_app. split; [exact Hpool |].
      constructor; [exact I | constructor].
    + destruct (pool !! i) as [t|] eqn:Ht; [| now split].
      pose proof (proj1 (Forall_lookup _ _) Hpool i t Ht) as Hheld.
      destruct (segment_tidy t st Hst Hheld) as [Hst' Hrest].
      destruct (segment t st) as [st' [t'|]]; simpl in *.
      * split; [exact Hst' |]. apply Forall_insert; [exact Hpool | now apply Hrest].
      * split; [exact Hst' | now apply Forall_delete].
    + split; [exact Hst | constructor].
Qed.

(** X3. However the handlers of [save_session_history] overlap, and
    whenever the worker restarts, the stored index lists at most ten
    entries, newest first, and so does the index a handler has read. A
    handler that has read fewer than ten entries stores them with its own
    entry and removes nothing. A handler that has read ten removes the
    keys of the entry at the head of what it read and drops that entry,
    and this entry has the latest timestamp of the ten, not the earliest:
    the cap takes the newest of the stored sessions. *)
Theorem index_is_newest_first_and_eviction_takes_the_newest (events : list event) :
  let w := run events start in
  let st := Handlers.shared w in
  readIndex st = Some (indexOf st)
  /\ newestFirst (indexOf st)
  /\ (List.length (indexOf st) <= 10)%nat
  /\ forall i c m found,
       Handlers.inFlight w !! i = Some (Save c m (Read found)) ->
       exists session_index,
         indexIn found = Some session_index
         /\ newestFirst session_index
         /\ (List.length session_index <= 10)%nat
         /\ ((List.length session_index < 10)%nat ->
             step w (Handlers.Resume i)
             = Handlers.mkWorld
                 (<[SESSION_INDEX
                    := StoredIndex (sortNewestFirst (session_index ++ [metadataOf c m]))]> st)
                 (delete i (Handlers.inFlight w)))
         /\ ((List.length session_index = 10)%nat ->
             exists evicted rest,
               session_index = evicted :: rest
               /\ (forall e, e ∈ session_index -> (timestamp e <= timestamp evicted)%N)
               /\ step w (Handlers.Resume i)
                  = Handlers.mkWorld
                      (removeKeys (keysToDelete evicted) st)
                      (<[i := Save c m (Shifted (rest ++ [metadataOf c m]))]>
                         (Handlers.inFlight w))).
Proof.
  intros w st. destruct (run_tidy events) as [[Hread (_ & Hsorted & Hlen)] Hpool].
  fold w in Hread, Hsorted, Hlen, Hpool. fold st in Hread, Hsorted, Hlen.
  split; [exact Hread |]. split; [exact Hsorted |]. split; [exact Hlen |].
  intros i c m found Hi.
  destruct (proj1 (Forall_lookup _ _) Hpool i _ Hi) as (index & Hfound & _ & Hixsorted & Hixlen).
  exists index. split; [exact Hfound |]. split; [exact Hixsorted |].
  split; [exact Hixlen |].
  assert (Hstep : step w (Handlers.Resume i)
                  = let '(st', rest) := segment (Save c m (Read found)) st in
                    Handlers.mkWorld st'
                      match rest with
                      | Some t' => <[i := t']> (Handlers.inFlight w)
                      | None => delete i (Handlers.inFlight w)
                      end).
  { unfold step. simpl. now rewrite Hi. }
  rewrite Hstep, (segment_read c m found index st Hfound). unfold MAX_SESSIONS. split.
  - intros Hbelow. apply Nat.ltb_lt in Hbelow. now rewrite Hbelow.
  - intros Hten. destruct index as [|evicted rest]; [discriminate |].
    exists evicted, rest. split; [reflexivity |]. split.
    + intros e He. apply elem_of_cons in He as [-> | He]; [lia |].
      inversion Hixsorted as [|? ? _ Hall]; subst.
      rewrite Forall_forall in Hall. apply (Hall e He).
    + replace (List.length (evicted :: rest) <? 10)%nat with false; [reflexivity |].
      symmetry. apply Nat.ltb_ge. lia.
Qed.

Lemma timestamp_metadataOf c m : timestamp (metadataOf c m) = created c.
Proof. reflexivity. Qed.

Lemma inTimeOrder_snoc saves s :
  inTimeOrder (saves ++ [s]) ->
  inTimeOrder saves
  /\ Forall (fun e => (timestamp e < created s.1)%N)
            ((fun x => metadataOf x.1 x.2) <$> saves).
Proof.
  unfold inTimeOrder. intros Hsorted.
  apply StronglySorted_app in Hsorted as (Hcross & Hl & _). split; [exact Hl |].
  apply Forall_fmap, Forall_forall. intros x Hx. simpl.
  apply (Hcross x s Hx). apply list_elem_of_here.
Qed.

(** The metadata of saves made in time order, read backwards, are newest
    first. *)
Lemma rev_metadata_sorted saves :
  inTimeOrder saves -> newestFirst (rev ((fun x => metadataOf x.1 x.2) <$> saves)).
Proof.
  induction saves as [|s saves IH] using rev_ind; intros Hsorted; [constructor |].
  destruct (inTimeOrder_snoc saves s Hsorted) as [Hrest Hlt].
  rewrite fmap_app, rev_app_distr. simpl. constructor; [now apply IH |].
  apply Forall_rev. eapply Forall_impl; [exact Hlt |].
  intros e He. cbv beta in He. unfold notOlder.
  rewrite timestamp_metadataOf. lia.
Qed.

Lemma inTimeOrder_take n saves : inTimeOrder saves -> inTimeOrder (take n saves).
Proof.
  unfold inTimeOrder. intros Hsorted.
  rewrite <- (take_drop n saves) in Hsorted.
  now apply StronglySorted_app_1_l in Hsorted.
Qed.

(** X4. When the saves are handled one by one, each handler ending before
    the next message arrives, and each save is made at a later instant than
    the ones before, the index after any such run holds the latest save
    first and then the first nine saves of the run, latest first. So from
    the eleventh save on, each save pushes out the save made just before
    it: the first nine sessions stay for good and every later session lasts
    until the next save. *)
Theorem first_nine_sessions_are_never_evicted
    (saves : list (Clock * SaveMessage)) (s : Clock * SaveMessage) :
  inTimeOrder (saves ++ [s]) ->
  indexOf (storeAfter (oneByOne (saves ++ [s])))
  = metadataOf s.1 s.2 :: rev ((fun x => metadataOf x.1 x.2) <$> take 9 saves).
Proof.
  revert s. induction saves as [|s' saves IH] using rev_ind; intros [c m] Hsorted.
  - rewrite (storeAfter_snoc [] c m).
    rewrite (proj1 (index_after_save c m _ (readIndex_run []))). reflexivity.
  - destruct (inTimeOrder_snoc _ _ Hsorted) as [Hprefix Hlt].
    specialize (IH s' Hprefix).
    destruct (inTimeOrder_snoc _ _ Hprefix) as [Hsaves Hlt'].
    rewrite storeAfter_snoc.
    rewrite (proj1 (index_after_save c m _ (readIndex_run (saves ++ [s'])))).
    rewrite IH. simpl List.length. rewrite length_rev, length_fmap, length_take.
    rewrite fmap_app, Forall_app in Hlt. destruct Hlt as [Hlt_saves Hlt_s'].
    inversion Hlt_s' as [|? ? Hs' _]; subst.
    assert (Hkept : newestFirst (rev ((fun x => metadataOf x.1 x.2) <$> take 9 saves)))
      by (apply rev_metadata_sorted, inTimeOrder_take, Hsaves).
    assert (Hkept_lt : forall (t : N),
              Forall (fun e => (timestamp e < t)%N)
                     ((fun x => metadataOf x.1 x.2) <$> saves) ->
              Forall (fun e => (timestamp e < t)%N)
                     (rev ((fun x => metadataOf x.1 x.2) <$> take 9 saves))).
    { intros t Hall. apply Forall_rev. rewrite fmap_take. now apply Forall_take. }
    destruct (decide (List.length saves < 9)%nat) as [Hshort | Hfull].
    + assert (Hcap : (S (9 `min` List.length saves) <? MAX_SESSIONS)%nat = true)
        by (apply Nat.ltb_lt; unfold MAX_SESSIONS; lia).
      rewrite Hcap.
      rewrite (take_ge (saves ++ [s'])) by (rewrite length_app; simpl; lia).
      rewrite (take_ge saves) by lia.
      rewrite fmap_app, rev_app_distr.
      change (rev ((fun x => metadataOf x.1 x.2) <$> [s']))
        with [metadataOf s'.1 s'.2].
      rewrite (take_ge saves) in Hkept, Hkept_lt by lia.
      apply (sortNewestFirst_snoc
               (metadataOf s'.1 s'.2 :: rev ((fun x => metadataOf x.1 x.2) <$> saves))).
      * constructor; [exact Hkept |].
        eapply Forall_impl; [exact (Hkept_lt _ Hlt') |].
        intros e He. cbv beta in He. unfold notOlder.
        rewrite timestamp_metadataOf. lia.
      * constructor; [exact Hs' | exact (Hkept_lt _ Hlt_saves)].
    + assert (Hcap : (S (9 `min` List.length saves) <? MAX_SESSIONS)%nat = false)
        by (apply Nat.ltb_ge; unfold MAX_SESSIONS; lia).
      rewrite Hcap. simpl tail. rewrite (take_app_le saves [s']) by lia.
      apply sortNewestFirst_snoc; [exact Hkept | exact (Hkept_lt _ Hlt_saves)].
Qed.

End WithHost.

(** The order of the saves in time does not make up for handlers that
    overlap: of two saves at milliseconds 1 and 2 that both read the empty
    index, the index keeps the one that stores it last. *)
Example overlapping_saves_drop_an_entry :
  inTimeOrder [sampleSave 1 "Standup"; sampleSave 2 "Retro"]
  /\ id <$> indexOf (storeAfter (H := plainHost)
                       (overlap (sampleSave 1 "Standup") (sampleSave 2 "Retro")))
     = ["session_2"]
  /\ id <$> indexOf (storeAfter (H := plainHost)
                       (oneByOne [sampleSave 1 "Standup"; sampleSave 2 "Retro"]))
     = ["session_2"; "session_1"].
Proof.
  split; [| vm_compute; split; reflexivity].
  unfold inTimeOrder. repeat (constructor; [| repeat constructor; simpl; lia]).
  constructor.
Qed.

Lemma tenSaves_then_one_in_time_order :
  inTimeOrder (tenSaves ++ [sampleSave 11 "Retro"]).
Proof.
  unfold inTimeOrder. repeat (constructor; [| repeat constructor; simpl; lia]).
  constructor.
Qed.

(** The theorem for the same ten saves and an eleventh at millisecond 11:
    the tenth session is gone, the first nine are there. *)
Lemma first_nine_witness :
  id <$> indexOf (storeAfter (H := plainHost) (oneByOne (tenSaves ++ [sampleSave 11 "Retro"])))
  = ["session_11"; "session_9"; "session_8"; "session_7"; "session_6";
     "session_5"; "session_4"; "session_3"; "session_2"; "session_1"].
Proof.
  rewrite (first_nine_sessions_are_never_evicted (H := plainHost)
             tenSaves (sampleSave 11 "Retro") tenSaves_then_one_in_time_order).
  vm_compute. reflexivity.
Defined.

End OrderFacts.

(** ** Screenshot buffers over the life of the worker *)

Module LifecycleFacts.
Import Screenshots ScreenshotHandlers ScreenshotLifecycle.

#[local] Arguments storeScreenshotForMeeting : simpl never.












End LifecycleFacts.

(** ** What the archive holds for a session *)

Module ContentFacts.
Import Archive SessionArchive SaveHandlers SessionContent KeyFacts ArchiveFacts.





Section WithHost.
Context `{Host}.









End WithHost.


(** Different session ids do not make up for handlers that overlap. In
    [staleReadSaves] twelve saves with twelve ids all end; the index of
    ten entries holds the entry of millisecond 10, which a handler that
    had read the index earlier put back after another handler had evicted
    it and removed its chunk: the entry says one chunk, and the store has
    none. *)
Example stale_index_keeps_an_entry_without_its_chunk :
  Handlers.inFlight (run (H := plainHost) staleReadSaves start) = []
  /\ id <$> indexOf (storeAfter (H := plainHost) staleReadSaves)
     = ["session_11"; "session_10"; "session_8"; "session_7"; "session_6";
        "session_5"; "session_4"; "session_3"; "session_2"; "session_1"]
  /\ chunkCount <$> indexOf (storeAfter (H := plainHost) staleReadSaves)
     = replicate 10 1%nat
  /\ storeAfter (H := plainHost) staleReadSaves !! "session_10_chunk_0" = None.
Proof. vm_compute. repeat split; reflexivity. Qed.

End ContentFacts.

(** ** Default settings *)

Module DefaultSettingsFacts.
Import DefaultSettings.

Lemma get_lookup keys (sync : syncStorage) key :
  key ∈ keys -> get keys sync !! key = sync !! key.
Proof.
  induction keys as [| k keys IH]; intros Hin; [now apply not_elem_of_nil in Hin |].
  simpl. destruct (decide (k = key)) as [-> | Hne].
  - destruct (sync !! key) as [v |] eqn:Hv; [now rewrite lookup_insert_eq |].
    destruct (decide (key ∈ keys)) as [Hin' | Hout]; [now rewrite IH |].
    clear IH Hin. induction keys as [| k' keys IH]; [apply lookup_empty |].
    simpl. apply not_elem_of_cons in Hout as [Hne Hout].
    destruct (sync !! k'); [rewrite lookup_insert_ne by congruence |]; now apply IH.
  - apply elem_of_cons in Hin as [-> | Hin]; [congruence |].
    destruct (sync !! k); [rewrite lookup_insert_ne by exact Hne |]; now apply IH.
Qed.

Lemma collectUpdates_lookup (fs stored : gmap string value) keys updates key :
  collectUpdates stored ((fun k => (k, fs !! k)) <$> keys) updates !! key
  = if bool_decide (key ∈ keys) then
      match fs !! key with
      | Some v => if bool_decide (stored !! key = Some v) then updates !! key else Some v
      | None => updates !! key
      end
    else updates !! key.
Proof.
  revert updates. induction keys as [| k keys IH]; intros updates; [reflexivity |].
  unfold collectUpdates in *. rewrite fmap_cons. simpl foldl. rewrite IH. clear IH.
  destruct (decide (k = key)) as [-> | Hne].
  - rewrite (bool_decide_eq_true_2 (key ∈ key :: keys)) by apply list_elem_of_here.
    destruct (fs !! key) as [v |]; [| now destruct (bool_decide (key ∈ keys))].
    destruct (bool_decide (stored !! key = Some v));
      [now destruct (bool_decide (key ∈ keys)) |].
    rewrite lookup_insert_eq. now destruct (bool_decide (key ∈ keys)).
  - assert (Hsame : (match fs !! k with
                     | Some v =>
                         if bool_decide (stored !! k = Some v) then updates
                         else <[k := v]> updates
                     | None => updates
                     end) !! key = updates !! key).
    { destruct (fs !! k) as [v |]; [| reflexivity].
      destruct (bool_decide (stored !! k = Some v)); [reflexivity |].
      now rewrite lookup_insert_ne. }
    rewrite Hsame.
    destruct (decide (key ∈ keys)) as [Hin | Hout].
    + rewrite !bool_decide_eq_true_2;
        [reflexivity | now apply list_elem_of_further | exact Hin].
    + rewrite !bool_decide_eq_false_2; [reflexivity | | exact Hout].
      intros Hin. apply elem_of_cons in Hin as [-> | Hin]; [congruence | contradiction].
Qed.

Lemma defaults_keys config : (defaults config).*1 = declaredKeys.
Proof. reflexivity. Qed.

(** Writing the updates, or skipping the write when there are none, leaves
    each key with its update if it has one and as it was if not. *)
Lemma write_lookup (updates sync : syncStorage) key :
  (if (0 <? size updates)%nat then updates ∪ sync else sync) !! key
  = match updates !! key with
    | Some v => Some v
    | None => sync !! key
    end.
Proof.
  destruct (0 <? size updates)%nat eqn:Hsize.
  - destruct (updates !! key) as [v |] eqn:Hv.
    + now apply lookup_union_Some_l.
    + now apply lookup_union_r.
  - apply Nat.ltb_ge in Hsize.
    assert (Hempty : updates = ∅) by (apply map_size_empty_iff; now apply Nat.le_0_r).
    assert (Hnone : updates !! key = None) by (rewrite Hempty; apply lookup_empty).
    now rewrite Hnone.
Qed.

Lemma ensure_lookup config (sync : syncStorage) key :
  ensureDefaultSettings (Some config) sync !! key = settled config sync key.
Proof.
  unfold ensureDefaultSettings. rewrite write_lookup.
  set (collected := collectUpdates _ _ _).
  assert (Hcollected :
            match collected !! key with
            | Some v => Some v
            | None => sync !! key
            end
            = if bool_decide (key ∈ declaredKeys) then
                match fields config !! key with
                | Some v => Some v
                | None => sync !! key
                end
              else sync !! key).
  { subst collected. unfold defaults at 2. rewrite collectUpdates_lookup, defaults_keys.
    destruct (decide (key ∈ declaredKeys)) as [Hin | Hout].
    - rewrite !bool_decide_eq_true_2 by exact Hin. rewrite get_lookup by exact Hin.
      destruct (fields config !! key) as [v |]; [| now rewrite lookup_empty].
      destruct (decide (sync !! key = Some v)) as [Heq | Hne].
      + rewrite bool_decide_eq_true_2 by exact Heq. now rewrite lookup_empty.
      + now rewrite bool_decide_eq_false_2 by exact Hne.
    - rewrite !bool_decide_eq_false_2 by exact Hout. now rewrite lookup_empty. }
  unfold settled. rewrite <- Hcollected.
  destruct (decide (key = "defaultSaveFormat")) as [-> | Hne].
  - rewrite bool_decide_eq_true_2 by reflexivity.
    destruct (allowedFormatList config) as [allowed |]; [| reflexivity].
    destruct (includesValue allowed _); [reflexivity |]. now rewrite lookup_insert_eq.
  - rewrite bool_decide_eq_false_2 by exact Hne.
    destruct (allowedFormatList config) as [allowed |]; [| reflexivity].
    destruct (includesValue allowed _); [reflexivity |].
    now rewrite lookup_insert_ne by congruence.
Qed.

Lemma settled_twice config (sync : syncStorage) key :
  settled config (ensureDefaultSettings (Some config) sync) key = settled config sync key.
Proof.
  unfold settled at 1. rewrite ensure_lookup. unfold settled.
  destruct (bool_decide (key = "defaultSaveFormat"));
    destruct (bool_decide (key ∈ declaredKeys));
    destruct (allowedFormatList config) as [allowed |];
    try destruct (includesValue allowed _);
    destruct (fields config !! key); reflexivity.
Qed.

(** X7. [ensureDefaultSettings], which runs at every start of the worker,
    does not only fill in what is missing: every declared setting for which
    the config has a value is set to that value, whatever was stored for it,
    so a choice the user had stored is gone after the next start. A declared
    setting the config has no value for, and every other key of the store,
    stays as it was. The one exception is [defaultSaveFormat]: when the
    config lists the allowed formats and its default is not among them, the
    setting becomes the first allowed format, or [md] when that is empty or
    missing. Running the function again changes nothing. *)
Theorem startup_resets_the_declared_settings
    (config : ConfigFile) (sync : syncStorage) :
  let after := ensureDefaultSettings (Some config) sync in
  (forall key, key ∉ declaredKeys -> after !! key = sync !! key)
  /\ (forall key, key ∈ declaredKeys -> key <> "defaultSaveFormat" ->
      after !! key = match fields config !! key with
                     | Some v => Some v
                     | None => sync !! key
                     end)
  /\ after !! "defaultSaveFormat"
     = match allowedFormatList config, fields config !! "defaultSaveFormat" with
       | Some allowed, Some (Text d) =>
           if Exporter.includes allowed d then Some (Text d)
           else Some (Text (Exporter.firstAllowedOrMd allowed))
       | Some allowed, _ => Some (Text (Exporter.firstAllowedOrMd allowed))
       | None, Some v => Some v
       | None, None => sync !! "defaultSaveFormat"
       end
  /\ ensureDefaultSettings (Some config) after = after
  /\ ensureDefaultSettings None sync = sync.
Proof.
  intros after. subst after. repeat split.
  - intros key Hout. rewrite ensure_lookup. unfold settled.
    rewrite (bool_decide_eq_false_2 (key ∈ declaredKeys)) by exact Hout.
    rewrite bool_decide_eq_false_2; [reflexivity |].
    intros ->. apply Hout. unfold declaredKeys. repeat constructor.
  - intros key Hin Hne. rewrite ensure_lookup. unfold settled.
    rewrite (bool_decide_eq_true_2 (key ∈ declaredKeys)) by exact Hin.
    now rewrite bool_decide_eq_false_2 by exact Hne.
  - rewrite ensure_lookup. unfold settled.
    rewrite bool_decide_eq_true_2 by reflexivity.
    rewrite bool_decide_eq_true_2 by (unfold declaredKeys; repeat constructor).
    destruct (allowedFormatList config) as [allowed |];
      destruct (fields config !! "defaultSaveFormat") as [[| b | q | d] |];
      reflexivity.
  - apply map_eq. intros key. rewrite ensure_lookup, settled_twice.
    symmetry. apply ensure_lookup.
Qed.

(** A stored format resolves to the fallback when it is the fallback
    itself or is not both truthy and allowed. *)
Lemma formatToSave_fallback config f :
  (JsString.truthy f = true ->
   Exporter.includes (Exporter.allowedFormats config) f = true ->
   f = Exporter.fallbackFormat config) ->
  Exporter.formatToSave config (Some f) = Exporter.fallbackFormat config.
Proof.
  intros Hsame. unfold Exporter.formatToSave.
  destruct (JsString.truthy f) eqn:Htruthy; [| reflexivity].
  destruct (Exporter.includes (Exporter.allowedFormats config) f) eqn:Hin; [| reflexivity].
  simpl. apply Hsame; reflexivity.
Qed.

Lemma fallback_export config :
  Exporter.fallbackFormat (exportConfig config)
  = let allowed := match allowedFormatList config with
                   | Some l => l
                   | None => ["md"; "txt"]
                   end in
    match textOf (fields config !! "defaultSaveFormat") with
    | Some d =>
        if JsString.truthy d && Exporter.includes allowed d then d
        else Exporter.firstAllowedOrMd allowed
    | None => Exporter.firstAllowedOrMd allowed
    end.
Proof. reflexivity. Qed.

Lemma allowed_export config :
  Exporter.allowedFormats (exportConfig config)
  = match allowedFormatList config with
    | Some l => l
    | None => ["md"; "txt"]
    end.
Proof. reflexivity. Qed.

Lemma defaultSaveFormat_declared : "defaultSaveFormat" ∈ declaredKeys.
Proof. unfold declaredKeys. repeat constructor. Qed.

(** X8. Once the config names a default format or lists the allowed formats,
    the format of an auto-save no longer depends on what was stored before
    the worker started: after [ensureDefaultSettings] the [save_on_leave]
    handler resolves the stored setting to the format it falls back to when
    nothing is stored, which is the config's default when that is allowed
    and the first allowed format or [md] otherwise. *)
Theorem auto_save_format_is_the_config_default_after_startup
    (config : ConfigFile) (sync : syncStorage) :
  is_Some (fields config !! "defaultSaveFormat") \/ is_Some (allowedFormatList config) ->
  Exporter.formatToSave (exportConfig config)
    (textOf (ensureDefaultSettings (Some config) sync !! "defaultSaveFormat"))
  = Exporter.fallbackFormat (exportConfig config).
Proof.
  intros Hdeclared. rewrite ensure_lookup. unfold settled.
  rewrite bool_decide_eq_true_2 by reflexivity.
  rewrite bool_decide_eq_true_2 by exact defaultSaveFormat_declared.
  destruct (allowedFormatList config) as [allowed |] eqn:Hallowed;
    destruct (fields config !! "defaultSaveFormat") as [v |] eqn:Hdefault.
  - destruct (includesValue allowed (Some v)) eqn:Hin.
    + destruct v as [| b | q | d]; try discriminate. simpl in Hin.
      apply formatToSave_fallback. intros Htruthy _.
      rewrite fallback_export, Hallowed, Hdefault. simpl.
      now rewrite Htruthy, Hin.
    + apply formatToSave_fallback. intros _ _.
      rewrite fallback_export, Hallowed, Hdefault.
      destruct v as [| b | q | d]; try reflexivity. simpl in *.
      now rewrite Hin, andb_false_r.
  - apply formatToSave_fallback. intros _ _.
    now rewrite fallback_export, Hallowed, Hdefault.
  - destruct v as [| b | q | d]; try reflexivity.
    apply formatToSave_fallback. intros Htruthy Hin.
    rewrite allowed_export, Hallowed in Hin.
    rewrite fallback_export, Hallowed, Hdefault. simpl.
    now rewrite Htruthy, Hin.
  - destruct Hdeclared as [[v Hv] | [l Hl]]; discriminate.
Qed.

(** The theorem for the config of the worked examples and a user who had
    chosen [txt]. *)
Lemma auto_save_format_witness :
  Exporter.formatToSave (exportConfig shippedConfigFile)
    (textOf (ensureDefaultSettings (Some shippedConfigFile)
               {["defaultSaveFormat" := Text "txt"]} !! "defaultSaveFormat"))
  = Exporter.fallbackFormat (exportConfig shippedConfigFile).
Proof.
  apply (auto_save_format_is_the_config_default_after_startup
           shippedConfigFile {["defaultSaveFormat" := Text "txt"]}).
  left. exists (Text "md"). reflexivity.
Defined.

(** With that config the user's [txt] is replaced by [md]. *)
Example stored_txt_becomes_md :
  ensureDefaultSettings (Some shippedConfigFile)
    {["defaultSaveFormat" := Text "txt"]} !! "defaultSaveFormat"
  = Some (Text "md").
Proof. vm_compute. reflexivity. Qed.

End DefaultSettingsFacts.

(** ** The popup and the worker *)

Module PopupFacts.
Import JsString Popup.

(** X9. The format the popup holds as its default may be one the config does
    not allow, since the popup takes the config's default unchecked; the
    worker's [saveTranscript] corrects it. Whatever the config and the
    stored setting, a save with the popup's default format is written in the
    format that the [save_on_leave] handler resolves from the same config
    and setting, so the Save button and the auto-save give the same kind of
    file; and when the popup's default is truthy and allowed, it is that
    format. *)
Theorem save_button_and_auto_save_agree_on_the_format
    (config : Config) (stored : option string) :
  Exporter.selectedFormat config (Some (currentDefaultFormat config stored))
  = Exporter.formatToSave config stored
  /\ (truthy (currentDefaultFormat config stored) = true ->
      currentDefaultFormat config stored ∈ Exporter.allowedFormats config ->
      Exporter.formatToSave config stored = currentDefaultFormat config stored).
Proof.
  assert (Hsel : Exporter.selectedFormat config (Some (currentDefaultFormat config stored))
                 = Exporter.formatToSave config stored).
  { unfold Exporter.selectedFormat, Exporter.formatToSave, currentDefaultFormat,
      Exporter.fallbackFormat.
    set (allowed := Exporter.allowedFormats config).
    assert (Hfirst :
              (if Exporter.includes allowed (Exporter.firstAllowedOrMd allowed)
               then if truthy (Exporter.firstAllowedOrMd allowed)
                    then Exporter.firstAllowedOrMd allowed
                    else Exporter.firstAllowedOrMd allowed
               else Exporter.firstAllowedOrMd allowed)
              = Exporter.firstAllowedOrMd allowed)
      by (destruct (Exporter.includes allowed _); [destruct (truthy _) |]; reflexivity).
    assert (Hfallback : forall d,
              match
                (if Exporter.includes allowed (or_else d (Exporter.firstAllowedOrMd allowed))
                 then Some (or_else d (Exporter.firstAllowedOrMd allowed)) else None)
              with
              | Some f =>
                  if truthy f then f
                  else if truthy d && Exporter.includes allowed d then d
                       else Exporter.firstAllowedOrMd allowed
              | None =>
                  if truthy d && Exporter.includes allowed d then d
                  else Exporter.firstAllowedOrMd allowed
              end
              = if truthy d && Exporter.includes allowed d then d
                else Exporter.firstAllowedOrMd allowed).
    { intros d. unfold or_else. destruct (truthy d) eqn:Hd; simpl.
      - destruct (Exporter.includes allowed d); [now rewrite Hd | reflexivity].
      - destruct (Exporter.includes allowed (Exporter.firstAllowedOrMd allowed));
          [destruct (truthy (Exporter.firstAllowedOrMd allowed)) |]; reflexivity. }
    destruct stored as [f |].
    - destruct (truthy f) eqn:Hf; simpl.
      + destruct (Exporter.includes allowed f) eqn:Hin; simpl.
        * now rewrite Hin, Hf.
        * destruct (defaultSaveFormat config) as [d |]; [apply Hfallback |].
          destruct (Exporter.includes allowed _); [destruct (truthy _) |]; reflexivity.
      + destruct (defaultSaveFormat config) as [d |]; [apply Hfallback |].
        destruct (Exporter.includes allowed _); [destruct (truthy _) |]; reflexivity.
    - destruct (defaultSaveFormat config) as [d |]; [apply Hfallback |].
      destruct (Exporter.includes allowed _); [destruct (truthy _) |]; reflexivity. }
  split; [exact Hsel |].
  intros Htruthy Hin. rewrite <- Hsel. unfold Exporter.selectedFormat.
  apply ExporterFacts.includes_true in Hin. now rewrite Hin, Htruthy.
Qed.

(** A config whose default is not among its allowed formats: the popup
    holds [md] as its default, and a save with it is written as [txt]. *)
Example popup_default_outside_the_allowed_formats :
  currentDefaultFormat (mkConfig (Some ["txt"]) (Some "md") None) None = "md"
  /\ Exporter.selectedFormat (mkConfig (Some ["txt"]) (Some "md") None) (Some "md")
     = "txt".
Proof. split; reflexivity. Qed.

(** X10. The Save menu sends a format to the tab exactly when the picked
    format is not empty and is allowed and a Teams tab is found, and the
    format sent is the one picked; it is then the format [saveTranscript]
    writes: the menu never leads to a file of another format than the one
    picked, and nothing is sent without a Teams tab. *)
Theorem picked_format_is_the_format_written
    (config : Config) (format : option string) (teamsTab : bool) (sent : string) :
  (handleSave config format teamsTab = Some sent
   <-> format = Some sent
       /\ sent <> EmptyString
       /\ sent ∈ Exporter.allowedFormats config
       /\ teamsTab = true)
  /\ (handleSave config format teamsTab = Some sent ->
      Exporter.selectedFormat config (Some sent) = sent
      /\ Exporter.extensionAndMime (Exporter.selectedFormat config (Some sent))
         = if bool_decide (sent = "md") then ("md", "text/markdown")
           else ("txt", "text/plain")).
Proof.
  assert (Hiff : handleSave config format teamsTab = Some sent
                 <-> format = Some sent
                     /\ sent <> EmptyString
                     /\ sent ∈ Exporter.allowedFormats config
                     /\ teamsTab = true).
  { unfold handleSave. split.
    - destruct format as [f |]; [| discriminate].
      destruct (truthy f) eqn:Hf; [| discriminate]. simpl.
      destruct (Exporter.includes (Exporter.allowedFormats config) f) eqn:Hin;
        [| discriminate].
      simpl. destruct teamsTab; [| discriminate]. intros [= <-].
      split; [reflexivity |]. split; [now apply ExporterFacts.truthy_nonempty |].
      split; [now apply ExporterFacts.includes_true | reflexivity].
    - intros (-> & Hne & Hin & ->).
      apply ExporterFacts.truthy_nonempty in Hne. apply ExporterFacts.includes_true in Hin.
      now rewrite Hne, Hin. }
  split; [exact Hiff |].
  intros Hsent. apply Hiff in Hsent as (_ & Hne & Hin & _).
  assert (Hsel : Exporter.selectedFormat config (Some sent) = sent)
    by now apply ExporterFacts.selectedFormat_as_is.
  split; [exact Hsel |]. now rewrite Hsel.
Qed.

(** The theorem for the config of the worked examples and a pick of
    [txt]: the pick is sent with a Teams tab and written as text, and is
    not sent without one. *)
Lemma picked_format_witness :
  handleSave shippedConfig (Some "txt") true = Some "txt"
  /\ handleSave shippedConfig (Some "txt") false <> Some "txt"
  /\ Exporter.extensionAndMime (Exporter.selectedFormat shippedConfig (Some "txt"))
     = ("txt", "text/plain").
Proof.
  split; [| split].
  - apply (picked_format_is_the_format_written shippedConfig (Some "txt") true "txt").
    split; [reflexivity |]. split; [discriminate |].
    split; [| reflexivity]. simpl. apply list_elem_of_further, list_elem_of_here.
  - intros Hsent.
    apply (picked_format_is_the_format_written shippedConfig (Some "txt") false "txt")
      in Hsent as (_ & _ & _ & Htab).
    discriminate.
  - apply (picked_format_is_the_format_written shippedConfig (Some "txt") true "txt").
    reflexivity.
Defined.

(** *** Aliases written by the popup *)

Lemma trimStart_id s :
  (forall c, first_char s = Some c -> is_white_space c = false) -> trimStart s = s.
Proof.
  destruct s as [| c s]; [reflexivity |]. intros Hfirst. simpl.
  now rewrite (Hfirst c eq_refl).
Qed.

Lemma trimEnd_id s :
  (forall c, last_char s = Some c -> is_white_space c = false) -> trimEnd s = s.
Proof.
  induction s as [| c s IH]; [reflexivity |]. intros Hlast. simpl.
  destruct s as [| c' s].
  - simpl. now rewrite (Hlast c eq_refl).
  - rewrite IH by (intros x Hx; apply Hlast; exact Hx). reflexivity.
Qed.

Lemma trim_idempotent s : trim (trim s) = trim s.
Proof.
  destruct (JsStringFacts.trim_trimmed s) as (l & t & _ & _ & _ & Hfirst & Hlast).
  unfold trim at 1. rewrite (trimStart_id _ Hfirst). now apply trimEnd_id.
Qed.

(** Every alias the popup has written is a trimmed text. *)
Lemma editedAliases_trimmed edits n a :
  editedAliases edits !! n = Some a -> trim a = a.
Proof.
  unfold editedAliases. revert n a.
  induction edits as [| [originalName value] edits IH] using rev_ind; intros n a.
  - simpl. rewrite lookup_empty. discriminate.
  - rewrite foldl_app. simpl. unfold setAlias at 1. simpl.
    destruct (bool_decide (originalName = "__proto__")); [apply IH |].
    destruct (decide (originalName = n)) as [-> | Hne].
    + rewrite lookup_insert_eq. intros [= <-]. apply trim_idempotent.
    + rewrite lookup_insert_ne by exact Hne. apply IH.
Qed.

Section WithEngine.
Context `{Engine}.

(** On a name whose lookup gives a text or nothing, and with an alias
    that is trimmed, the popup shows the name the worker exports. *)
Lemma shownName_aliasedName (aliases : gmap string string) n :
  (forall a, aliases !! n = Some a -> trim a = a) ->
  Alias.resolvable aliases n ->
  Alias.aliasedName aliases n = Some (shownName aliases n).
Proof.
  intros Htrimmed Hres.
  unfold Alias.aliasedName, shownName, Alias.getProperty, Alias.aliasMap.
  destruct (aliases !! n) as [a |] eqn:Ha.
  - now rewrite (Htrimmed a eq_refl).
  - destruct Hres as [[a Hsome] | Hout];
      [unfold Alias.aliasMap in Hsome; congruence |].
    now rewrite bool_decide_eq_false_2 by exact Hout.
Qed.

Lemma line_txtLine `{Host} (aliases : gmap string string) e e' :
  Alias.aliasEntry aliases e = Some e' ->
  (forall a, aliases !! Name e = Some a -> trim a = a) ->
  Alias.resolvable aliases (Name e) ->
  Format.txtLine e' = line aliases e.
Proof.
  intros He Htrimmed Hres. unfold Alias.aliasEntry in He.
  rewrite (shownName_aliasedName aliases (Name e) Htrimmed Hres) in He.
  simpl in He. injection He as <-. reflexivity.
Qed.

Lemma aliased_lines `{Host} (aliases : gmap string string) transcript :
  (forall n a, aliases !! n = Some a -> trim a = a) ->
  Forall (fun e => Alias.resolvable aliases (Name e)) transcript ->
  exists processed,
    mapM (Alias.aliasEntry aliases) transcript = Some processed
    /\ Format.txtLine <$> processed = line aliases <$> transcript.
Proof.
  intros Htrimmed Hres. induction Hres as [| e transcript He _ [processed [Hmap Hlines]]].
  - exists []. split; reflexivity.
  - destruct (Alias.aliasEntry aliases e) as [e' |] eqn:Hentry.
    + exists (e' :: processed). split.
      * simpl. rewrite Hentry. simpl. now rewrite Hmap.
      * rewrite !fmap_cons, Hlines. f_equal.
        apply (line_txtLine aliases e e' Hentry (Htrimmed (Name e)) He).
    + unfold Alias.aliasEntry in Hentry.
      now rewrite (shownName_aliasedName aliases (Name e) (Htrimmed (Name e)) He) in Hentry.
Qed.

Lemma unaliased_lines (transcript : list TranscriptEntry) :
  Forall (fun e => Alias.resolvable ∅ (Name e)) transcript ->
  Format.txtLine <$> transcript = line ∅ <$> transcript.
Proof.
  intros Hres. induction Hres as [| e transcript He _ IH]; [reflexivity |].
  rewrite !fmap_cons, IH. f_equal.
  unfold line, Format.txtLine, shownName, Alias.getProperty, Alias.resolvable,
    Alias.aliasMap in *.
  rewrite lookup_empty. destruct He as [[a Ha] | Hout].
  - rewrite lookup_empty in Ha. discriminate.
  - now rewrite bool_decide_eq_false_2 by exact Hout.
Qed.

(** X11. The text the popup copies and the text the worker exports are made
    by two functions that treat aliases differently: the popup takes the
    alias as stored, the worker trims it. For aliases that were written by
    the popup, which trims before it stores, and a transcript none of whose
    speakers bears a name that the alias object inherits without owning it,
    the two agree: an export that resolves to a format other than [md], for
    a meeting without attendee report, does not throw and downloads exactly
    the text that a copy of a type other than [ai] puts on the clipboard. *)
Theorem copied_text_is_the_exported_text `{Host}
    (edits : list (string * string)) (m : AutoSave.LeaveMessage) (config : Config)
    (format : option string) (saveAsPrompt : bool)
    (type : string) (aiInstructions : option string) :
  Forall (fun e => Alias.resolvable (editedAliases edits) (Name e))
         (AutoSave.transcriptArray m) ->
  AutoSave.attendeeReport m = None ->
  Exporter.selectedFormat config format <> "md" ->
  type <> "ai" ->
  exists d,
    AutoSave.saveTranscript m (editedAliases edits) config format saveAsPrompt = Some d
    /\ AutoSave.content d
       = formatTranscript (AutoSave.transcriptArray m) (editedAliases edits)
           type aiInstructions.
Proof.
  intros Hres Hreport Hformat Htype.
  unfold AutoSave.saveTranscript, formatTranscript.
  rewrite Hreport, (bool_decide_eq_false_2 _ Htype), (bool_decide_eq_false_2 _ Hformat).
  destruct (Alias.noAliases (editedAliases edits)) eqn:Hnone.
  - apply AliasFacts.noAliases_empty in Hnone. rewrite Hnone in *. simpl.
    eexists. split; [reflexivity |]. simpl. unfold Format.formatAsTxt. simpl.
    now rewrite unaliased_lines.
  - destruct (aliased_lines (editedAliases edits) (AutoSave.transcriptArray m)
                (editedAliases_trimmed edits) Hres) as [processed [Hmap Hlines]].
    rewrite Hmap. simpl. eexists. split; [reflexivity |]. simpl.
    unfold Format.formatAsTxt. simpl. now rewrite Hlines.
Qed.

End WithEngine.

(** The theorem for one speaker whose alias was typed with blanks around
    it. *)
Lemma copied_text_witness :
  exists d,
    AutoSave.saveTranscript (H := plainHost) standup
      (editedAliases [("Alice", "  Al ")]) shippedConfig (Some "txt") true = Some d
    /\ AutoSave.content d
       = formatTranscript (H := sampleEngine) (AutoSave.transcriptArray standup)
           (editedAliases [("Alice", "  Al ")]) "standard" None.
Proof.
  apply (copied_text_is_the_exported_text (H := sampleEngine) (H0 := plainHost)
           [("Alice", "  Al ")] standup shippedConfig (Some "txt") true "standard" None).
  - constructor; [| constructor]. left. exists "Al". reflexivity.
  - reflexivity.
  - vm_compute. discriminate.
  - discriminate.
Defined.

(** What both give for that input. *)
Example copied_text_with_alias :
  formatTranscript (H := sampleEngine) (AutoSave.transcriptArray standup)
    (editedAliases [("Alice", "  Al ")]) "standard" None
  = "[10:00] Al: Hi".
Proof. vm_compute. reflexivity. Qed.

End PopupFacts.

(** ** Lines of the text export *)

Module TxtLayoutFacts.
Import JsString TxtLayout.

Lemma free_of_app sep a b : free_of sep (a +:+ b) <-> free_of sep a /\ free_of sep b.
Proof. unfold free_of. rewrite JsStringFacts.all_chars_app. apply andb_true_iff. Qed.

(** Lines that each end with a line feed, followed by a text, split into
    those lines and the lines of the text. *)
Lemma split_terminated lines rest :
  Forall (free_of line_feed) lines ->
  split line_feed (foldr (fun l acc => l +:+ newline +:+ acc) rest lines)
  = lines ++ split line_feed rest.
Proof.
  intros Hfree. induction Hfree as [| l lines Hl _ IH]; [reflexivity |].
  simpl foldr.
  transitivity (l :: split line_feed
                       (foldr (fun l acc => l +:+ newline +:+ acc) rest lines)).
  - exact (JsStringFacts.split_app_free line_feed l _ Hl).
  - now rewrite IH.
Qed.

Lemma foldr_terminated (f : string -> string) names rest :
  foldr (fun n acc => f n +:+ newline +:+ acc) rest names
  = foldr (fun l acc => l +:+ newline +:+ acc) rest (f <$> names).
Proof.
  induction names as [| n names IH]; [reflexivity |].
  rewrite fmap_cons. cbn [foldr]. now rewrite IH.
Qed.

Section WithHost.
Context `{Host}.

(** The attendee block is its lines, each ended by a line feed. *)
Lemma txtAttendeeBlock_lines attendeeReport rest :
  Format.txtAttendeeBlock attendeeReport +:+ rest
  = foldr (fun l acc => l +:+ newline +:+ acc) rest (headerLines attendeeReport).
Proof.
  unfold Format.txtAttendeeBlock, headerLines.
  destruct attendeeReport as [r |]; [| reflexivity].
  destruct (0 <? totalUniqueAttendees r)%N; [| reflexivity].
  rewrite !foldr_app. simpl foldr.
  rewrite <- (foldr_terminated (fun n => "- " +:+ n)).
  rewrite !JsStringFacts.app_assoc. simpl. repeat f_equal.
  induction (attendeeList r) as [| n names IH]; [reflexivity |].
  simpl. rewrite !JsStringFacts.app_assoc. simpl. now rewrite IH.
Qed.

Lemma txtLine_oneLine e : oneLine e -> free_of line_feed (Format.txtLine e).
Proof.
  intros (Htime & Hname & Htext). unfold Format.txtLine.
  repeat (apply free_of_app; split); try assumption; reflexivity.
Qed.

(** X12. The text export can be read back line by line. When no line of the
    attendee block and no field of a caption holds a line feed, cutting the
    output of [formatAsTxt] at the line feeds gives the lines of the
    attendee block (none without a report that counts at least one attendee:
    five lines, one line per listed attendee, a blank line and the
    transcript heading otherwise) followed by exactly one line per caption,
    in order, each of the form [[time] name: text]; an empty transcript
    gives one empty line in their place. *)
Theorem text_export_has_one_line_per_caption
    (transcript : list TranscriptEntry) (attendeeReport : option AttendeeReport) :
  Forall (free_of line_feed) (headerLines attendeeReport) ->
  Forall oneLine transcript ->
  split line_feed (Format.formatAsTxt transcript attendeeReport)
  = headerLines attendeeReport
    ++ match transcript with
       | [] => [EmptyString]
       | _ => Format.txtLine <$> transcript
       end
  /\ (transcript <> [] ->
      List.length (split line_feed (Format.formatAsTxt transcript attendeeReport))
      = (List.length (headerLines attendeeReport) + List.length transcript)%nat).
Proof.
  intros Hheader Hlines.
  assert (Hsplit : split line_feed (Format.formatAsTxt transcript attendeeReport)
                   = headerLines attendeeReport
                     ++ match transcript with
                        | [] => [EmptyString]
                        | _ => Format.txtLine <$> transcript
                        end).
  { unfold Format.formatAsTxt.
    rewrite txtAttendeeBlock_lines, (split_terminated _ _ Hheader). f_equal.
    destruct transcript as [| e transcript]; [reflexivity |].
    apply (JsStringFacts.split_unique line_feed); [discriminate |].
    apply Forall_fmap. eapply Forall_impl; [exact Hlines |].
    intros x Hx. now apply txtLine_oneLine. }
  split; [exact Hsplit |].
  intros Hne. rewrite Hsplit, length_app.
  destruct transcript as [| e transcript]; [congruence |]. now rewrite length_fmap.
Qed.

End WithHost.

(** The theorem for a report with two attendees and a transcript of two
    captions. *)
Lemma text_export_witness :
  split line_feed
    (Format.formatAsTxt (H := plainHost)
       [mkEntry "10:00" "Alice" "Hi"; mkEntry "10:01" "Bob" "Hello"]
       (Some (mkReport ["Alice"; "Bob"] [] [] 2 1700000000000)))
  = ["=== MEETING ATTENDEES ==="; "Total Attendees: 2";
     "Meeting Start: 1700000000000"; EmptyString; "Attendee List:"; "- Alice";
     "- Bob"; EmptyString; "=== TRANSCRIPT ==="; "[10:00] Alice: Hi";
     "[10:01] Bob: Hello"].
Proof.
  apply (proj1 (text_export_has_one_line_per_caption (H := plainHost)
                  [mkEntry "10:00" "Alice" "Hi"; mkEntry "10:01" "Bob" "Hello"]
                  (Some (mkReport ["Alice"; "Bob"] [] [] 2 1700000000000))
                  ltac:(repeat constructor) ltac:(repeat constructor))).
Defined.

End TxtLayoutFacts.

(** ** File names *)

Module FilenameFacts.
Import JsString Filename.

(** *** The clean-up of underscores *)

Lemma collapse_first s : first_char (collapseUnderscores s) = first_char s.
Proof.
  induction s as [| c s IH]; [reflexivity |]. simpl.
  destruct (is_underscore c) eqn:Hc; [| reflexivity].
  destruct s as [| c' s]; [reflexivity |].
  destruct (is_underscore c') eqn:Hc'; [| reflexivity].
  rewrite IH. simpl. unfold is_underscore in *.
  apply Ascii.eqb_eq in Hc, Hc'. congruence.
Qed.

Lemma undoubled_cons c s :
  undoubled (String c s)
  = negb (is_underscore c
          && match first_char s with Some c' => is_underscore c' | None => false end)
    && undoubled s.
Proof. destruct s; reflexivity. Qed.

Lemma collapse_undoubled s : undoubled (collapseUnderscores s) = true.
Proof.
  induction s as [| c s IH]; [reflexivity |]. simpl collapseUnderscores.
  destruct (is_underscore c) eqn:Hc.
  - destruct s as [| c' s]; [simpl; now rewrite Hc |].
    destruct (is_underscore c') eqn:Hc'; [exact IH |].
    rewrite undoubled_cons, IH, collapse_first. simpl. now rewrite Hc', andb_false_r.
  - rewrite undoubled_cons, IH, Hc. reflexivity.
Qed.

Lemma strip_first s :
  stripTrailingUnderscores s <> EmptyString ->
  first_char (stripTrailingUnderscores s) = first_char s.
Proof.
  destruct s as [| c s]; [reflexivity |]. simpl.
  destruct (stripTrailingUnderscores s); [| reflexivity].
  destruct (is_underscore c); [congruence | reflexivity].
Qed.

Lemma strip_undoubled s :
  undoubled s = true -> undoubled (stripTrailingUnderscores s) = true.
Proof.
  induction s as [| c s IH]; [reflexivity |].
  rewrite undoubled_cons. intros Hs. apply andb_true_iff in Hs as [Hc Hs].
  simpl stripTrailingUnderscores.
  destruct (stripTrailingUnderscores s) as [| x r] eqn:Hr.
  - destruct (is_underscore c) eqn:Hu; [reflexivity |]. simpl. now rewrite Hu.
  - rewrite undoubled_cons, (IH Hs), andb_true_r.
    rewrite <- Hr, strip_first by (rewrite Hr; discriminate). exact Hc.
Qed.

Lemma strip_last s c :
  last_char (stripTrailingUnderscores s) = Some c -> is_underscore c = false.
Proof.
  induction s as [| x s IH]; simpl; [discriminate |].
  destruct (stripTrailingUnderscores s) as [| y t] eqn:Ht.
  - destruct (is_underscore x) eqn:Hx; simpl; [discriminate |].
    intros [= <-]. exact Hx.
  - intros Hl. apply IH. exact Hl.
Qed.

Lemma undoubled_occurs s n : undoubled s = true -> ~ occurs_at "__" s n.
Proof.
  revert n. induction s as [| c s IH]; intros n Hs Hocc.
  - apply JsStringFacts.occurs_at_empty in Hocc. discriminate.
  - simpl in Hs. apply andb_true_iff in Hs as [Hc Hs].
    destruct n as [| n].
    + apply JsStringFacts.occurs_at_0, JsStringFacts.prefix_app in Hocc.
      destruct Hocc as [b Hb]. simpl in Hb. injection Hb as -> ->. discriminate.
    + apply JsStringFacts.occurs_at_S in Hocc. now apply (IH n).
Qed.

(** *** The replacement of a token *)

Lemma replaceAllFrom_unfold key value before c s :
  replaceAllFrom key value before 0 (String c s)
  = if String.prefix key (String c s) then
      expand value key before (drop (String.length key) (String c s))
      +:+ replaceAllFrom key value (before +:+ String c EmptyString)
            (String.length key - 1) s
    else String c (replaceAllFrom key value (before +:+ String c EmptyString) 0 s).
Proof. reflexivity. Qed.

(** The characters of a match are passed over. *)
Lemma replaceAllFrom_skip key value before a rest :
  replaceAllFrom key value before (String.length a) (a +:+ rest)
  = replaceAllFrom key value (before +:+ a) 0 rest.
Proof.
  revert before. induction a as [| c a IH]; intros before.
  - simpl. rewrite JsStringFacts.app_nil_r. now destruct rest.
  - simpl. rewrite IH. now rewrite JsStringFacts.app_assoc.
Qed.

(** A match at the head of the scan. *)
Lemma replaceAllFrom_match c key value before rest :
  replaceAllFrom (String c key) value before 0 (String c key +:+ rest)
  = expand value (String c key) before rest
    +:+ replaceAllFrom (String c key) value (before +:+ String c key) 0 rest.
Proof.
  change (String c key +:+ rest) with (String c (key +:+ rest)) at 1.
  rewrite replaceAllFrom_unfold.
  assert (Hprefix : String.prefix (String c key) (String c (key +:+ rest)) = true)
    by (apply JsStringFacts.prefix_app; now exists rest).
  rewrite Hprefix.
  change (String c (key +:+ rest)) with (String c key +:+ rest).
  rewrite JsStringFacts.drop_app. f_equal.
  replace (String.length (String c key) - 1)%nat with (String.length key)
    by (simpl; lia).
  rewrite replaceAllFrom_skip. now rewrite JsStringFacts.app_assoc.
Qed.

(** A stretch without the first character of the key is copied. *)
Lemma replaceAllFrom_copy c key value before a rest :
  free_of c a ->
  replaceAllFrom (String c key) value before 0 (a +:+ rest)
  = a +:+ replaceAllFrom (String c key) value (before +:+ a) 0 rest.
Proof.
  unfold free_of. revert before. induction a as [| x a IH]; intros before Ha.
  - simpl. now rewrite JsStringFacts.app_nil_r.
  - simpl in Ha. apply andb_true_iff in Ha as [Hx Ha]. apply negb_true_iff in Hx.
    change (String x a +:+ rest) with (String x (a +:+ rest)).
    rewrite replaceAllFrom_unfold.
    assert (Hprefix : String.prefix (String c key) (String x (a +:+ rest)) = false).
    { simpl. destruct (ascii_dec c x) as [-> |]; [| reflexivity].
      now rewrite Ascii.eqb_refl in Hx. }
    rewrite Hprefix, (IH _ Ha). now rewrite JsStringFacts.app_assoc.
Qed.

Lemma replaceAllFrom_nil key value before skip :
  replaceAllFrom key value before skip EmptyString = EmptyString.
Proof. reflexivity. Qed.

Lemma replaceAllFrom_free c key value before a :
  free_of c a -> replaceAllFrom (String c key) value before 0 a = a.
Proof.
  intros Ha. rewrite <- (JsStringFacts.app_nil_r a) at 1.
  rewrite (replaceAllFrom_copy c key value before a EmptyString Ha).
  now rewrite replaceAllFrom_nil, JsStringFacts.app_nil_r.
Qed.

(** A text in which the key does not occur is left as it is. *)
Lemma replaceAllFrom_absent key value before s :
  occurs key s = false -> replaceAllFrom key value before 0 s = s.
Proof.
  revert before. induction s as [| c s IH]; intros before Hs; [reflexivity |].
  simpl in Hs. apply orb_false_iff in Hs as [Hprefix Hs].
  rewrite replaceAllFrom_unfold. simpl String.prefix. rewrite Hprefix.
  now rewrite IH.
Qed.

(** A replacement text without a dollar sign is inserted as it is. *)
Lemma expand_plain value matched before after :
  free_of "$" value -> expand value matched before after = value.
Proof.
  unfold free_of. induction value as [| c value IH]; [reflexivity |].
  simpl. intros Hv. apply andb_true_iff in Hv as [Hc Hv].
  apply negb_true_iff in Hc. unfold is_dollar. rewrite Hc. now rewrite IH.
Qed.

Section WithHost.
Context `{DateHost}.

(** X13. Whatever the pattern, the title, the format, the attendee report
    and the clock, the name [generateFilename] returns holds no two
    underscores side by side and does not end with an underscore. *)
Theorem file_name_has_no_doubled_or_trailing_underscore
    (config : Config) (now : N) (pattern meetingTitle : option string)
    (format : string) (attendeeReport : option AttendeeReport) :
  let filename :=
    generateFilename config now pattern meetingTitle format attendeeReport in
  (forall n, ~ occurs_at "__" filename n)
  /\ last_char filename <> Some "_"%char.
Proof.
  intros filename. subst filename. unfold generateFilename.
  set (replaced := foldl _ _ _). split.
  - intros n. apply undoubled_occurs, strip_undoubled, collapse_undoubled.
  - intros Hl. apply strip_last in Hl. discriminate.
Qed.

Lemma replaceAllFrom_whole c key value before :
  replaceAllFrom (String c key) value before 0 (String c key)
  = expand value (String c key) before EmptyString.
Proof.
  pose proof (replaceAllFrom_match c key value before EmptyString) as Hmatch.
  rewrite replaceAllFrom_nil in Hmatch.
  rewrite !JsStringFacts.app_nil_r in Hmatch. exact Hmatch.
Qed.

Lemma replaceAll_date d :
  free_of "$" d -> replaceAll "{date}" d "{date}_{title}" = d +:+ "_{title}".
Proof.
  intros Hd. unfold replaceAll.
  change "{date}_{title}" with ("{date}" +:+ "_{title}").
  rewrite replaceAllFrom_match, (expand_plain _ _ _ _ Hd).
  now rewrite replaceAllFrom_absent by reflexivity.
Qed.

Lemma replaceAll_time d value :
  free_of "{" d -> replaceAll "{time}" value (d +:+ "_{title}") = d +:+ "_{title}".
Proof.
  intros Hd. unfold replaceAll.
  rewrite (replaceAllFrom_copy "{" "time}" value EmptyString d "_{title}" Hd).
  now rewrite replaceAllFrom_absent by reflexivity.
Qed.

Lemma replaceAll_title d t :
  free_of "{" d -> free_of "$" t ->
  replaceAll "{title}" t (d +:+ "_{title}") = d +:+ "_" +:+ t.
Proof.
  intros Hd Ht. unfold replaceAll.
  rewrite (replaceAllFrom_copy "{" "title}" t EmptyString d "_{title}" Hd).
  change "_{title}" with ("_" +:+ "{title}").
  rewrite (replaceAllFrom_copy "{" "title}" t _ "_" "{title}" eq_refl).
  now rewrite replaceAllFrom_whole, (expand_plain _ _ _ _ Ht).
Qed.

Lemma replaceAll_free c key value s :
  free_of c s -> replaceAll (String c key) value s = s.
Proof. apply replaceAllFrom_free. Qed.

Lemma all_chars_cons p c s : all_chars p (String c s) = p c && all_chars p s.
Proof. reflexivity. Qed.

Lemma collapse_all p s :
  all_chars p s = true -> all_chars p (collapseUnderscores s) = true.
Proof.
  induction s as [| c s IH]; [reflexivity |]. rewrite all_chars_cons.
  intros Hs. apply andb_true_iff in Hs as [Hc Hs]. specialize (IH Hs).
  simpl collapseUnderscores. destruct (is_underscore c).
  - destruct s as [| c' s]; [now rewrite all_chars_cons, Hc |].
    destruct (is_underscore c'); [exact IH |].
    now rewrite all_chars_cons, Hc, IH.
  - now rewrite all_chars_cons, Hc, IH.
Qed.

Lemma strip_all p s :
  all_chars p s = true -> all_chars p (stripTrailingUnderscores s) = true.
Proof.
  induction s as [| c s IH]; [reflexivity |]. rewrite all_chars_cons.
  intros Hs. apply andb_true_iff in Hs as [Hc Hs]. specialize (IH Hs).
  simpl stripTrailingUnderscores. destruct (stripTrailingUnderscores s) as [| x r].
  - destruct (is_underscore c); [reflexivity |]. now rewrite all_chars_cons, Hc.
  - now rewrite all_chars_cons, Hc, IH.
Qed.

(** The sanitised title holds no character a file name may not hold. *)
Lemma sanitized_title_is_legal fullTitle :
  all_chars (fun c => negb (forbidden_in_filename c)) (getSanitizedMeetingName fullTitle)
  = true.
Proof.
  destruct fullTitle as [[| c t] |]; try reflexivity.
  unfold getSanitizedMeetingName, or_else.
  match goal with |- context [replaceClass ?f ?r ?s] =>
    pose proof (JsStringFacts.replaceClass_clean f r s forbidden_underscore) as Hclean;
    destruct (replaceClass f r s) eqn:Hr end; [reflexivity | exact Hclean].
Qed.

(** X14. With the pattern [{date}_{title}], which is what the function
    starts from when neither the stored setting nor the config names
    another, the file is named by the date and the sanitised title joined
    with an underscore, then cleaned of doubled and trailing underscores,
    whatever the time, the format and the attendees; and when the date holds
    no character that a file name may not hold, neither does the file name.
    This needs the date and the title to hold neither a dollar sign nor an
    opening brace: the values are used as replacement templates, in which a
    dollar sign is special, and the tokens are replaced one after the other,
    so that a token spelt in the title would be replaced as well. *)
Theorem default_pattern_names_the_file_by_date_and_title
    (config : Config) (now : N) (pattern meetingTitle : option string)
    (format : string) (attendeeReport : option AttendeeReport) :
  startPattern config pattern = "{date}_{title}" ->
  free_of "$" (dateStr now) -> free_of "{" (dateStr now) ->
  free_of "$" (getSanitizedMeetingName meetingTitle) ->
  free_of "{" (getSanitizedMeetingName meetingTitle) ->
  generateFilename config now pattern meetingTitle format attendeeReport
  = stripTrailingUnderscores
      (collapseUnderscores
         (dateStr now +:+ "_" +:+ getSanitizedMeetingName meetingTitle))
  /\ (all_chars (fun c => negb (forbidden_in_filename c)) (dateStr now) = true ->
      all_chars (fun c => negb (forbidden_in_filename c))
        (generateFilename config now pattern meetingTitle format attendeeReport) = true).
Proof.
  intros Hstart Hd Hd' Ht Ht'.
  assert (Hname : generateFilename config now pattern meetingTitle format attendeeReport
                  = stripTrailingUnderscores
                      (collapseUnderscores
                         (dateStr now +:+ "_" +:+ getSanitizedMeetingName meetingTitle))).
  { unfold generateFilename. rewrite Hstart.
    unfold replacements. cbn [foldl fst snd].
    rewrite (replaceAll_date _ Hd), (replaceAll_time _ _ Hd'),
      (replaceAll_title _ _ Hd' Ht).
    assert (Hfree : free_of "{"
                      (dateStr now +:+ "_" +:+ getSanitizedMeetingName meetingTitle)).
    { apply TxtLayoutFacts.free_of_app. split; [exact Hd' |].
      apply TxtLayoutFacts.free_of_app. split; [reflexivity | exact Ht']. }
    now rewrite !(replaceAll_free _ _ _ _ Hfree). }
  split; [exact Hname |].
  intros Hlegal. rewrite Hname. apply strip_all, collapse_all.
  rewrite !JsStringFacts.all_chars_app, Hlegal, sanitized_title_is_legal. reflexivity.
Qed.

End WithHost.

(** The theorem for a meeting called Standup on the first of January
    2024, with no pattern stored or configured. *)
Lemma default_pattern_witness :
  generateFilename (H := sampleDateHost) (mkConfig None None None) 0 None
    (Some "Standup | Microsoft Teams") "md" None
  = "2024-01-01_Standup".
Proof.
  rewrite (proj1 (default_pattern_names_the_file_by_date_and_title (H := sampleDateHost)
                    (mkConfig None None None) 0 None (Some "Standup | Microsoft Teams")
                    "md" None eq_refl eq_refl eq_refl eq_refl eq_refl)).
  reflexivity.
Defined.

(** The tokens are replaced in the order date, time, title, format,
    attendees, each in the result of the one before: a token spelt in the
    title is replaced by a later step. *)
Example token_in_the_title_is_replaced :
  generateFilename (H := sampleDateHost) (mkConfig None None None) 0 None
    (Some "Notes {format}") "md" None
  = "2024-01-01_Notes md".
Proof. vm_compute. reflexivity. Qed.

(** The title is used as a replacement template: the two characters
    dollar and ampersand in it stand for the matched token. *)
Example dollar_in_the_title_is_a_pattern :
  generateFilename (H := sampleDateHost) (mkConfig None None None) 0 None
    (Some "R$&D") "md" None
  = "2024-01-01_R{title}D".
Proof. vm_compute. reflexivity. Qed.

(** A token that stands for nothing leaves no doubled underscore behind. *)
Example empty_token_leaves_one_underscore :
  generateFilename (H := sampleDateHost)
    (mkConfig None None (Some "{date}_{attendees}_{title}_")) 0 None
    (Some "Standup") "md" None
  = "2024-01-01_Standup".
Proof. vm_compute. reflexivity. Qed.

End FilenameFacts.

(** ** Traces of the auto-save guard *)

Module GuardTraceFacts.
Import AutoSave GuardTrace AutoSaveFacts.

Section WithHost.
Context `{Host}.

Lemma settle_keeps_key o g :
  o <> Threw -> lastAutoSaveId (settle o g) = lastAutoSaveId g.
Proof. intros Ho. destruct o; [congruence | reflexivity | reflexivity]. Qed.

(** Once the guard holds the key, nothing of a quiet stretch is admitted
    and the guard goes on holding the key. *)
Lemma quiet_after_admission w k events :
  lastAutoSaveId (guardOf w) = Some k ->
  Forall (quiet k) events ->
  acceptedCount (run w events).2 = 0%nat
  /\ lastAutoSaveId (guardOf (run w events).1) = Some k.
Proof.
  intros Hk Hquiet. revert w Hk.
  induction Hquiet as [| e events He _ IH]; intros w Hk; [now split |].
  rewrite run_cons. destruct e as [m | m env |]; simpl in He; [| | contradiction].
  - rewrite (request_remembered w m) by congruence.
    destruct (IH w Hk) as [Hcount Hkey].
    destruct (run w events) as [w' os]. now split.
  - unfold step.
    set (w1 := {| guardOf := settle (body m env) (guardOf w); downloads := _ |}).
    destruct (IH w1) as [Hcount Hkey];
      [subst w1; cbn [guardOf]; rewrite settle_keeps_key by exact He; exact Hk |].
    destruct (run w1 events) as [w' os]. now split.
Qed.

(** X15. While one meeting occurrence is being left, however many
    [save_on_leave] messages arrive for it and however they fall between the
    handlers that end, at most one of them is admitted, as long as no
    handler ends with an exception and no capture is started; from an idle
    guard that holds no key exactly one is admitted when there is any, and
    none once the guard holds the key. *)
Theorem one_admission_per_meeting_occurrence
    (w : worker) (k : string) (events : list event) :
  Forall (quiet k) events ->
  (acceptedCount (run w events).2 <= 1)%nat
  /\ (guardOf w = idle -> Exists isRequest events ->
      acceptedCount (run w events).2 = 1%nat)
  /\ (lastAutoSaveId (guardOf w) = Some k ->
      acceptedCount (run w events).2 = 0%nat).
Proof.
  intros Hquiet. split; [| split].
  - revert w. induction Hquiet as [| e events He Hrest IH]; intros w; [simpl; lia |].
    rewrite run_cons. destruct e as [m | m env |]; simpl in He; [| | contradiction].
    + unfold step. destruct (accept m (guardOf w)) as [g |] eqn:Hacc.
      * assert (Hg : lastAutoSaveId g = Some k).
        { unfold accept in Hacc. destruct (_ || _); [discriminate |].
          injection Hacc as <-. simpl. now rewrite He. }
        destruct (quiet_after_admission
                    {| guardOf := g; downloads := downloads w |} k events Hg Hrest)
          as [Hcount _].
        destruct (run _ events) as [w' os]. simpl in *. lia.
      * specialize (IH w). destruct (run w events) as [w' os]. exact IH.
    + unfold step.
      set (w1 := {| guardOf := settle (body m env) (guardOf w); downloads := _ |}).
      specialize (IH w1). destruct (run w1 events) as [w' os]. exact IH.
  - intros Hidle Hsome. revert w Hidle.
    induction Hquiet as [| e events He Hrest IH]; intros w Hidle;
      [now apply Exists_nil in Hsome |].
    rewrite run_cons. destruct e as [m | m env |]; simpl in He; [| | contradiction].
    + rewrite (request_accepted w m)
        by (rewrite Hidle; apply accept_idle; discriminate).
      destruct (quiet_after_admission
                  {| guardOf := {| lastAutoSaveId := Some (saveId m);
                                   autoSaveInProgress := true |};
                     downloads := downloads w |} k events)
        as [Hcount _]; [simpl; now rewrite He | exact Hrest |].
      destruct (run _ events) as [w' os]. simpl in *. lia.
    + apply Exists_cons in Hsome as [Hreq | Hsome]; [contradiction |].
      unfold step.
      set (w1 := {| guardOf := settle (body m env) (guardOf w); downloads := _ |}).
      assert (Hidle1 : guardOf w1 = idle).
      { subst w1. simpl. rewrite Hidle. unfold settle, idle. simpl.
        now destruct (body m env). }
      specialize (IH Hsome w1 Hidle1). destruct (run w1 events) as [w' os]. exact IH.
  - intros Hk. exact (proj1 (quiet_after_admission w k events Hk Hquiet)).
Qed.

End WithHost.

(** The theorem for three requests for one meeting occurrence, the first
    of which is served while the second waits. *)
Lemma one_admission_witness :
  acceptedCount
    (run (H := plainHost) start
       [Request standup; Request standup; Complete standup autoSaveOn; Request standup]).2
  = 1%nat.
Proof.
  apply (one_admission_per_meeting_occurrence (H := plainHost) start (saveId standup)
           [Request standup; Request standup; Complete standup autoSaveOn; Request standup]).
  - repeat constructor. vm_compute. discriminate.
  - reflexivity.
  - constructor. exact I.
Defined.

End GuardTraceFacts.

(** ** The attendee report under aliases *)

Module AliasReportFacts.
Import Alias AliasReport.

Lemma aliasedName_newName (aliases : aliasMap) n :
  resolvable aliases n -> aliasedName aliases n = Some (newName aliases n).
Proof.
  unfold resolvable, aliasedName, getProperty, newName, JsString.or_else.
  intros Hres. destruct (aliases !! n) as [a |] eqn:Ha.
  - destruct (JsString.trim a); reflexivity.
  - destruct Hres as [[a Hsome] | Hplain]; [discriminate |].
    now rewrite bool_decide_eq_false_2 by exact Hplain.
Qed.

Lemma aliasNamed_renamed (aliases : aliasMap) a :
  resolvable aliases (name a) -> aliasNamed aliases a = Some (renamedNamed aliases a).
Proof.
  intros Hres. unfold aliasNamed. now rewrite (aliasedName_newName _ _ Hres).
Qed.

Lemma aliasReport_renamed (aliases : aliasMap) r :
  namesResolvable aliases r -> aliasReport aliases r = Some (renamedReport aliases r).
Proof.
  intros (Hlist & Hcurrent & Hhistory). unfold aliasReport.
  assert (H1 : mapM (aliasedName aliases) (attendeeList r)
               = Some (newName aliases <$> attendeeList r)).
  { apply mapM_Some, Forall2_fmap_r, Forall_Forall2_diag.
    eapply Forall_impl; [exact Hlist |]. intros n. apply aliasedName_newName. }
  assert (H2 : mapM (aliasNamed aliases) (currentAttendees r)
               = Some (renamedNamed aliases <$> currentAttendees r)).
  { apply mapM_Some, Forall2_fmap_r, Forall_Forall2_diag.
    eapply Forall_impl; [exact Hcurrent |]. intros a. apply aliasNamed_renamed. }
  assert (H3 : mapM (aliasNamed aliases) (attendeeHistory r)
               = Some (renamedNamed aliases <$> attendeeHistory r)).
  { apply mapM_Some, Forall2_fmap_r, Forall_Forall2_diag.
    eapply Forall_impl; [exact Hhistory |]. intros a. apply aliasNamed_renamed. }
  rewrite H1. simpl. rewrite H2. simpl. rewrite H3. reflexivity.
Qed.

(** X16. With a non-empty alias map, and when every name in the report is an
    own key of the map or no name that objects inherit,
    [applyAliasesToAttendeeReport] returns a new report object and writes to
    no existing one: the report it was given reads as before. In the new
    report the attendee list and the names of the current attendees and of
    the history events are renamed, entry by entry and in order, to the
    trimmed alias where the map has one that is not blank; the other fields
    of those entries, the meeting start and the count of unique attendees
    are carried over. The count is not recomputed, also when two attendees
    receive the same alias. *)
Theorem aliased_report_is_a_renamed_copy
    (h : heap) (attendeeReport : loc) (aliases : aliasMap) (rep : AttendeeReport) :
  aliases <> ∅ ->
  readReport h attendeeReport = Some rep ->
  namesResolvable aliases rep ->
  exists (h' : heap) (result : loc),
    applyAliasesToAttendeeReport h (Some attendeeReport) aliases = Some (h', Some result)
    /\ result = List.length h
    /\ (forall l c, h !! l = Some c -> h' !! l = Some c)
    /\ readReport h' attendeeReport = Some rep
    /\ readReport h' result = Some (renamedReport aliases rep)
    /\ List.length (attendeeList (renamedReport aliases rep))
       = List.length (attendeeList rep)
    /\ totalUniqueAttendees (renamedReport aliases rep) = totalUniqueAttendees rep.
Proof.
  intros Hne Hread Hres. unfold applyAliasesToAttendeeReport.
  rewrite (AliasFacts.noAliases_false _ Hne), Hread. simpl.
  rewrite (aliasReport_renamed _ _ Hres). simpl.
  exists (h ++ [Report (renamedReport aliases rep)]), (List.length h).
  split; [reflexivity |]. split; [reflexivity |].
  split; [intros l c Hl; now apply lookup_app_l_Some |].
  split.
  { unfold readReport in *. destruct (h !! attendeeReport) as [c |] eqn:Hcell;
      [| discriminate].
    now rewrite (lookup_app_l_Some _ _ _ _ Hcell). }
  split.
  { unfold readReport.
    assert (Hcell : (h ++ [Report (renamedReport aliases rep)]) !! List.length h
                    = Some (Report (renamedReport aliases rep))).
    { rewrite lookup_app_r by lia. now rewrite Nat.sub_diag. }
    change (match (h ++ [Report (renamedReport aliases rep)]) !! List.length h with
            | Some (Report r) => Some r
            | _ => None
            end = Some (renamedReport aliases rep)).
    now rewrite Hcell. }
  split; [apply length_fmap | reflexivity].
Qed.

(** The theorem for a report of two attendees who are given the same
    alias: the list names it twice and the count stays at two. *)
Lemma aliased_report_witness :
  exists h' result,
    applyAliasesToAttendeeReport
      [Report (mkReport ["Alice"; "Bob"] [mkNamed "Alice" []] [] 2 0)] (Some 0%nat)
      {["Alice" := "Team"; "Bob" := " Team "]} = Some (h', Some result)
    /\ readReport h' result
       = Some (mkReport ["Team"; "Team"] [mkNamed "Team" []] [] 2 0).
Proof.
  destruct (aliased_report_is_a_renamed_copy
              [Report (mkReport ["Alice"; "Bob"] [mkNamed "Alice" []] [] 2 0)] 0%nat
              {["Alice" := "Team"; "Bob" := " Team "]}
              (mkReport ["Alice"; "Bob"] [mkNamed "Alice" []] [] 2 0))
    as (h' & result & Happly & _ & _ & _ & Hread & _).
  - apply insert_non_empty.
  - reflexivity.
  - repeat split; repeat (apply Forall_cons; split); try apply List.Forall_nil;
      left; vm_compute; eauto.
  - exists h', result. split; [exact Happly | exact Hread].
Defined.

End AliasReportFacts.

(** ** One store for three features *)

Module SharedStoreFacts.
Import Screenshots Archive SessionArchive SharedStore KeyFacts ArchiveFacts.










(** *** The screenshot buffers read and write their own keys only *)






Section WithHost.
Context `{Host}.

(** *** A save reads the index and writes the keys of sessions *)



(** *** The three features side by side *)







End WithHost.

End SharedStoreFacts.
